(** * PatrickStar: the chunk client's access / release protocol

    A shallow embedding of [patrickstar/core/client.py] (class
    [PatrickStarClient]) together with the parts of the chunk directory,
    the tensor-to-chunk index and the parameter attributes that the client
    calls.  The client methods are transcribed from the source, statement by
    statement; logging and timing instrumentation ([logger], [global_timer])
    is left out.  The collaborators whose source is not part of this
    development are modelled from the design document and are marked so. *)

From stdpp Require Import base option list gmap fin_maps.
From Stdlib Require Import ZArith Lia.

Open Scope nat_scope.

(** ** Enumerations ([const.py], [parameter.py], [chunk_list.py]) *)

(** Modelled from the spec: [const.AccessType] is missing; section 3 names the
    two access kinds, data and gradient. *)
Inductive AccessType := DATA | GRAD.

(** Modelled from the spec: [const.TensorStatus] is missing; these are the
    members the client names, which are the tensor statuses of section 3
    short of [RELEASED], which the client uses for chunks only. *)
Inductive TensorStatus := FREE | COMPUTE | HOLD | HOLD_AFTER_FWD | HOLD_AFTER_BWD.

(** Modelled from the spec: [const.ChunkStatus] is missing; the aggregate of
    section 3, with [RELEASED] for a chunk without storage. *)
Inductive ChunkStatus :=
  | CS_RELEASED | CS_COMPUTE | CS_HOLD | CS_HOLD_AFTER_FWD | CS_HOLD_AFTER_BWD | CS_FREE.

(** Modelled from the spec: [const.TrainingStage] is missing; section 6 names
    [FWD] and [BWD], and the assertion in [release_dist] admits further
    members, which [OTHER_STAGE] stands for. *)
Inductive TrainingStage := FWD | BWD | OTHER_STAGE.

(** Modelled from the spec: [parameter.ParamType] is missing; the client
    names both members. *)
Inductive ParamType := TORCH_BASED | CHUNK_BASED.

(** Modelled from the spec: [chunk_list.ChunkType] is missing; the chunk
    category of section 4.2.  The client names [PARAM_FP16]; the other
    categories are numbered. *)
Inductive ChunkType := PARAM_FP16 | OTHER_TYPE (k : nat).

(** [torch.dtype], as far as the client distinguishes element types. *)
Inductive dtype := Half | Float.

(** [torch.device]: the host tier and the accelerators. *)
Inductive device := CPU | CUDA (index : nat).

#[global] Instance AccessType_eq_dec : EqDecision AccessType.
Proof. solve_decision. Defined.
#[global] Instance TensorStatus_eq_dec : EqDecision TensorStatus.
Proof. solve_decision. Defined.
#[global] Instance ChunkStatus_eq_dec : EqDecision ChunkStatus.
Proof. solve_decision. Defined.
#[global] Instance TrainingStage_eq_dec : EqDecision TrainingStage.
Proof. solve_decision. Defined.
#[global] Instance ParamType_eq_dec : EqDecision ParamType.
Proof. solve_decision. Defined.
#[global] Instance ChunkType_eq_dec : EqDecision ChunkType.
Proof. solve_decision. Defined.
#[global] Instance dtype_eq_dec : EqDecision dtype.
Proof. solve_decision. Defined.
#[global] Instance device_eq_dec : EqDecision device.
Proof. solve_decision. Defined.

(** ** Payload elements

    Chunk payloads hold floating-point numbers.  The protocol only ever
    zero-fills them, adds them up and divides them by the process count, so
    the element type is kept abstract behind these three operations. *)
Class Elem (E : Type) := {
  ezero : E;
  eadd : E → E → E;
  ediv : E → nat → E
}.

(** Integers, for running the model on concrete payloads. *)
#[global] Instance Z_Elem : Elem Z := {
  ezero := 0%Z;
  eadd := Z.add;
  ediv := fun x n => (x / Z.of_nat n)%Z
}.

(** ** Identifiers *)

Abbreviation chunk_id := nat (only parsing).
Abbreviation tensor_id := nat (only parsing).
Abbreviation param_id := nat (only parsing).
Abbreviation storage_id := nat (only parsing).

(** ** Tensors, parameters and their PatrickStar attributes *)

(** A [torch.Tensor] as the client sees it: either a window
    [payload.narrow(0, start, len)] onto a storage, which aliases it, or the
    empty placeholder [torch.tensor([], dtype=..., device=...)]. *)
Inductive Tensor :=
  | Narrow (sid : storage_id) (start len : nat)
  | EmptyTensor (dt : dtype) (dev : device).

#[global] Instance Tensor_eq_dec : EqDecision Tensor.
Proof. solve_decision. Defined.

(** Modelled from the spec: [parameter.PSParameter] (the [ps_attr] of a
    registered parameter) is missing; this is the registration record of
    section 3: element type, element count, the parameter type, and per access
    kind a tensor id, a status slot and the tensor bound by [set_tensor]. *)
Record PSParameter := {
  ps_numel : nat;
  ps_data_type : dtype;
  param_type : ParamType;
  data_id : tensor_id;
  grad_id : tensor_id;
  data_status : TensorStatus;
  grad_status : TensorStatus;
  data_tensor : option Tensor;
  grad_tensor : option Tensor
}.

(** A [torch.nn.Parameter] object: the framework-visible [data] and [grad],
    and [ps_attr], absent until the parameter is registered. *)
Record Param := {
  p_data : Tensor;
  p_grad : option Tensor;
  ps_attr : option PSParameter
}.

(** ** Chunks, the chunk directory and the index *)

(** A payload storage: the device it lives on and its elements. *)
Record Storage (E : Type) := {
  st_device : device;
  st_data : list E
}.
Arguments st_device {E} _.
Arguments st_data {E} _.
Arguments Build_Storage {E} _ _.

(** Modelled from the spec: [chunk.Chunk] is missing; the chunk of section 3
    as far as the client reaches it: capacity, element type, the dummy flag,
    the pin count and the storage handle, absent while the chunk is
    unallocated. *)
Record Chunk := {
  capacity : nat;
  data_type : dtype;
  is_dummy_flag : bool;
  pin_count : Z;
  payload : option storage_id
}.

(** Modelled from the spec: [chunk_list.ChunkList] is missing; the directory
    of section 4.2: the chunks by id, their ids per category in creation order,
    and the order in which chunks were last needed (oldest first), which the
    eviction scan follows. *)
Record ChunkList := {
  chunk_id_to_chunk_dict : gmap chunk_id Chunk;
  chunk_type_to_id_list : list (ChunkType * chunk_id);
  recently_needed : list chunk_id
}.

(** Modelled from the spec: [chunk_tensor_index.TensorInfo] is missing; the
    registered position of a tensor (section 3). *)
Record TensorInfo := {
  info_chunk_id : chunk_id;
  info_tensor_id : tensor_id;
  start_offset : nat;
  numel : nat;
  info_param : param_id;
  info_access_type : AccessType
}.

(** Modelled from the spec: [chunk_tensor_index.ChunkTensorIndex] is missing;
    the index of section 4.3.  [chunk_id_to_comm_group_map] holds the triple
    (group id, offset in the group, category) that [display_chunk_info] reads;
    a communication group is the list of the chunk ids registered under one
    (group id, category), in offset order. *)
Record ChunkTensorIndex := {
  index_default_chunk_size : nat;
  tensor_id_to_info_map : gmap tensor_id TensorInfo;
  chunk_id_to_tensor_id_list_map : gmap chunk_id (list tensor_id);
  chunk_id_to_comm_group_map : gmap chunk_id (nat * nat * ChunkType);
  comm_group_to_chunk_id_list : list (nat * ChunkType * list chunk_id)
}.

(** ** The process environment, events and the client state *)

(** What the communication substrate and the devices supply (section 6): the
    process count and rank, whether the process group is initialised, the
    element capacity of each device in bytes, the stale contents found in
    newly allocated storage, and what the peers contribute to the collective
    calls: [peer_payload k p j] is element [j] of the shard that process [p]
    sends in the collective call number [k]. *)
Record Env (E : Type) := {
  world_size : nat;
  rank : nat;
  dist_initialized : bool;
  device_capacity : device → nat;
  stale : storage_id → nat → E;
  peer_payload : nat → nat → nat → E
}.
Arguments world_size {E} _.
Arguments rank {E} _.
Arguments dist_initialized {E} _.
Arguments device_capacity {E} _ _.
Arguments stale {E} _ _ _.
Arguments peer_payload {E} _ _ _ _.

(** The calls whose occurrence and order the protocol is about. *)
Inductive Event :=
  | EvPin (c : chunk_id)
  | EvUnpin (c : chunk_id)
  | EvAllocatePayload (c : chunk_id) (dev : device)
  | EvReleasePayload (c : chunk_id)
  | EvMove (c : chunk_id) (dev : device)
  | EvAllGather (outputs : list storage_id) (input : storage_id)
  | EvReduceScatter (output : storage_id) (inputs : list storage_id).

#[global] Instance Event_eq_dec : EqDecision Event.
Proof. solve_decision. Defined.

(** The client object with everything it reaches: its own fields
    ([local_rank], [default_chunk_size], [chunk_list],
    [chunk_tensor_index]), the parameter objects, the storages behind the
    payloads, and the calls made so far, oldest first. *)
Record State (E : Type) := {
  env : Env E;
  local_rank : nat;
  default_chunk_size : nat;
  chunk_list : ChunkList;
  chunk_tensor_index : ChunkTensorIndex;
  params : gmap param_id Param;
  heap : gmap storage_id (Storage E);
  trace : list Event
}.
Arguments env {E} _.
Arguments local_rank {E} _.
Arguments default_chunk_size {E} _.
Arguments chunk_list {E} _.
Arguments chunk_tensor_index {E} _.
Arguments params {E} _.
Arguments heap {E} _.
Arguments trace {E} _.
Arguments Build_State {E} _ _ _ _ _ _ _ _.

(** ** Exceptions and the state monad *)

Inductive Exn :=
  | AssertionError
  | RuntimeError
  | KeyError
  | IndexError
  | AttributeError
  | OutOfMemoryError.

#[global] Instance Exn_eq_dec : EqDecision Exn.
Proof. solve_decision. Defined.

(** A call either returns a value or raises; both leave a state behind,
    since what was mutated before a [raise] stays mutated. *)
Inductive Outcome (S A : Type) :=
  | Ok (a : A) (s : S)
  | Raise (e : Exn) (s : S).
Arguments Ok {S A} _ _.
Arguments Raise {S A} _ _.

Definition out_state {S A} (o : Outcome S A) : S :=
  match o with Ok _ s => s | Raise _ s => s end.

Definition is_ok {S A} (o : Outcome S A) : bool :=
  match o with Ok _ _ => true | Raise _ _ => false end.

Definition M (S A : Type) : Type := S → Outcome S A.

Definition ret {S A} (a : A) : M S A := fun s => Ok a s.

Definition bind {S A B} (m : M S A) (k : A → M S B) : M S B :=
  fun s => match m s with
           | Ok a s' => k a s'
           | Raise e s' => Raise e s'
           end.

Definition raise {S A} (e : Exn) : M S A := fun s => Raise e s.

Definition get {S} : M S S := fun s => Ok s s.

Definition gets {S A} (f : S → A) : M S A := fun s => Ok (f s) s.

Definition modify {S} (f : S → S) : M S unit := fun s => Ok tt (f s).

(** [assert cond], raising [AssertionError]. *)
Definition assert_ {S} (cond : bool) : M S unit :=
  if cond then ret tt else raise AssertionError.

(** Unwrap a lookup, raising [e] when there is nothing. *)
Definition lift_opt {S A} (e : Exn) (o : option A) : M S A :=
  match o with Some a => ret a | None => raise e end.

Arguments ret {S A} a s /.
Arguments bind {S A B} m k s /.
Arguments raise {S A} e s /.
Arguments get {S} s /.
Arguments gets {S A} f s /.
Arguments modify {S} f s /.
Arguments assert_ {S} cond s /.
Arguments lift_opt {S A} e o s /.

Declare Scope client_scope.
Delimit Scope client_scope with client.
Notation "x <- m ;; k" := (bind m (fun x => k))
  (at level 100, m at next level, right associativity) : client_scope.
Notation "m ;; k" := (bind m (fun _ => k))
  (at level 100, right associativity) : client_scope.
Open Scope client_scope.

(** [for x in l: body x]. *)
Fixpoint for_each {S A} (l : list A) (body : A → M S unit) : M S unit :=
  match l with
  | [] => ret tt
  | x :: rest => body x ;; for_each rest body
  end.

Section Model.
Context {E : Type} `{!Elem E}.

Local Abbreviation St := (State E).
Local Abbreviation Cmd := (M (State E)).

(** ** Field updates *)

Definition with_chunk_list (f : ChunkList → ChunkList) (s : St) : St :=
  Build_State (env s) (local_rank s) (default_chunk_size s) (f (chunk_list s))
    (chunk_tensor_index s) (params s) (heap s) (trace s).

Definition with_index (f : ChunkTensorIndex → ChunkTensorIndex) (s : St) : St :=
  Build_State (env s) (local_rank s) (default_chunk_size s) (chunk_list s)
    (f (chunk_tensor_index s)) (params s) (heap s) (trace s).

Definition with_params (f : gmap param_id Param → gmap param_id Param) (s : St) : St :=
  Build_State (env s) (local_rank s) (default_chunk_size s) (chunk_list s)
    (chunk_tensor_index s) (f (params s)) (heap s) (trace s).

Definition with_heap
    (f : gmap storage_id (Storage E) → gmap storage_id (Storage E)) (s : St) : St :=
  Build_State (env s) (local_rank s) (default_chunk_size s) (chunk_list s)
    (chunk_tensor_index s) (params s) (f (heap s)) (trace s).

Definition log_event (ev : Event) (s : St) : St :=
  Build_State (env s) (local_rank s) (default_chunk_size s) (chunk_list s)
    (chunk_tensor_index s) (params s) (heap s) (trace s ++ [ev]).

Definition with_chunks (f : gmap chunk_id Chunk → gmap chunk_id Chunk) : St → St :=
  with_chunk_list (fun cl =>
    {| chunk_id_to_chunk_dict := f (chunk_id_to_chunk_dict cl);
       chunk_type_to_id_list := chunk_type_to_id_list cl;
       recently_needed := recently_needed cl |}).

Definition chunks (s : St) : gmap chunk_id Chunk :=
  chunk_id_to_chunk_dict (chunk_list s).

(** ** [patrickstar.utils]: [get_world_size], [get_rank] *)

Definition get_world_size : Cmd nat := gets (fun s => world_size (env s)).
Definition get_rank : Cmd nat := gets (fun s => rank (env s)).

(** ** [parameter.py] *)

(** Modelled from the spec: [parameter.is_param_registered] is missing; a
    parameter is registered once it carries its [ps_attr]. *)
Definition is_param_registered (param : param_id) : Cmd bool :=
  gets (fun s => match params s !! param with
                 | Some p => bool_decide (is_Some (ps_attr p))
                 | None => false
                 end).

(** [param.ps_attr]; reading it off an unregistered parameter is an
    [AttributeError]. *)
Definition get_ps_attr (param : param_id) : Cmd PSParameter :=
  s <- get ;;
  p <- lift_opt AttributeError (params s !! param) ;;
  lift_opt AttributeError (ps_attr p).

Definition get_param (param : param_id) : Cmd Param :=
  s <- get ;; lift_opt AttributeError (params s !! param).

Definition with_attr (a : PSParameter) (p : Param) : Param :=
  {| p_data := p_data p; p_grad := p_grad p; ps_attr := Some a |}.

Definition with_data (t : Tensor) (p : Param) : Param :=
  {| p_data := t; p_grad := p_grad p; ps_attr := ps_attr p |}.

Definition with_grad (g : option Tensor) (p : Param) : Param :=
  {| p_data := p_data p; p_grad := g; ps_attr := ps_attr p |}.

Definition put_ps_attr (param : param_id) (a : PSParameter) : Cmd unit :=
  p <- get_param param ;;
  modify (with_params (insert param (with_attr a p))).

(** Modelled from the spec: [PSParameter.get_status], [set_status],
    [get_tensor_id], [set_tensor] and [access_tensor] are missing; they read
    and write the slot of the given access kind. *)
Definition status_of (a : PSParameter) (access_type : AccessType) : TensorStatus :=
  match access_type with DATA => data_status a | GRAD => grad_status a end.

Definition tensor_of (a : PSParameter) (access_type : AccessType) : option Tensor :=
  match access_type with DATA => data_tensor a | GRAD => grad_tensor a end.

Definition tensor_id_of (a : PSParameter) (access_type : AccessType) : tensor_id :=
  match access_type with DATA => data_id a | GRAD => grad_id a end.

Definition attr_set_status (a : PSParameter) (st : TensorStatus)
    (access_type : AccessType) : PSParameter :=
  match access_type with
  | DATA => {| ps_numel := ps_numel a; ps_data_type := ps_data_type a;
               param_type := param_type a; data_id := data_id a; grad_id := grad_id a;
               data_status := st; grad_status := grad_status a;
               data_tensor := data_tensor a; grad_tensor := grad_tensor a |}
  | GRAD => {| ps_numel := ps_numel a; ps_data_type := ps_data_type a;
               param_type := param_type a; data_id := data_id a; grad_id := grad_id a;
               data_status := data_status a; grad_status := st;
               data_tensor := data_tensor a; grad_tensor := grad_tensor a |}
  end.

Definition attr_set_tensor (a : PSParameter) (t : Tensor)
    (access_type : AccessType) : PSParameter :=
  match access_type with
  | DATA => {| ps_numel := ps_numel a; ps_data_type := ps_data_type a;
               param_type := param_type a; data_id := data_id a; grad_id := grad_id a;
               data_status := data_status a; grad_status := grad_status a;
               data_tensor := Some t; grad_tensor := grad_tensor a |}
  | GRAD => {| ps_numel := ps_numel a; ps_data_type := ps_data_type a;
               param_type := param_type a; data_id := data_id a; grad_id := grad_id a;
               data_status := data_status a; grad_status := grad_status a;
               data_tensor := data_tensor a; grad_tensor := Some t |}
  end.

Definition get_status (param : param_id) (access_type : AccessType) : Cmd TensorStatus :=
  a <- get_ps_attr param ;; ret (status_of a access_type).

Definition set_status (param : param_id) (st : TensorStatus)
    (access_type : AccessType) : Cmd unit :=
  a <- get_ps_attr param ;; put_ps_attr param (attr_set_status a st access_type).

Definition get_tensor_id (param : param_id) (access_type : AccessType) : Cmd tensor_id :=
  a <- get_ps_attr param ;; ret (tensor_id_of a access_type).

Definition set_tensor (param : param_id) (t : Tensor)
    (access_type : AccessType) : Cmd unit :=
  a <- get_ps_attr param ;; put_ps_attr param (attr_set_tensor a t access_type).

Definition access_tensor (param : param_id) (access_type : AccessType)
    : Cmd (option Tensor) :=
  a <- get_ps_attr param ;; ret (tensor_of a access_type).

(** [param.data = t] and [param.grad = g]. *)
Definition set_param_data (param : param_id) (t : Tensor) : Cmd unit :=
  p <- get_param param ;;
  modify (with_params (insert param (with_data t p))).

Definition set_param_grad (param : param_id) (g : option Tensor) : Cmd unit :=
  p <- get_param param ;;
  modify (with_params (insert param (with_grad g p))).

(** ** [torch.Tensor] operations on payloads *)

Definition tensor_device (s : St) (t : Tensor) : device :=
  match t with
  | Narrow sid _ _ =>
      match heap s !! sid with Some st => st_device st | None => CPU end
  | EmptyTensor _ dev => dev
  end.

(** [param.device], the device of [param.data]. *)
Definition param_device (param : param_id) : Cmd device :=
  p <- get_param param ;; gets (fun s => tensor_device s (p_data p)).

(** [payload.narrow(0, start, len)]: a window onto the payload; a missing
    payload has no [narrow], and a window outside the payload is refused. *)
Definition narrow (pl : option storage_id) (start len : nat) : Cmd Tensor :=
  sid <- lift_opt AttributeError pl ;;
  s <- get ;;
  st <- lift_opt KeyError (heap s !! sid) ;;
  if bool_decide (start + len ≤ length (st_data st))
  then ret (Narrow sid start len)
  else raise RuntimeError.

(** The elements [l] with the window from [start] of length [len] overwritten
    by zeros. *)
Definition zero_window (l : list E) (start len : nat) : list E :=
  take start l ++ replicate (length (take len (drop start l))) ezero
    ++ drop (start + len) l.

(** [t.zero_()]: writes through the window into the storage. *)
Definition zero_ (t : option Tensor) : Cmd unit :=
  match t with
  | Some (Narrow sid start len) =>
      s <- get ;;
      st <- lift_opt KeyError (heap s !! sid) ;;
      modify (with_heap (insert sid
        {| st_device := st_device st; st_data := zero_window (st_data st) start len |}))
  | Some (EmptyTensor _ _) => ret tt
  | None => raise AttributeError
  end.

(** The elements seen through a tensor. *)
Definition tensor_elems (s : St) (t : Tensor) : list E :=
  match t with
  | Narrow sid start len =>
      match heap s !! sid with
      | Some st => take len (drop start (st_data st))
      | None => []
      end
  | EmptyTensor _ _ => []
  end.

(** ** [chunk_tensor_index.py]: lookups *)

Definition index (s : St) : ChunkTensorIndex := chunk_tensor_index s.

(** Modelled from the spec: [ChunkTensorIndex.get_chunk_id] is missing;
    "locate the tensor's chunk via the Index" (section 4.4): the chunk of the
    tensor's registration record, [None] when the tensor has none. *)
Definition get_chunk_id (param : param_id) (access_type : AccessType)
    : Cmd (option chunk_id) :=
  tensor_id <- get_tensor_id param access_type ;;
  gets (fun s => info_chunk_id <$> tensor_id_to_info_map (index s) !! tensor_id).

(** Modelled from the spec: [ChunkTensorIndex.get_tensor_info] is missing; the
    registration record of a tensor id. *)
Definition get_tensor_info (tid : tensor_id) : Cmd TensorInfo :=
  s <- get ;; lift_opt KeyError (tensor_id_to_info_map (index s) !! tid).

(** Modelled from the spec: [ChunkTensorIndex.generate_tensor_info_in_order] is
    missing; the records of the tensors mapped into a chunk, in offset order
    (section 8, round-trip). *)
Definition tensor_info_in_order (idx : ChunkTensorIndex) (c : chunk_id)
    : list TensorInfo :=
  omap (fun tid => tensor_id_to_info_map idx !! tid)
       (default [] (chunk_id_to_tensor_id_list_map idx !! c)).

Definition generate_tensor_info_in_order (c : chunk_id) : Cmd (list TensorInfo) :=
  gets (fun s => tensor_info_in_order (index s) c).

(** Modelled from the spec: [ChunkTensorIndex.chunk_ids_of_comm_group] is
    missing; [groupOf] of section 4.3: the group the chunk is registered in, in
    rank order.  An id that is not registered, [None] included, is a
    [KeyError]. *)
Definition comm_group_of (idx : ChunkTensorIndex) (c : chunk_id)
    : option (list chunk_id) :=
  '(gid, _, ct) ← chunk_id_to_comm_group_map idx !! c;
  g ← find (fun g => bool_decide (g.1 = (gid, ct))) (comm_group_to_chunk_id_list idx);
  Some (g.2).

Definition chunk_ids_of_comm_group (c : option chunk_id) : Cmd (list chunk_id) :=
  i <- lift_opt KeyError c ;;
  s <- get ;; lift_opt KeyError (comm_group_of (index s) i).

(** ** [chunk.py] *)

(** [self.chunk_list[i]]; an id that is not in the directory, [None]
    included, is a [KeyError]. *)
Definition get_chunk (c : option chunk_id) : Cmd Chunk :=
  i <- lift_opt KeyError c ;;
  s <- get ;; lift_opt KeyError (chunks s !! i).

Definition set_pin_count (n : Z) (c : Chunk) : Chunk :=
  {| capacity := capacity c; data_type := data_type c;
     is_dummy_flag := is_dummy_flag c; pin_count := n; payload := payload c |}.

Definition set_payload (pl : option storage_id) (c : Chunk) : Chunk :=
  {| capacity := capacity c; data_type := data_type c;
     is_dummy_flag := is_dummy_flag c; pin_count := pin_count c; payload := pl |}.

(** Modelled from the spec: [Chunk.pin] and [Chunk.unpin] are missing; the
    reference-count guard of section 4.2. *)
Definition pin (i : chunk_id) : Cmd unit :=
  c <- get_chunk (Some i) ;;
  modify (with_chunks (insert i (set_pin_count (pin_count c + 1) c))) ;;
  modify (log_event (EvPin i)).

Definition unpin (i : chunk_id) : Cmd unit :=
  c <- get_chunk (Some i) ;;
  modify (with_chunks (insert i (set_pin_count (pin_count c - 1) c))) ;;
  modify (log_event (EvUnpin i)).

Definition is_dummy (i : chunk_id) : Cmd bool :=
  c <- get_chunk (Some i) ;; ret (is_dummy_flag c).

Definition dtype_size (dt : dtype) : nat :=
  match dt with Half => 2 | Float => 4 end.

(** Modelled from the spec: [Chunk.get_chunk_space] is missing; the bytes of
    a payload of the chunk's capacity. *)
Definition get_chunk_space (c : Chunk) : nat := capacity c * dtype_size (data_type c).

Definition fresh_storage (s : St) : storage_id := fresh (dom (heap s)).

(** Modelled from the spec: [Chunk.allocate_payload] is missing; a new
    storage of the chunk's capacity on the device becomes the payload; what it
    holds is whatever the memory held. *)
Definition allocate_payload (i : chunk_id) (dev : device) : Cmd unit :=
  c <- get_chunk (Some i) ;;
  s <- get ;;
  let sid := fresh_storage s in
  modify (with_heap (insert sid
    {| st_device := dev;
       st_data := map (stale (env s) sid) (seq 0 (capacity c)) |})) ;;
  modify (with_chunks (insert i (set_payload (Some sid) c))) ;;
  modify (log_event (EvAllocatePayload i dev)).

(** Modelled from the spec: [Chunk.release_payload] is missing; the chunk
    lets go of its storage (section 4.4, collapse). *)
Definition release_payload (i : chunk_id) : Cmd unit :=
  c <- get_chunk (Some i) ;;
  modify (with_chunks (insert i (set_payload None c))) ;;
  modify (log_event (EvReleasePayload i)).

(** The status slots of the tensors mapped into a chunk, in offset order. *)
Definition tensor_statuses (s : St) (i : chunk_id) : list TensorStatus :=
  omap (fun info =>
          p ← params s !! info_param info;
          a ← ps_attr p;
          Some (status_of a (info_access_type info)))
       (tensor_info_in_order (index s) i).

(** Modelled from the spec: [Chunk.get_status] is missing; section 3: a chunk
    without storage is [RELEASED]; otherwise its status is the least idle
    status among its tensors.  The directory keeps this aggregate in counters
    updated on every transition; the model recomputes it from the status
    slots, which section 9 calls no change of behaviour. *)
Definition aggregate_status (l : list TensorStatus) : ChunkStatus :=
  if bool_decide (COMPUTE ∈ l) then CS_COMPUTE
  else if bool_decide (HOLD ∈ l) then CS_HOLD
  else if bool_decide (HOLD_AFTER_FWD ∈ l) then CS_HOLD_AFTER_FWD
  else if bool_decide (HOLD_AFTER_BWD ∈ l) then CS_HOLD_AFTER_BWD
  else CS_FREE.

Definition chunk_status (s : St) (i : chunk_id) (c : Chunk) : ChunkStatus :=
  match payload c with
  | None => CS_RELEASED
  | Some _ => aggregate_status (tensor_statuses s i)
  end.

Definition chunk_get_status (i : chunk_id) : Cmd ChunkStatus :=
  c <- get_chunk (Some i) ;; gets (fun s => chunk_status s i c).

(** Modelled from the spec: [Chunk.all_tensor_status] is missing; whether
    every tensor mapped into the chunk is at the given status (section 4.4:
    the chunk "has reached" the hold status). *)
Definition all_tensor_status (i : chunk_id) (st : TensorStatus) : Cmd bool :=
  _ <- get_chunk (Some i) ;;
  gets (fun s => forallb (fun x => bool_decide (x = st)) (tensor_statuses s i)).

(** ** [chunk_list.py] *)

(** Modelled from the spec: [ChunkList.update_status] is missing; [setStatus]
    of section 4.2 tells the directory of a tensor's transition so that it can
    keep the chunk's aggregate.  The aggregate being recomputed from the
    status slots here (see [aggregate_status]), the call comes down to finding
    the chunk. *)
Definition update_status (c : option chunk_id) (old_status new_status : TensorStatus)
    : Cmd unit :=
  _ <- get_chunk c ;; ret tt.

Definition chunk_device (s : St) (c : Chunk) : option device :=
  sid ← payload c; st ← heap s !! sid; Some (st_device st).

(** Bytes of the chunk payloads that live on a device. *)
Definition device_used (s : St) (dev : device) : nat :=
  map_fold (fun _ c acc =>
              if bool_decide (chunk_device s c = Some dev)
              then get_chunk_space c + acc else acc)
           0 (chunks s).

(** The tier a chunk is evicted to: the host from an accelerator, this
    process's accelerator from the host. *)
Definition other_tier (s : St) (dev : device) : device :=
  match dev with CPU => CUDA (local_rank s) | CUDA _ => CPU end.

(** Modelled from the spec: the chunk's move between tiers is missing;
    "copy, then free the old copy" (section 4.2): the payload becomes a new
    storage on the target holding the same elements. *)
Definition chunk_move (i : chunk_id) (target : device) : Cmd unit :=
  c <- get_chunk (Some i) ;;
  sid <- lift_opt AttributeError (payload c) ;;
  s <- get ;;
  st <- lift_opt KeyError (heap s !! sid) ;;
  let sid' := fresh_storage s in
  modify (with_heap (insert sid' {| st_device := target; st_data := st_data st |})) ;;
  modify (with_chunks (insert i (set_payload (Some sid') c))) ;;
  modify (log_event (EvMove i target)).

(** Section 4.2: a chunk may be evicted from [dev] when it lives there, is not
    pinned and its aggregate status is [HOLD]. *)
Definition evictable (s : St) (dev : device) (i : chunk_id) : bool :=
  match chunks s !! i with
  | Some c =>
      bool_decide (chunk_device s c = Some dev)
      && bool_decide (pin_count c ≤ 0)%Z
      && bool_decide (chunk_status s i c = CS_HOLD)
  | None => false
  end.

(** The eviction scan: while the device lacks [need] bytes, the next
    candidate that may be evicted is moved to the other tier; running out of
    candidates is the fatal out-of-memory condition. *)
Fixpoint make_room (candidates : list chunk_id) (dev : device) (need : nat)
    : Cmd unit :=
  s <- get ;;
  if bool_decide (device_used s dev + need ≤ device_capacity (env s) dev)
  then ret tt
  else match candidates with
       | [] => raise OutOfMemoryError
       | i :: rest =>
           (if evictable s dev i then chunk_move i (other_tier s dev) else ret tt) ;;
           make_room rest dev need
       end.

(** Modelled from the spec: [ChunkList.prepare_device] is missing; the
    eviction policy of section 4.2, least recently needed first. *)
Definition prepare_device (dev : device) (need : nat) : Cmd unit :=
  s <- get ;; make_room (recently_needed (chunk_list s)) dev need.

Definition mark_needed (i : chunk_id) : Cmd unit :=
  modify (with_chunk_list (fun cl =>
    {| chunk_id_to_chunk_dict := chunk_id_to_chunk_dict cl;
       chunk_type_to_id_list := chunk_type_to_id_list cl;
       recently_needed := filter (fun j => j ≠ i) (recently_needed cl) ++ [i] |})).

(** Modelled from the spec: [ChunkList.access_chunk] is missing;
    [ensureResident] of section 4.2: storage on the wrong device is migrated,
    missing storage is allocated on the device; room is made first. *)
Definition access_chunk (c : option chunk_id) (dev : device) : Cmd unit :=
  chunk <- get_chunk c ;;
  i <- lift_opt KeyError c ;;
  match payload chunk with
  | None =>
      prepare_device dev (get_chunk_space chunk) ;;
      allocate_payload i dev
  | Some sid =>
      s <- get ;;
      st <- lift_opt KeyError (heap s !! sid) ;;
      if bool_decide (st_device st = dev) then ret tt
      else (prepare_device dev (get_chunk_space chunk) ;; chunk_move i dev)
  end ;;
  mark_needed i.

(** Modelled from the spec: [ChunkList.generate_chunk_id] is missing; chunks
    are numbered as they are created and never deleted (section 3). *)
Definition generate_chunk_id : Cmd chunk_id :=
  gets (fun s => size (chunks s)).

Definition ids_of_type (cl : ChunkList) (chunk_type : ChunkType) : list chunk_id :=
  snd <$> filter (fun e => e.1 = chunk_type) (chunk_type_to_id_list cl).

(** Modelled from the spec: [ChunkList.is_empty] and [last_chunk_id] are
    missing; whether a category has chunks, and its tail chunk (section 3,
    lifecycle). *)
Definition is_empty (chunk_type : ChunkType) : Cmd bool :=
  gets (fun s => bool_decide (ids_of_type (chunk_list s) chunk_type = [])).

Definition last_chunk_id (chunk_type : ChunkType) : Cmd chunk_id :=
  s <- get ;; lift_opt IndexError (last (ids_of_type (chunk_list s) chunk_type)).

(** Modelled from the spec: [ChunkList.new_chunk] is missing; [create] of
    section 4.2: bookkeeping without storage; the groups of a category are
    filled in round-robin, so the [k]-th chunk of the category lands in group
    [k / world_size] at offset [k mod world_size]. *)
Definition new_chunk (i : chunk_id) (chunk_size : nat) (dt : dtype)
    (is_dummy : bool) (chunk_type : ChunkType) : Cmd (nat * nat) :=
  s <- get ;;
  let k := length (ids_of_type (chunk_list s) chunk_type) in
  let ws := world_size (env s) in
  modify (with_chunk_list (fun cl =>
    {| chunk_id_to_chunk_dict :=
         <[i := {| capacity := chunk_size; data_type := dt; is_dummy_flag := is_dummy;
                   pin_count := 0; payload := None |}]> (chunk_id_to_chunk_dict cl);
       chunk_type_to_id_list := chunk_type_to_id_list cl ++ [(chunk_type, i)];
       recently_needed := recently_needed cl |})) ;;
  ret (k / ws, k mod ws).

(** ** [chunk_tensor_index.py]: registration *)

(** Modelled from the spec: [ChunkTensorIndex.add_chunk] is missing; it files
    the chunk under its group and category, with no tensors yet. *)
Fixpoint add_to_group (key : nat * ChunkType) (i : chunk_id)
    (groups : list (nat * ChunkType * list chunk_id))
    : list (nat * ChunkType * list chunk_id) :=
  match groups with
  | [] => [(key, [i])]
  | g :: rest =>
      if bool_decide (g.1 = key) then (g.1, g.2 ++ [i]) :: rest
      else g :: add_to_group key i rest
  end.

Definition add_chunk (i : chunk_id) (comm_group_id comm_group_offset : nat)
    (chunk_type : ChunkType) : Cmd unit :=
  modify (with_index (fun idx =>
    {| index_default_chunk_size := index_default_chunk_size idx;
       tensor_id_to_info_map := tensor_id_to_info_map idx;
       chunk_id_to_tensor_id_list_map := <[i := []]> (chunk_id_to_tensor_id_list_map idx);
       chunk_id_to_comm_group_map :=
         <[i := (comm_group_id, comm_group_offset, chunk_type)]>
           (chunk_id_to_comm_group_map idx);
       comm_group_to_chunk_id_list :=
         add_to_group (comm_group_id, chunk_type) i (comm_group_to_chunk_id_list idx) |})).

(** Where the free space of a chunk starts: after its last tensor (tensors
    are never removed, section 3, so there are no holes before it). *)
Definition chunk_used (idx : ChunkTensorIndex) (i : chunk_id) : nat :=
  match last (tensor_info_in_order idx i) with
  | Some info => start_offset info + numel info
  | None => 0
  end.

(** The records of a list of tensors laid out contiguously from [start]. *)
Fixpoint layout (i : chunk_id) (access_type : AccessType) (start : nat)
    (items : list (param_id * PSParameter)) : list TensorInfo :=
  match items with
  | [] => []
  | (param, a) :: rest =>
      {| info_chunk_id := i; info_tensor_id := tensor_id_of a access_type;
         start_offset := start; numel := ps_numel a;
         info_param := param; info_access_type := access_type |}
      :: layout i access_type (start + ps_numel a) rest
  end.

Definition register_infos (i : chunk_id) (infos : list TensorInfo)
    (idx : ChunkTensorIndex) : ChunkTensorIndex :=
  {| index_default_chunk_size := index_default_chunk_size idx;
     tensor_id_to_info_map :=
       foldl (fun m info => <[info_tensor_id info := info]> m)
             (tensor_id_to_info_map idx) infos;
     chunk_id_to_tensor_id_list_map :=
       <[i := default [] (chunk_id_to_tensor_id_list_map idx !! i)
              ++ (info_tensor_id <$> infos)]> (chunk_id_to_tensor_id_list_map idx);
     chunk_id_to_comm_group_map := chunk_id_to_comm_group_map idx;
     comm_group_to_chunk_id_list := comm_group_to_chunk_id_list idx |}.

(** [[(param, param.ps_attr) for param in param_list]]. *)
Fixpoint attrs_of (param_list : list param_id) : Cmd (list (param_id * PSParameter)) :=
  match param_list with
  | [] => ret []
  | param :: rest =>
      a <- get_ps_attr param ;;
      r <- attrs_of rest ;;
      ret ((param, a) :: r)
  end.

Definition total_numel (items : list (param_id * PSParameter)) : nat :=
  sum_list (ps_numel ∘ snd <$> items).

(** Modelled from the spec: [ChunkTensorIndex.try_insert_tensor_list] is
    missing; [tryInsert] of section 4.3: the whole list goes into the free
    space of the chunk, contiguously and in order, when it fits the chunk
    capacity the index was configured with; otherwise the answer is [False]
    and nothing is registered. *)
Definition try_insert_tensor_list (i : chunk_id) (param_list : list param_id)
    (access_type : AccessType) : Cmd bool :=
  items <- attrs_of param_list ;;
  s <- get ;;
  _ <- lift_opt KeyError (chunk_id_to_tensor_id_list_map (index s) !! i) ;;
  let start := chunk_used (index s) i in
  if bool_decide (start + total_numel items ≤ index_default_chunk_size (index s))
  then modify (with_index (register_infos i (layout i access_type start items))) ;;
       ret true
  else ret false.

(** ** [torch.distributed] *)

Definition is_initialized : Cmd bool := gets (fun s => dist_initialized (env s)).

Definition is_collective (ev : Event) : bool :=
  match ev with
  | EvAllGather _ _ | EvReduceScatter _ _ => true
  | _ => false
  end.

(** The number of the next collective call, counted from 0. *)
Definition collective_count (s : St) : nat := length (filter is_collective (trace s)).

Definition payload_elems (s : St) (sid : storage_id) : list E :=
  match heap s !! sid with Some st => st_data st | None => [] end.

Definition write_storage (sid : storage_id) (l : list E)
    (h : gmap storage_id (Storage E)) : gmap storage_id (Storage E) :=
  match h !! sid with
  | Some st => <[sid := {| st_device := st_device st; st_data := l |}]> h
  | None => h
  end.

Fixpoint unwrap_all {A} (l : list (option A)) : option (list A) :=
  match l with
  | [] => Some []
  | o :: rest => x ← o; r ← unwrap_all rest; Some (x :: r)
  end.

(** What process [p] sends in collective call [k], for a buffer of [n]
    elements. *)
Definition received (s : St) (k p n : nat) : list E :=
  map (peer_payload (env s) k p) (seq 0 n).

(** The communication substrate's [all_gather(tensor_list, tensor)] (section
    6, glossary): slot [p] of [tensor_list] receives the shard of process
    [p]; the slot of this process receives [tensor].  The list must have one
    slot per process. *)
Definition all_gather (tensor_list : list (option storage_id))
    (tensor : option storage_id) : Cmd unit :=
  outputs <- lift_opt AttributeError (unwrap_all tensor_list) ;;
  input <- lift_opt AttributeError tensor ;;
  s <- get ;;
  if bool_decide (length outputs = world_size (env s)) then
    let k := collective_count s in
    let mine := payload_elems s input in
    modify (with_heap (fun h =>
      foldl (fun h '(p, sid) =>
               write_storage sid
                 (if bool_decide (p = rank (env s)) then mine
                  else received s k p (length (payload_elems s sid))) h)
            h (imap pair outputs))) ;;
    modify (log_event (EvAllGather outputs input))
  else raise RuntimeError.

(** Element-wise sum of the contributions, first to last. *)
Definition sum_contributions (cs : list (list E)) : option (list E) :=
  match cs with
  | [] => None
  | c :: rest => Some (foldl (zip_with eadd) c rest)
  end.

(** The communication substrate's [reduce_scatter(output, input_list,
    op=SUM)] (section 6, glossary): [output] receives the sum, over all
    processes, of the entry of each process's [input_list] at this process's
    rank.  This process contributes its own entry; the peers'
    entries arrive over the network. *)
Definition reduce_scatter (output : option storage_id)
    (input_list : list (option storage_id)) : Cmd unit :=
  out <- lift_opt AttributeError output ;;
  inputs <- lift_opt AttributeError (unwrap_all input_list) ;;
  s <- get ;;
  if bool_decide (length inputs = world_size (env s)) then
    mine <- lift_opt IndexError (inputs !! rank (env s)) ;;
    let k := collective_count s in
    let n := length (payload_elems s out) in
    let contributions :=
      map (fun p => if bool_decide (p = rank (env s)) then payload_elems s mine
                    else received s k p n)
          (seq 0 (world_size (env s))) in
    total <- lift_opt RuntimeError (sum_contributions contributions) ;;
    modify (with_heap (write_storage out total)) ;;
    modify (log_event (EvReduceScatter out inputs))
  else raise RuntimeError.

(** [payload /= n], in place. *)
Definition div_payload (pl : option storage_id) (n : nat) : Cmd unit :=
  sid <- lift_opt AttributeError pl ;;
  s <- get ;;
  modify (with_heap (write_storage sid (map (fun x => ediv x n) (payload_elems s sid)))).

(** [payload.device]. *)
Definition payload_device (pl : option storage_id) : Cmd device :=
  sid <- lift_opt AttributeError pl ;;
  s <- get ;;
  st <- lift_opt KeyError (heap s !! sid) ;;
  ret (st_device st).

(** ** The client: [PatrickStarClient] *)

(** A loop whose body appends one value per round to a list. *)
Fixpoint for_collect {A B} (l : list A) (body : A → Cmd B) : Cmd (list B) :=
  match l with
  | [] => ret []
  | x :: rest =>
      y <- body x ;;
      ys <- for_collect rest body ;;
      ret (y :: ys)
  end.

(** A loop that updates one local variable. *)
Fixpoint for_fold {A B} (l : list A) (acc : B) (body : B → A → Cmd B) : Cmd B :=
  match l with
  | [] => ret acc
  | x :: rest => acc' <- body acc x ;; for_fold rest acc' body
  end.

(** [append_chunk(data_type, chunk_type, is_dummy=False)] *)
Definition append_chunk (dt : dtype) (chunk_type : ChunkType) (is_dummy : bool)
    : Cmd (chunk_id * (nat * nat)) :=
  chunk_id <- generate_chunk_id ;;
  chunk_size <- gets default_chunk_size ;;
  position <- new_chunk chunk_id chunk_size dt is_dummy chunk_type ;;
  let '(comm_group_id, comm_group_offset) := position in
  add_chunk chunk_id comm_group_id comm_group_offset chunk_type ;;
  ret (chunk_id, (comm_group_id, comm_group_offset)).

(** [append_tensor(param_list, data_type, access_type, chunk_type)] *)
Definition append_tensor (param_list : list param_id) (dt : dtype)
    (access_type : AccessType) (chunk_type : ChunkType) : Cmd unit :=
  let in_new_chunk : Cmd unit :=
    appended <- append_chunk dt chunk_type false ;;
    let chunk_id := appended.1 in
    inserted <- try_insert_tensor_list chunk_id param_list access_type ;;
    if negb inserted then raise RuntimeError else ret tt in
  empty <- is_empty chunk_type ;;
  if negb empty then
    last_chunk_id <- last_chunk_id chunk_type ;;
    inserted <- try_insert_tensor_list last_chunk_id param_list access_type ;;
    if inserted then ret tt else in_new_chunk
  else in_new_chunk.

(** [set_all_tensors_status_in_chunk(chunk_id, new_status)] *)
Definition set_all_tensors_status_in_chunk (chunk_id : chunk_id)
    (new_status : TensorStatus) : Cmd unit :=
  infos <- generate_tensor_info_in_order chunk_id ;;
  for_each infos (fun info =>
    let param := info_param info in
    let access_type := info_access_type info in
    old_status <- get_status param access_type ;;
    update_status (Some chunk_id) old_status new_status ;;
    set_status param new_status access_type).

(** The search loop of [_fetch_remote_chunks]: is any chunk of the group
    [RELEASED]?  It stops at the first one. *)
Fixpoint has_released_chunk (chunk_id_list : list chunk_id) : Cmd bool :=
  match chunk_id_list with
  | [] => ret false
  | i :: rest =>
      st <- chunk_get_status i ;;
      if bool_decide (st = CS_RELEASED) then ret true else has_released_chunk rest
  end.

(** [_fetch_remote_chunks(chunk_id_list, local_chunk_id, compute_device,
    param_name)]; [param_name] is only logged.  Of [comm_data_amount], which
    only the profiler reads, what remains is that it looks at the first
    payload collected ([allgather_payload_buff[0].numel()]). *)
Definition _fetch_remote_chunks (chunk_id_list : list chunk_id)
    (local_chunk_id : chunk_id) (compute_device : device) : Cmd unit :=
  has_released <- has_released_chunk chunk_id_list ;;
  if negb has_released then ret tt
  else
    allgather_payload_buff <- for_collect chunk_id_list (fun chunk_id =>
      (if bool_decide (chunk_id ≠ local_chunk_id) then
         c <- get_chunk (Some chunk_id) ;;
         prepare_device compute_device (get_chunk_space c) ;;
         allocate_payload chunk_id compute_device ;;
         pin chunk_id
       else ret tt) ;;
      set_all_tensors_status_in_chunk chunk_id HOLD ;;
      c <- get_chunk (Some chunk_id) ;;
      ret (payload c)) ;;
    first_payload <- lift_opt IndexError (head allgather_payload_buff) ;;
    lift_opt AttributeError first_payload ;;
    for_each chunk_id_list (fun chunk_id => unpin chunk_id) ;;
    initialized <- is_initialized ;;
    assert_ initialized ;;
    local_chunk <- get_chunk (Some local_chunk_id) ;;
    all_gather allgather_payload_buff (payload local_chunk).

(** [access_dist(param, access_type, compute_device)] *)
Definition access_dist (param : param_id) (access_type : AccessType)
    (compute_device : device) : Cmd (option Tensor) :=
  registered <- is_param_registered param ;;
  assert_ registered ;;
  a <- get_ps_attr param ;;
  if bool_decide (param_type a = TORCH_BASED) then
    p <- get_param param ;;
    match access_type with
    | DATA => ret (Some (p_data p))
    | GRAD => ret (p_grad p)
    end
  else
    chunk_id <- get_chunk_id param access_type ;;
    rank <- get_rank ;;
    world_size <- get_world_size ;;
    (if bool_decide (1 < world_size) then
       chunk_id_list <- chunk_ids_of_comm_group chunk_id ;;
       local_chunk_id <- lift_opt IndexError (chunk_id_list !! rank) ;;
       access_chunk (Some local_chunk_id) compute_device ;;
       pin local_chunk_id ;;
       _fetch_remote_chunks chunk_id_list local_chunk_id compute_device ;;
       unpin local_chunk_id
     else ret tt) ;;
    access_chunk chunk_id compute_device ;;
    c <- get_chunk chunk_id ;;
    assert_ (bool_decide (is_Some (payload c))) ;;
    dev <- payload_device (payload c) ;;
    assert_ (bool_decide (dev = compute_device)) ;;
    tensor_id <- get_tensor_id param access_type ;;
    info <- get_tensor_info tensor_id ;;
    a <- get_ps_attr param ;;
    assert_ (bool_decide (numel info = ps_numel a)) ;;
    c <- get_chunk chunk_id ;;
    t <- narrow (payload c) (start_offset info) (numel info) ;;
    set_tensor param t access_type ;;
    old_status <- get_status param access_type ;;
    (if bool_decide (old_status = FREE) then
       t <- access_tensor param access_type ;; zero_ t
     else ret tt) ;;
    update_status chunk_id old_status COMPUTE ;;
    set_status param COMPUTE access_type ;;
    access_tensor param access_type.

(** [access(param, access_type, compute_device)] *)
Definition access (param : param_id) (access_type : AccessType)
    (compute_device : device) : Cmd (option Tensor) :=
  registered <- is_param_registered param ;;
  assert_ registered ;;
  a <- get_ps_attr param ;;
  if bool_decide (param_type a = TORCH_BASED) then
    p <- get_param param ;;
    match access_type with
    | DATA => ret (Some (p_data p))
    | GRAD => ret (p_grad p)
    end
  else
    chunk_id <- get_chunk_id param access_type ;;
    if bool_decide (chunk_id = None) then raise RuntimeError
    else
      access_chunk chunk_id compute_device ;;
      tensor_id <- get_tensor_id param access_type ;;
      info <- get_tensor_info tensor_id ;;
      a <- get_ps_attr param ;;
      assert_ (bool_decide (numel info = ps_numel a)) ;;
      c <- get_chunk chunk_id ;;
      t <- narrow (payload c) (start_offset info) (numel info) ;;
      set_tensor param t access_type ;;
      old_status <- get_status param access_type ;;
      (if bool_decide (old_status = FREE) then
         t <- access_tensor param access_type ;; zero_ t
       else ret tt) ;;
      update_status chunk_id old_status COMPUTE ;;
      set_status param COMPUTE access_type ;;
      access_tensor param access_type.

(** The readiness loop of [release_dist]: a chunk that is neither wholly at
    the hold status of the stage nor a dummy clears the flag. *)
Definition chunk_not_ready (training_stage : TrainingStage) (i : chunk_id) : Cmd bool :=
  match training_stage with
  | FWD =>
      held <- all_tensor_status i HOLD_AFTER_FWD ;;
      if negb held then dummy <- is_dummy i ;; ret (negb dummy) else ret false
  | BWD =>
      held <- all_tensor_status i HOLD_AFTER_BWD ;;
      if negb held then dummy <- is_dummy i ;; ret (negb dummy) else ret false
  | OTHER_STAGE => ret false
  end.

(** [release_dist(param, access_type, reset_to_status, training_stage,
    is_allreduce)] *)
Definition release_dist (param : param_id) (access_type : AccessType)
    (reset_to_status : TensorStatus) (training_stage : TrainingStage)
    (is_allreduce : bool) : Cmd unit :=
  a <- get_ps_attr param ;;
  if bool_decide (param_type a = TORCH_BASED) then ret tt
  else
    rank <- get_rank ;;
    assert_ (bool_decide (training_stage = FWD) || bool_decide (training_stage = BWD)) ;;
    initialized <- is_initialized ;;
    assert_ initialized ;;
    chunk_id <- get_chunk_id param access_type ;;
    chunk_id_list <- chunk_ids_of_comm_group chunk_id ;;
    local_chunk_id <- lift_opt IndexError (chunk_id_list !! rank) ;;
    old_status <- get_status param access_type ;;
    update_status chunk_id old_status reset_to_status ;;
    set_status param reset_to_status access_type ;;
    match access_type with
    | DATA =>
        a <- get_ps_attr param ;;
        dev <- param_device param ;;
        set_param_data param (EmptyTensor (ps_data_type a) dev)
    | GRAD => set_param_grad param None
    end ;;
    world_size <- get_world_size ;;
    if bool_decide (1 < world_size) then
      all_chunks_ready <- for_fold chunk_id_list true (fun ready i =>
        not_ready <- chunk_not_ready training_stage i ;;
        ret (if not_ready then false else ready)) ;;
      if all_chunks_ready : bool then
        (if is_allreduce then
           local_chunk <- get_chunk (Some local_chunk_id) ;;
           assert_ (bool_decide (is_Some (payload local_chunk))) ;;
           cuda <- gets (fun s => CUDA (local_rank s)) ;;
           input_list <- for_collect chunk_id_list (fun i =>
             access_chunk (Some i) cuda ;;
             pin i ;;
             c <- get_chunk (Some i) ;;
             ret (payload c)) ;;
           local_chunk <- get_chunk (Some local_chunk_id) ;;
           reduce_scatter (payload local_chunk) input_list ;;
           local_chunk <- get_chunk (Some local_chunk_id) ;;
           div_payload (payload local_chunk) world_size
         else ret tt) ;;
        for_each chunk_id_list (fun i =>
          unpin i ;;
          if bool_decide (i ≠ local_chunk_id) then
            release_payload i ;;
            set_all_tensors_status_in_chunk i FREE
          else ret tt)
      else ret tt
    else ret tt.

(** [release(param, access_type, reset_to_status=TensorStatus.HOLD)] *)
Definition release (param : param_id) (access_type : AccessType)
    (reset_to_status : TensorStatus) : Cmd unit :=
  a <- get_ps_attr param ;;
  if bool_decide (param_type a = TORCH_BASED) then ret tt
  else
    chunk_id <- get_chunk_id param access_type ;;
    old_status <- get_status param access_type ;;
    update_status chunk_id old_status reset_to_status ;;
    set_status param reset_to_status access_type ;;
    match access_type with
    | DATA =>
        a <- get_ps_attr param ;;
        dev <- param_device param ;;
        set_param_data param (EmptyTensor (ps_data_type a) dev)
    | GRAD => set_param_grad param None
    end.

(** * Verification *)

(** ** Running the monad *)

Lemma bind_run {A B} (m : Cmd A) (k : A → Cmd B) s a s1 :
  m s = Ok a s1 → bind m k s = k a s1.
Proof. unfold bind. by intros ->. Qed.

Lemma bind_raise {A B} (m : Cmd A) (k : A → Cmd B) s e s1 :
  m s = Raise e s1 → bind m k s = Raise e s1.
Proof. unfold bind. by intros ->. Qed.

Lemma bind_ok_inv {A B} (m : Cmd A) (k : A → Cmd B) s b s' :
  bind m k s = Ok b s' → ∃ a s1, m s = Ok a s1 ∧ k a s1 = Ok b s'.
Proof. unfold bind. destruct (m s) as [a s1|e s1]; [eauto | done]. Qed.

Lemma assert_ok_inv (cond : bool) (s s' : St) u :
  assert_ cond s = Ok u s' → cond = true ∧ s' = s.
Proof. destruct cond; cbn; [by intros; simplify_eq | done]. Qed.

Lemma lift_opt_ok_inv {A} e (o : option A) (s s' : St) a :
  lift_opt e o s = Ok a s' → o = Some a ∧ s' = s.
Proof. destruct o; cbn; [by intros; simplify_eq | done]. Qed.

(** What a parameter looks like to the client. *)
Definition attr_at (s : St) (param : param_id) : option PSParameter :=
  p ← params s !! param; ps_attr p.

Lemma get_ps_attr_run s param a :
  attr_at s param = Some a → get_ps_attr param s = Ok a s.
Proof.
  unfold attr_at, get_ps_attr. intros H. cbn.
  destruct (params s !! param) as [p|]; [cbn in * | done]. by rewrite H.
Qed.

Lemma get_ps_attr_ok_inv s param a s' :
  get_ps_attr param s = Ok a s' → attr_at s param = Some a ∧ s' = s.
Proof.
  unfold attr_at, get_ps_attr. cbn.
  destruct (params s !! param) as [p|]; [cbn | done].
  destruct (ps_attr p); cbn; [by intros; simplify_eq | done].
Qed.

Lemma is_param_registered_run s param :
  is_param_registered param s = Ok (bool_decide (is_Some (attr_at s param))) s.
Proof.
  unfold is_param_registered, attr_at, gets. f_equal.
  by destruct (params s !! param) as [p|].
Qed.

Lemma get_param_run s param p :
  params s !! param = Some p → get_param param s = Ok p s.
Proof. unfold get_param. cbn. by intros ->. Qed.

Lemma get_tensor_id_run s param a access_type :
  attr_at s param = Some a →
  get_tensor_id param access_type s = Ok (tensor_id_of a access_type) s.
Proof. intros H. unfold get_tensor_id. by rewrite (bind_run _ _ _ _ _ (get_ps_attr_run _ _ _ H)). Qed.

(** The chunk the index assigns to a tensor of a parameter. *)
Definition chunk_of (s : St) (a : PSParameter) (access_type : AccessType)
    : option chunk_id :=
  info_chunk_id <$> tensor_id_to_info_map (index s) !! tensor_id_of a access_type.

Lemma get_chunk_id_run s param a access_type :
  attr_at s param = Some a →
  get_chunk_id param access_type s = Ok (chunk_of s a access_type) s.
Proof.
  intros H. unfold get_chunk_id.
  by rewrite (bind_run _ _ _ _ _ (get_tensor_id_run _ _ _ _ H)).
Qed.

Lemma get_chunk_run s i c :
  chunks s !! i = Some c → get_chunk (Some i) s = Ok c s.
Proof. unfold get_chunk. cbn. by intros ->. Qed.

Lemma get_chunk_None s : get_chunk None s = Raise KeyError s.
Proof. done. Qed.

Lemma get_chunk_ok_inv s o c s' :
  get_chunk o s = Ok c s' → ∃ i, o = Some i ∧ chunks s !! i = Some c ∧ s' = s.
Proof.
  unfold get_chunk. destruct o as [i|]; cbn; [|done].
  destruct (chunks s !! i) eqn:Hc; cbn; [|done].
  intros; simplify_eq; eauto.
Qed.

Create HintDb run discriminated.
#[local] Hint Resolve is_param_registered_run get_ps_attr_run get_param_run
  get_tensor_id_run get_chunk_id_run get_chunk_run : run.

(** One step of symbolic execution: the head command of the program is
    run, a primitive by computation, a call by a lemma of the [run]
    database. *)
Ltac mstep :=
  lazymatch goal with
  | |- context [bind (gets ?f) ?k ?s] =>
      change (bind (gets f) k s) with (k (f s) s); cbv beta
  | |- context [bind get ?k ?s] =>
      change (bind get k s) with (k s s); cbv beta
  | |- context [bind (ret ?a) ?k ?s] =>
      change (bind (ret a) k s) with (k a s); cbv beta
  | |- context [bind (modify ?f) ?k ?s] =>
      change (bind (modify f) k s) with (k tt (f s)); cbv beta
  | |- context [bind (assert_ true) ?k ?s] =>
      change (bind (assert_ true) k s) with (k tt s); cbv beta
  | |- context [bind (assert_ ?b) ?k ?s] =>
      let H := fresh in
      assert (H : b = true)
        by first [ reflexivity
                 | apply bool_decide_eq_true_2; solve [eauto]
                 | solve [eauto] ];
      rewrite H; clear H;
      change (bind (assert_ true) k s) with (k tt s); cbv beta
  | |- context [bind (lift_opt ?e (Some ?a)) ?k ?s] =>
      change (bind (lift_opt e (Some a)) k s) with (k a s); cbv beta
  | |- context [bind ?m ?k ?s] =>
      erewrite (bind_run m k s) by (solve [eauto with run nocore])
  end.

(** ** Parameters outside the chunks (C10) *)

(** C10, the four entry points on a parameter of type [TORCH_BASED]:
    [access] and [access_dist] hand back [param.data] or [param.grad] as it
    is, [release] and [release_dist] return at once, and the client state,
    chunks, index and status slots included, is left as it was. *)
Theorem torch_based_param_bypasses_chunks s param p a access_type dev st stage reduce :
  params s !! param = Some p →
  ps_attr p = Some a →
  param_type a = TORCH_BASED →
  let result := match access_type with DATA => Some (p_data p) | GRAD => p_grad p end in
  access param access_type dev s = Ok result s
  ∧ access_dist param access_type dev s = Ok result s
  ∧ release param access_type st s = Ok tt s
  ∧ release_dist param access_type st stage reduce s = Ok tt s.
Proof.
  intros Hp Ha Ht.
  assert (Hattr : attr_at s param = Some a) by (unfold attr_at; by rewrite Hp).
  unfold access, access_dist, release, release_dist.
  repeat split.
  - mstep. rewrite Hattr. mstep. mstep. rewrite bool_decide_eq_true_2 by done.
    mstep. by destruct access_type.
  - mstep. rewrite Hattr. mstep. mstep. rewrite bool_decide_eq_true_2 by done.
    mstep. by destruct access_type.
  - mstep. by rewrite bool_decide_eq_true_2.
  - mstep. by rewrite bool_decide_eq_true_2.
Qed.

(** ** Tensors without a chunk (C7) *)

Lemma get_ps_attr_unregistered s param :
  attr_at s param = None → get_ps_attr param s = Raise AttributeError s.
Proof.
  unfold attr_at, get_ps_attr. cbn.
  destruct (params s !! param) as [p|]; [cbn | done]. by intros ->.
Qed.

Lemma chunk_ids_of_comm_group_None s :
  chunk_ids_of_comm_group None s = Raise KeyError s.
Proof. done. Qed.

Lemma access_chunk_None s dev : access_chunk None dev s = Raise KeyError s.
Proof. done. Qed.

(** C7, an access to a tensor the client cannot place: for a parameter that
    is not registered both [access] and [access_dist] stop at their
    assertion; for a registered chunk-based parameter whose tensor has no
    chunk, [access] raises its [RuntimeError] and [access_dist] fails on the
    lookup of the missing id.  Either way no tensor is returned and the state
    is the one the call started from. *)
Theorem access_without_chunk_fails_fast s param access_type dev :
  (attr_at s param = None →
     access param access_type dev s = Raise AssertionError s
     ∧ access_dist param access_type dev s = Raise AssertionError s)
  ∧ (∀ a, attr_at s param = Some a → param_type a = CHUNK_BASED →
       chunk_of s a access_type = None →
       access param access_type dev s = Raise RuntimeError s
       ∧ access_dist param access_type dev s = Raise KeyError s).
Proof.
  split.
  - intros Hattr. unfold access, access_dist.
    split; mstep; rewrite Hattr; reflexivity.
  - intros a Hattr Ht Hc. unfold access, access_dist. split.
    + mstep. rewrite Hattr. mstep. mstep.
      rewrite bool_decide_eq_false_2 by (rewrite Ht; done).
      mstep. rewrite Hc. reflexivity.
    + mstep. rewrite Hattr. mstep. mstep.
      rewrite bool_decide_eq_false_2 by (rewrite Ht; done).
      mstep. rewrite Hc. unfold get_rank, get_world_size. mstep. mstep.
      case_bool_decide; reflexivity.
Qed.

(** ** Status slots and views *)

Lemma attr_at_lookup s param p a :
  params s !! param = Some p → ps_attr p = Some a → attr_at s param = Some a.
Proof. unfold attr_at. intros -> Ha. by cbn. Qed.

Lemma attr_at_inv s param a :
  attr_at s param = Some a → ∃ p, params s !! param = Some p ∧ ps_attr p = Some a.
Proof.
  unfold attr_at. destruct (params s !! param) as [p|]; cbn; [eauto | done].
Qed.

Lemma get_status_run s param a access_type :
  attr_at s param = Some a →
  get_status param access_type s = Ok (status_of a access_type) s.
Proof. intros H. unfold get_status. by mstep. Qed.

Lemma access_tensor_run s param a access_type :
  attr_at s param = Some a →
  access_tensor param access_type s = Ok (tensor_of a access_type) s.
Proof. intros H. unfold access_tensor. by mstep. Qed.

Lemma update_status_run s i c old_status new_status :
  chunks s !! i = Some c → update_status (Some i) old_status new_status s = Ok tt s.
Proof. intros H. unfold update_status. by mstep. Qed.

Lemma put_ps_attr_run s param p a :
  params s !! param = Some p →
  put_ps_attr param a s = Ok tt (with_params (insert param (with_attr a p)) s).
Proof. intros H. unfold put_ps_attr. by mstep. Qed.

Lemma set_status_run s param p a st access_type :
  params s !! param = Some p → ps_attr p = Some a →
  set_status param st access_type s
  = Ok tt (with_params (insert param (with_attr (attr_set_status a st access_type) p)) s).
Proof.
  intros Hp Ha. unfold set_status.
  pose proof (attr_at_lookup _ _ _ _ Hp Ha). mstep. by apply put_ps_attr_run.
Qed.

Lemma set_tensor_run s param p a t access_type :
  params s !! param = Some p → ps_attr p = Some a →
  set_tensor param t access_type s
  = Ok tt (with_params (insert param (with_attr (attr_set_tensor a t access_type) p)) s).
Proof.
  intros Hp Ha. unfold set_tensor.
  pose proof (attr_at_lookup _ _ _ _ Hp Ha). mstep. by apply put_ps_attr_run.
Qed.

Lemma set_param_data_run s param p t :
  params s !! param = Some p →
  set_param_data param t s = Ok tt (with_params (insert param (with_data t p)) s).
Proof. intros H. unfold set_param_data. by mstep. Qed.

Lemma set_param_grad_run s param p g :
  params s !! param = Some p →
  set_param_grad param g s = Ok tt (with_params (insert param (with_grad g p)) s).
Proof. intros H. unfold set_param_grad. by mstep. Qed.

Lemma param_device_run s param p :
  params s !! param = Some p →
  param_device param s = Ok (tensor_device s (p_data p)) s.
Proof. intros H. unfold param_device. by mstep. Qed.

#[local] Hint Resolve get_status_run access_tensor_run update_status_run
  put_ps_attr_run set_status_run set_tensor_run set_param_data_run
  set_param_grad_run param_device_run attr_at_lookup : run.

Lemma params_with_params f (s : St) : params (with_params f s) = f (params s).
Proof. done. Qed.

Lemma params_insert_eq (s : St) param p :
  params (with_params (insert param p) s) !! param = Some p.
Proof. cbn. apply lookup_insert_eq. Qed.

Lemma params_insert_ne (s : St) param param' p :
  param ≠ param' →
  params (with_params (insert param p) s) !! param' = params s !! param'.
Proof. intros. cbn. by apply lookup_insert_ne. Qed.

Lemma attr_at_insert_eq (s : St) param p :
  attr_at (with_params (insert param p) s) param = ps_attr p.
Proof. unfold attr_at. by rewrite params_insert_eq. Qed.

Lemma attr_at_insert_ne (s : St) param param' p :
  param ≠ param' →
  attr_at (with_params (insert param p) s) param' = attr_at s param'.
Proof. intros. unfold attr_at. by rewrite params_insert_ne. Qed.

Lemma with_params_insert_insert (s : St) param p p' :
  with_params (insert param p') (with_params (insert param p) s)
  = with_params (insert param p') s.
Proof. unfold with_params. cbn. by rewrite insert_insert_eq. Qed.

#[local] Hint Resolve params_insert_eq : run.
#[local] Hint Extern 0 (Some _ = Some _) => reflexivity : run.
#[local] Hint Extern 2 (attr_at (with_params _ _) _ = Some _) =>
  rewrite attr_at_insert_eq; cbn [ps_attr with_attr with_data with_grad] : run.

Lemma status_of_set_status a st access_type :
  status_of (attr_set_status a st access_type) access_type = st.
Proof. by destruct access_type. Qed.

Lemma status_of_set_status_ne a st access_type access_type' :
  access_type' ≠ access_type →
  status_of (attr_set_status a st access_type) access_type' = status_of a access_type'.
Proof. by destruct access_type, access_type'. Qed.

Lemma tensor_of_set_status a st access_type access_type' :
  tensor_of (attr_set_status a st access_type) access_type' = tensor_of a access_type'.
Proof. by destruct access_type, access_type'. Qed.

Lemma tensor_id_of_set_status a st access_type access_type' :
  tensor_id_of (attr_set_status a st access_type) access_type'
  = tensor_id_of a access_type'.
Proof. by destruct access_type, access_type'. Qed.

Lemma tensor_of_set_tensor a t access_type :
  tensor_of (attr_set_tensor a t access_type) access_type = Some t.
Proof. by destruct access_type. Qed.

Lemma status_of_set_tensor a t access_type access_type' :
  status_of (attr_set_tensor a t access_type) access_type' = status_of a access_type'.
Proof. by destruct access_type, access_type'. Qed.

Lemma tensor_id_of_set_tensor a t access_type access_type' :
  tensor_id_of (attr_set_tensor a t access_type) access_type'
  = tensor_id_of a access_type'.
Proof. by destruct access_type, access_type'. Qed.

(** ** The local release (C8) *)

(** What [release] leaves in a parameter: the status slot reset and the
    framework-visible view detached. *)
Definition released_param (s : St) (p : Param) (a : PSParameter)
    (access_type : AccessType) (st : TensorStatus) : Param :=
  let p' := with_attr (attr_set_status a st access_type) p in
  match access_type with
  | DATA => with_data (EmptyTensor (ps_data_type a) (tensor_device s (p_data p))) p'
  | GRAD => with_grad None p'
  end.

Lemma release_run s param p a access_type st cid c :
  params s !! param = Some p → ps_attr p = Some a →
  param_type a = CHUNK_BASED →
  chunk_of s a access_type = Some cid → chunks s !! cid = Some c →
  release param access_type st s
  = Ok tt (with_params (insert param (released_param s p a access_type st)) s).
Proof.
  intros Hp Ha Ht Hc Hchunk. unfold release.
  mstep. rewrite bool_decide_eq_false_2 by (rewrite Ht; done).
  mstep. rewrite Hc. mstep. mstep. mstep.
  destruct access_type.
  - mstep. mstep.
    erewrite set_param_data_run by eauto with run nocore.
    by rewrite with_params_insert_insert.
  - erewrite set_param_grad_run by eauto with run nocore.
    by rewrite with_params_insert_insert.
Qed.

(** C8, the frame of a local release of a chunk-based tensor whose chunk is
    in the directory: the call returns; the status slot of the released
    tensor holds the reset status; [param.data] is the empty placeholder
    after a data release and [param.grad] is [None] after a grad release;
    the directory (payloads, devices, pin counts), the storages, the index
    and the calls made are as before, and so are every other parameter, the
    other status slot of this parameter, its bound tensors and its ids. *)
Theorem release_frame s param p a access_type st cid c :
  params s !! param = Some p → ps_attr p = Some a →
  param_type a = CHUNK_BASED →
  chunk_of s a access_type = Some cid → chunks s !! cid = Some c →
  ∃ s' p' a',
    release param access_type st s = Ok tt s'
    ∧ chunk_list s' = chunk_list s
    ∧ heap s' = heap s
    ∧ chunk_tensor_index s' = chunk_tensor_index s
    ∧ trace s' = trace s
    ∧ (∀ q, q ≠ param → params s' !! q = params s !! q)
    ∧ params s' !! param = Some p' ∧ ps_attr p' = Some a'
    ∧ status_of a' access_type = st
    ∧ (∀ k, k ≠ access_type → status_of a' k = status_of a k)
    ∧ (∀ k, tensor_of a' k = tensor_of a k ∧ tensor_id_of a' k = tensor_id_of a k)
    ∧ ps_numel a' = ps_numel a ∧ param_type a' = param_type a
    ∧ match access_type with
      | DATA => p_data p' = EmptyTensor (ps_data_type a) (tensor_device s (p_data p))
                ∧ p_grad p' = p_grad p
      | GRAD => p_grad p' = None ∧ p_data p' = p_data p
      end.
Proof.
  intros Hp Ha Ht Hc Hchunk.
  eexists _, (released_param s p a access_type st), (attr_set_status a st access_type).
  split; [by eapply release_run|].
  repeat split; try done.
  - intros q Hq. by apply params_insert_ne.
  - apply params_insert_eq.
  - by destruct access_type.
  - apply status_of_set_status.
  - intros k Hk. by apply status_of_set_status_ne.
  - apply tensor_of_set_status.
  - apply tensor_id_of_set_status.
  - by destruct access_type.
  - by destruct access_type.
  - by destruct access_type.
Qed.

(** ** Frame reasoning

    [stable R m]: whatever [m] does, and whether it returns or raises, the
    state it leaves is related by [R] to the state it started from. *)

Definition stable (R : relation St) {A} (m : Cmd A) : Prop :=
  ∀ s, R s (out_state (m s)).

Section stable.
Context (R : relation St) `{!PreOrder R}.

Lemma stable_ret {A} (a : A) : stable R (ret a).
Proof. intros s. reflexivity. Qed.

Lemma stable_raise {A} e : stable R (raise (A:=A) e).
Proof. intros s. reflexivity. Qed.

Lemma stable_get : stable R get.
Proof. intros s. reflexivity. Qed.

Lemma stable_gets {A} (f : St → A) : stable R (gets f).
Proof. intros s. reflexivity. Qed.

Lemma stable_assert b : stable R (assert_ b).
Proof. intros s. destruct b; reflexivity. Qed.

Lemma stable_lift_opt {A} e (o : option A) : stable R (lift_opt e o).
Proof. intros s. destruct o; reflexivity. Qed.

Lemma stable_modify f : (∀ s, R s (f s)) → stable R (modify f).
Proof. intros H s. apply H. Qed.

Lemma stable_bind {A B} (m : Cmd A) (k : A → Cmd B) :
  stable R m → (∀ a, stable R (k a)) → stable R (bind m k).
Proof.
  intros Hm Hk s. cbn. specialize (Hm s).
  destruct (m s) as [a s1|e s1]; cbn in *; [|done].
  etrans; [done | apply Hk].
Qed.

Lemma stable_for_each {A} (l : list A) (body : A → Cmd unit) :
  (∀ x, stable R (body x)) → stable R (for_each l body).
Proof.
  intros Hb. induction l as [|x l IH]; [apply stable_ret|].
  apply stable_bind; [apply Hb | by intros _].
Qed.

Lemma stable_for_collect {A B} (l : list A) (body : A → Cmd B) :
  (∀ x, stable R (body x)) → stable R (for_collect l body).
Proof.
  intros Hb. induction l as [|x l IH]; [apply stable_ret|].
  apply stable_bind; [apply Hb | intros y].
  apply stable_bind; [apply IH | intros ys; apply stable_ret].
Qed.

Lemma stable_for_fold {A B} (l : list A) (acc : B) (body : B → A → Cmd B) :
  (∀ b x, stable R (body b x)) → stable R (for_fold l acc body).
Proof.
  intros Hb. revert acc. induction l as [|x l IH]; intros acc; [apply stable_ret|].
  apply stable_bind; [apply Hb | intros b; apply IH].
Qed.

Lemma stable_bind_ret {A B} (a : A) (k : A → Cmd B) :
  stable R (k a) → stable R (bind (ret a) k).
Proof. intros H s. apply H. Qed.

Lemma stable_bind_some {A B} e (a : A) (k : A → Cmd B) :
  stable R (k a) → stable R (bind (lift_opt e (Some a)) k).
Proof. intros H s. apply H. Qed.

(** What follows from the outcome of a stable command. *)
Lemma stable_ok {A} (m : Cmd A) s a s' : stable R m → m s = Ok a s' → R s s'.
Proof. intros H Hm. specialize (H s). by rewrite Hm in H. Qed.

Lemma stable_out {A} (m : Cmd A) s : stable R m → R s (out_state (m s)).
Proof. intros H. apply H. Qed.
End stable.

Ltac head_of t :=
  lazymatch t with
  | ?f _ => head_of f
  | _ => t
  end.

(** Decompose a [stable] goal along the program; [leaf] closes the goals
    about single state updates and about calls with a lemma of their own. *)
Ltac stable_go leaf :=
  idtac;
  lazymatch goal with
  | |- PreOrder _ => tc_solve
  | |- stable _ (bind (ret _) _) => apply stable_bind_ret; stable_go leaf
  | |- stable _ (bind (lift_opt _ (Some _)) _) => apply stable_bind_some; stable_go leaf
  | |- stable _ (bind _ _) => apply stable_bind; [..| intros ?]; stable_go leaf
  | |- stable _ (ret _) => apply stable_ret; stable_go leaf
  | |- stable _ (raise _) => apply stable_raise; stable_go leaf
  | |- stable _ get => apply stable_get; stable_go leaf
  | |- stable _ (gets _) => apply stable_gets; stable_go leaf
  | |- stable _ (assert_ _) => apply stable_assert; stable_go leaf
  | |- stable _ (lift_opt _ _) => apply stable_lift_opt; stable_go leaf
  | |- stable _ (for_each _ _) =>
      apply stable_for_each; [..| intros ?]; stable_go leaf
  | |- stable _ (for_collect _ _) =>
      apply stable_for_collect; [..| intros ?]; stable_go leaf
  | |- stable _ (for_fold _ _ _) =>
      apply stable_for_fold; [..| intros ? ?]; stable_go leaf
  | |- stable _ (if ?b then _ else _) => destruct b; stable_go leaf
  | |- stable _ (match ?x with _ => _ end) => destruct x; stable_go leaf
  | |- stable _ (let _ := _ in _) => cbv zeta; stable_go leaf
  | |- stable _ ?m =>
      first [ solve [leaf]
            | let h := head_of m in progress unfold h; stable_go leaf ]
  end.

(** *** Relations that keep a component of the state *)

Definition keeps {B} (f : St → B) : relation St := fun s s' => f s' = f s.

#[local] Instance keeps_preorder {B} (f : St → B) : PreOrder (keeps f).
Proof. split; unfold keeps; [by intros ? | intros ? ? ? ? ?; congruence]. Qed.

(** Loops that only read are stable for every preorder, and the eviction
    scan is as stable as the moves it makes. *)
Lemma stable_has_released_chunk R `{!PreOrder R} l : stable R (has_released_chunk l).
Proof.
  induction l as [|i l IH]; cbn [has_released_chunk]; [apply stable_ret; tc_solve|].
  apply stable_bind; [tc_solve | |].
  - unfold chunk_get_status, get_chunk. stable_go fail.
  - intros st. destruct (bool_decide _); [apply stable_ret; tc_solve | done].
Qed.

Lemma stable_make_room R `{!PreOrder R} l dev need :
  (∀ i target, stable R (chunk_move i target)) →
  stable R (make_room l dev need).
Proof.
  intros Hmove. induction l as [|i l IH]; cbn [make_room].
  - stable_go fail.
  - apply stable_bind; [tc_solve | apply stable_get; tc_solve | intros s].
    destruct (bool_decide _); [apply stable_ret; tc_solve|].
    apply stable_bind; [tc_solve | | by intros _].
    destruct (evictable _ _ _); [apply Hmove | apply stable_ret; tc_solve].
Qed.

(** [stable_by upd]: decompose down to the single updates, each closed by
    [upd]. *)
Ltac stable_by upd :=
  stable_go ltac:(first
    [ apply stable_modify; intros ?; upd
    | apply stable_has_released_chunk; tc_solve
    | apply stable_make_room; [tc_solve | intros ? ?; stable_by upd] ]).

(** ** The registration is never touched (C9) *)

Lemma access_keeps_index param access_type dev :
  stable (keeps chunk_tensor_index) (access param access_type dev).
Proof. stable_by ltac:(exact eq_refl). Qed.

Lemma access_dist_keeps_index param access_type dev :
  stable (keeps chunk_tensor_index) (access_dist param access_type dev).
Proof. stable_by ltac:(exact eq_refl). Qed.

Lemma release_keeps_index param access_type st :
  stable (keeps chunk_tensor_index) (release param access_type st).
Proof. stable_by ltac:(exact eq_refl). Qed.

Lemma release_dist_keeps_index param access_type st stage reduce :
  stable (keeps chunk_tensor_index) (release_dist param access_type st stage reduce).
Proof. stable_by ltac:(exact eq_refl). Qed.

(** C9, the registration mapping: whatever state they start from and
    whether they return or raise, [access], [access_dist], [release] and
    [release_dist] leave the whole tensor-to-chunk index as it was; in
    particular after two accesses in a row to the same tensor its record
    (chunk id, offset, length) is the one registered. *)
Theorem registration_never_modified s param access_type dev st stage reduce :
  chunk_tensor_index (out_state (access param access_type dev s))
    = chunk_tensor_index s
  ∧ chunk_tensor_index (out_state (access_dist param access_type dev s))
    = chunk_tensor_index s
  ∧ chunk_tensor_index (out_state (release param access_type st s))
    = chunk_tensor_index s
  ∧ chunk_tensor_index (out_state (release_dist param access_type st stage reduce s))
    = chunk_tensor_index s
  ∧ ∀ tid,
      tensor_id_to_info_map
        (index (out_state ((access param access_type dev ;;
                            access param access_type dev) s))) !! tid
      = tensor_id_to_info_map (index s) !! tid.
Proof.
  split_and!.
  - apply access_keeps_index.
  - apply access_dist_keeps_index.
  - apply release_keeps_index.
  - apply release_dist_keeps_index.
  - intros tid. unfold index.
    rewrite (stable_out (keeps chunk_tensor_index) _ s); [done|].
    apply stable_bind; [tc_solve | | intros _]; apply access_keeps_index.
Qed.

(** ** Events of a call *)

(** The calls made between two states. *)
Definition new_events (s s' : St) : list Event := drop (length (trace s)) (trace s').

(** [emits P]: the calls made are all of kind [P]. *)
Definition emits (P : Event → Prop) : relation St :=
  fun s s' => ∃ t, trace s' = trace s ++ t ∧ Forall P t.

#[local] Instance emits_preorder P : PreOrder (emits P).
Proof.
  split.
  - intros s. exists []. by rewrite app_nil_r.
  - intros s1 s2 s3 (t1 & H1 & F1) (t2 & H2 & F2). exists (t1 ++ t2).
    rewrite H2, H1, (assoc_L (++)). split; [done | by apply Forall_app].
Qed.

Lemma emits_new_events P s s' : emits P s s' → Forall P (new_events s s').
Proof.
  intros (t & Ht & HF). unfold new_events. by rewrite Ht, drop_app_length.
Qed.

Lemma emits_weaken (P Q : Event → Prop) s s' :
  (∀ ev, P ev → Q ev) → emits P s s' → emits Q s s'.
Proof.
  intros HPQ (t & Ht & HF). exists t. split; [done|].
  eapply Forall_impl; eauto.
Qed.

Lemma emits_silent P s s' : trace s' = trace s → emits P s s'.
Proof. intros H. exists []. by rewrite app_nil_r. Qed.

Lemma emits_log P ev s : P ev → emits P s (log_event ev s).
Proof. intros H. exists [ev]. split; [done | by constructor]. Qed.

(** [emits_by tac]: a call emits events of the kind at hand, [tac] proving
    it of each event the call logs. *)
Ltac emits_upd tac :=
  idtac;
  lazymatch goal with
  | |- emits _ ?s (log_event _ ?s) => apply emits_log; tac
  | |- emits _ _ _ => apply emits_silent; exact eq_refl
  end.
Ltac emits_by tac := stable_by ltac:(emits_upd tac).

(** The state a command leaves at one start state. *)
Lemma out_state_bind {A B} (m : Cmd A) (k : A → Cmd B) s :
  out_state (bind m k s)
  = match m s with Ok a s1 => out_state (k a s1) | Raise _ s1 => s1 end.
Proof. cbn. by destruct (m s). Qed.

Lemma related_bind (R : relation St) `{!PreOrder R} {A B}
    (m : Cmd A) (k : A → Cmd B) s :
  R s (out_state (m s)) →
  (∀ a s1, m s = Ok a s1 → R s1 (out_state (k a s1))) →
  R s (out_state (bind m k s)).
Proof.
  intros Hm Hk. rewrite out_state_bind.
  destruct (m s) as [a s1|e s1] eqn:Hms; cbn in *; [|done].
  etrans; [done | by apply Hk].
Qed.

Definition is_all_gather (ev : Event) : bool :=
  match ev with EvAllGather _ _ => true | _ => false end.

Definition is_move (ev : Event) : Prop := ∃ i dev, ev = EvMove i dev.

(** *** What the directory's calls emit *)

Lemma chunk_move_emits i target : stable (emits is_move) (chunk_move i target).
Proof. emits_by ltac:(by eexists _, _). Qed.

Lemma prepare_device_emits dev need : stable (emits is_move) (prepare_device dev need).
Proof. emits_by ltac:(by eexists _, _). Qed.

Lemma access_chunk_emits i dev :
  stable (emits (fun ev => is_move ev ∨ ∃ d, ev = EvAllocatePayload i d))
         (access_chunk (Some i) dev).
Proof. emits_by ltac:(first [left; by eexists _, _ | right; by eexists]). Qed.

(** ** Inverting a run that returned *)

Lemma gets_ok_inv {A} (f : St → A) s a s' : gets f s = Ok a s' → a = f s ∧ s' = s.
Proof. cbn. by intros; simplify_eq. Qed.

Lemma get_ok_inv (s x s' : St) : get s = Ok x s' → x = s ∧ s' = s.
Proof. cbn. by intros; simplify_eq. Qed.

Lemma ret_ok_inv {A} (a b : A) (s s' : St) : ret a s = Ok b s' → b = a ∧ s' = s.
Proof. cbn. by intros; simplify_eq. Qed.

Lemma modify_ok_inv f (s s' : St) u : modify f s = Ok u s' → s' = f s.
Proof. cbn. by intros; simplify_eq. Qed.

Lemma lift_opt_some_ok_inv {A} e (a b : A) (s s' : St) :
  lift_opt e (Some a) s = Ok b s' → b = a ∧ s' = s.
Proof. cbn. by intros; simplify_eq. Qed.

Lemma get_chunk_some_ok_inv s i c s' :
  get_chunk (Some i) s = Ok c s' → chunks s !! i = Some c ∧ s' = s.
Proof. intros H. apply get_chunk_ok_inv in H as (j & ? & ? & ?). by simplify_eq. Qed.

(** Split the head command off a run that returned, and read off what a
    primitive head did. *)
Ltac minv H :=
  lazymatch type of H with
  | gets _ _ = Ok _ _ => apply gets_ok_inv in H as [H ->]; try subst
  | get _ = Ok _ _ => apply get_ok_inv in H as [H ->]; try subst
  | ret _ _ = Ok _ _ => apply ret_ok_inv in H as [H ->]; try subst
  | modify _ _ = Ok _ _ => apply modify_ok_inv in H; try subst
  | raise _ _ = Ok _ _ => discriminate H
  | is_initialized _ = Ok _ _ => unfold is_initialized in H; minv H
  | get_rank _ = Ok _ _ => unfold get_rank in H; minv H
  | get_world_size _ = Ok _ _ => unfold get_world_size in H; minv H
  | assert_ _ _ = Ok _ _ => apply assert_ok_inv in H as [H ->]
  | lift_opt _ (Some _) _ = Ok _ _ =>
      apply lift_opt_some_ok_inv in H as [H ->]; try subst
  | lift_opt _ _ _ = Ok _ _ => apply lift_opt_ok_inv in H as [H ->]
  | get_chunk (Some _) _ = Ok _ _ => apply get_chunk_some_ok_inv in H as [H ->]
  | get_chunk _ _ = Ok _ _ =>
      let i := fresh "i" in
      let Hi := fresh "Hid" in
      apply get_chunk_ok_inv in H as (i & Hi & H & ->)
  | get_ps_attr _ _ = Ok _ _ => apply get_ps_attr_ok_inv in H as [H ->]
  | bind _ _ _ = Ok _ _ =>
      let a := fresh "a" in
      let s1 := fresh "s" in
      let Hm := fresh "Hrun" in
      apply bind_ok_inv in H as (a & s1 & Hm & H);
      minv Hm;
      cbv beta in H;
      minv H
  | _ => idtac
  end.

(** What a run that returned says about a relation the command is stable
    for. *)
Ltac stable_fact R H tac Hn :=
  lazymatch type of H with
  | ?m ?s = Ok ?a ?s' =>
      assert (Hn : R s s') by (apply (stable_ok R m s a s'); [tac | exact H])
  end.

(** Invert every run in the context. *)
Ltac minv_ctx :=
  repeat match goal with
         | H : _ = Ok _ _ |- _ => progress minv H
         end.

(** ** Payloads *)

Definition has_payload (s : St) (i : chunk_id) : Prop :=
  ∃ c, chunks s !! i = Some c ∧ is_Some (payload c).

(** No chunk loses its storage. *)
Definition payload_mono : relation St :=
  fun s s' => ∀ i, has_payload s i → has_payload s' i.

#[local] Instance payload_mono_preorder : PreOrder payload_mono.
Proof. split; [by intros s i | intros s1 s2 s3 H1 H2 i Hi; by apply H2, H1]. Qed.

Lemma chunks_with_chunks f (s : St) : chunks (with_chunks f s) = f (chunks s).
Proof. done. Qed.

Lemma payload_mono_update s s' i c c' :
  chunks s !! i = Some c →
  chunks s' = <[i := c']> (chunks s) →
  (is_Some (payload c) → is_Some (payload c')) →
  payload_mono s s'.
Proof.
  intros Hc Hs' Hp j (cj & Hj & Hpj). unfold has_payload. rewrite Hs'.
  destruct (decide (i = j)) as [->|Hne].
  - rewrite lookup_insert_eq. eexists; split; [done|]. apply Hp. by simplify_eq.
  - rewrite lookup_insert_ne by done. eauto.
Qed.

Lemma payload_mono_same s s' : chunks s' = chunks s → payload_mono s s'.
Proof. intros H i. unfold has_payload. by rewrite H. Qed.

(** A call that starts by fetching the chunk: it is enough to look at what
    it does once the chunk is there. *)
Lemma related_get_chunk (R : relation St) `{!PreOrder R} {B} i (k : Chunk → Cmd B) s :
  (∀ c, chunks s !! i = Some c → R s (out_state (k c s))) →
  R s (out_state (bind (get_chunk (Some i)) k s)).
Proof.
  intros Hk. apply related_bind; [tc_solve | | ].
  - unfold get_chunk. cbn. destruct (chunks s !! i); cbn; reflexivity.
  - intros c s1 Hrun. minv Hrun. simplify_eq. by apply Hk.
Qed.

Lemma pin_payload_mono i : stable payload_mono (pin i).
Proof.
  intros s. unfold pin. apply related_get_chunk; [tc_solve|]. intros c Hc.
  by eapply payload_mono_update.
Qed.

Lemma unpin_payload_mono i : stable payload_mono (unpin i).
Proof.
  intros s. unfold unpin. apply related_get_chunk; [tc_solve|]. intros c Hc.
  by eapply payload_mono_update.
Qed.

Lemma allocate_payload_payload_mono i dev : stable payload_mono (allocate_payload i dev).
Proof.
  intros s. unfold allocate_payload. apply related_get_chunk; [tc_solve|]. intros c Hc.
  by eapply payload_mono_update.
Qed.

Lemma chunk_move_payload_mono i dev : stable payload_mono (chunk_move i dev).
Proof.
  intros s. unfold chunk_move. apply related_get_chunk; [tc_solve|]. intros c Hc.
  cbn. destruct (payload c) as [sid|]; cbn; [|done].
  destruct (heap s !! sid); cbn; [|done].
  by eapply payload_mono_update.
Qed.

(** [mono_by]: the calls above by their lemmas, anything else by showing
    that it leaves the chunks alone. *)
Ltac mono_leaf :=
  first [ apply pin_payload_mono | apply unpin_payload_mono
        | apply allocate_payload_payload_mono | apply chunk_move_payload_mono
        | apply stable_modify; intros ?; apply payload_mono_same; exact eq_refl
        | apply stable_has_released_chunk; tc_solve
        | apply stable_make_room; [tc_solve | intros ? ?; apply chunk_move_payload_mono] ].
Ltac mono_by := stable_go ltac:(mono_leaf).

Lemma access_chunk_payload_mono c dev : stable payload_mono (access_chunk c dev).
Proof. mono_by. Qed.

Lemma set_all_tensors_status_payload_mono i st :
  stable payload_mono (set_all_tensors_status_in_chunk i st).
Proof. mono_by. Qed.

Lemma fetch_payload_mono l local dev :
  stable payload_mono (_fetch_remote_chunks l local dev).
Proof. mono_by. Qed.

Lemma access_dist_payload_mono param access_type dev :
  stable payload_mono (access_dist param access_type dev).
Proof. mono_by. Qed.
(** *** Residency: what [access_chunk] guarantees when it returns *)

(** The chunk has its payload on the device. *)
Definition resident (s : St) (i : chunk_id) (dev : device) : Prop :=
  ∃ c sid st, chunks s !! i = Some c ∧ payload c = Some sid
              ∧ heap s !! sid = Some st ∧ st_device st = dev.

Lemma resident_has_payload s i dev : resident s i dev → has_payload s i.
Proof. intros (c & sid & st & Hc & Hp & _). exists c. by rewrite Hp. Qed.

Lemma allocate_payload_ok i dev s u s' :
  allocate_payload i dev s = Ok u s' → resident s' i dev.
Proof.
  unfold allocate_payload. intros H. minv H.
  eexists _, _, _. cbn. rewrite !lookup_insert_eq. done.
Qed.

Lemma chunk_move_ok i dev s u s' :
  chunk_move i dev s = Ok u s' → resident s' i dev.
Proof.
  unfold chunk_move. intros H. minv H.
  eexists _, _, _. cbn. rewrite !lookup_insert_eq. done.
Qed.

Lemma mark_needed_resident i j dev s :
  resident s i dev → resident (out_state (mark_needed j s)) i dev.
Proof. done. Qed.

Lemma access_chunk_ok i dev s u s' :
  access_chunk (Some i) dev s = Ok u s' → resident s' i dev.
Proof.
  unfold access_chunk, mark_needed. intros H. minv H.
  lazymatch goal with
  | Hbody : match payload ?c with _ => _ end ?s = Ok _ ?s1 |- _ =>
      apply (mark_needed_resident _ i _ s1);
      destruct (payload c) as [sid|] eqn:Hp; minv Hbody
  end.
  - case_bool_decide as Hdev; minv_ctx.
    + by eexists _, _, _.
    + by eapply chunk_move_ok.
  - by eapply allocate_payload_ok.
Qed.

Lemma access_chunk_ok_some c dev s u s' :
  access_chunk c dev s = Ok u s' → is_Some c.
Proof. unfold access_chunk. intros H. minv H. by eexists. Qed.

(** ** The gather decision of [_fetch_remote_chunks] *)

(** Whether some chunk of the list is [RELEASED]. *)
Definition released_in (s : St) (l : list chunk_id) : bool :=
  existsb (fun i => match chunks s !! i with
                    | Some c => bool_decide (chunk_status s i c = CS_RELEASED)
                    | None => false
                    end) l.

Lemma aggregate_status_not_released l : aggregate_status l ≠ CS_RELEASED.
Proof. unfold aggregate_status. by repeat case_bool_decide. Qed.

Lemma chunk_status_released s i c :
  chunk_status s i c = CS_RELEASED ↔ payload c = None.
Proof.
  unfold chunk_status. destruct (payload c); [|done].
  split; [|done]. intros H. by apply aggregate_status_not_released in H.
Qed.

Lemma has_released_chunk_state l s : out_state (has_released_chunk l s) = s.
Proof.
  induction l as [|i l IH]; [done|]. cbn [has_released_chunk].
  rewrite out_state_bind. unfold chunk_get_status, get_chunk. cbn.
  destruct (chunks s !! i) as [c|]; cbn; [|done].
  case_bool_decide; [done | apply IH].
Qed.

Lemma has_released_chunk_ok l s b s' :
  has_released_chunk l s = Ok b s' →
  s' = s ∧ b = released_in s l ∧ (b = false → Forall (has_payload s) l).
Proof.
  intros H. split.
  { pose proof (has_released_chunk_state l s) as Hs. by rewrite H in Hs. }
  revert H. induction l as [|i l IH]; cbn [has_released_chunk released_in existsb].
  - intros H. minv H. by split.
  - unfold chunk_get_status. intros H. minv H.
    lazymatch goal with Hc : chunks _ !! i = Some ?c |- _ => rewrite Hc; rename c into ci end.
    case_bool_decide as Hst; minv_ctx.
    + by split.
    + lazymatch goal with Hr : has_released_chunk _ _ = _ |- _ =>
        apply IH in Hr as [-> Hl] end.
      split; [done|]. intros Hf. constructor; [|by apply Hl].
      exists ci. split; [done|]. rewrite chunk_status_released in Hst.
      by destruct (payload ci).
Qed.

Lemma released_in_false s l : Forall (has_payload s) l → released_in s l = false.
Proof.
  unfold released_in. induction 1 as [|i l (c & Hc & Hp) _ IH]; [done|].
  cbn. rewrite Hc, IH, orb_false_r. apply bool_decide_eq_false.
  rewrite chunk_status_released. by destruct Hp as [? ->].
Qed.

(** A loop establishes for each element what its round establishes, when
    the later rounds keep it. *)
Lemma for_collect_ok_forall {A B} (P : A → St → Prop) (l : list A)
    (body : A → Cmd B) s ys s' :
  for_collect l body s = Ok ys s' →
  (∀ x s0 y s1, body x s0 = Ok y s1 → P x s1) →
  (∀ x z s0 y s1, P x s0 → body z s0 = Ok y s1 → P x s1) →
  Forall (fun x => P x s') l.
Proof.
  intros Hrun Hest Hkeep. revert s ys Hrun.
  induction l as [|x l IH]; intros s ys Hrun; [done|].
  cbn [for_collect] in Hrun.
  apply bind_ok_inv in Hrun as (y & s1 & Hx & Hrun).
  apply bind_ok_inv in Hrun as (ys' & s2 & Hl & Hrun). minv Hrun.
  constructor; [|by eapply IH].
  assert (Hp : P x s1) by by eapply Hest.
  clear IH Hx. revert s1 ys' Hl Hp. induction l as [|z l IH]; intros s1 ys' Hl Hp.
  - cbn [for_collect] in Hl. by minv Hl.
  - cbn [for_collect] in Hl.
    apply bind_ok_inv in Hl as (y' & s3 & Hz & Hl).
    apply bind_ok_inv in Hl as (ys'' & s4 & Hl & Hr). minv Hr.
    eapply IH; [done|]. by eapply Hkeep.
Qed.

Lemma for_each_ok_forall {A} (P : A → St → Prop) (l : list A)
    (body : A → Cmd unit) s u s' :
  for_each l body s = Ok u s' →
  (∀ x s0 y s1, body x s0 = Ok y s1 → P x s1) →
  (∀ x z s0 y s1, P x s0 → body z s0 = Ok y s1 → P x s1) →
  Forall (fun x => P x s') l.
Proof.
  intros Hrun Hest Hkeep. revert s Hrun.
  induction l as [|x l IH]; intros s Hrun; [done|].
  cbn [for_each] in Hrun.
  apply bind_ok_inv in Hrun as (y & s1 & Hx & Hrun).
  constructor; [|by eapply IH].
  assert (Hp : P x s1) by by eapply Hest.
  clear IH Hx. revert s1 Hrun Hp. induction l as [|z l IH]; intros s1 Hl Hp.
  - cbn [for_each] in Hl. by minv Hl.
  - cbn [for_each] in Hl.
    apply bind_ok_inv in Hl as (y' & s3 & Hz & Hl).
    eapply IH; [done|]. by eapply Hkeep.
Qed.

(** *** The collective call *)

Definition no_gather (ev : Event) : Prop := is_all_gather ev = false.

Lemma all_gather_ok buff pl s u s' :
  all_gather buff pl s = Ok u s' →
  ∃ outputs input, trace s' = trace s ++ [EvAllGather outputs input]
                   ∧ chunks s' = chunks s.
Proof.
  unfold all_gather. intros H. minv H. case_bool_decide; minv_ctx. by eexists _, _.
Qed.

(** *** [_fetch_remote_chunks] without and with a released chunk *)

Lemma fetch_quiet l local dev s :
  released_in s l = false →
  out_state (_fetch_remote_chunks l local dev s) = s
  ∧ (is_ok (_fetch_remote_chunks l local dev s) → Forall (has_payload s) l).
Proof.
  intros Hrel. unfold _fetch_remote_chunks.
  destruct (has_released_chunk l s) as [b s1|e s1] eqn:Hh.
  - rewrite (bind_run _ _ _ _ _ Hh).
    apply has_released_chunk_ok in Hh as (-> & -> & Hl).
    rewrite Hrel in *. cbn. split; [done|]. intros _. by apply Hl.
  - rewrite (bind_raise _ _ _ _ _ Hh).
    pose proof (has_released_chunk_state l s) as Hs. rewrite Hh in Hs. by subst.
Qed.

Lemma fetch_gather l local dev s u s' :
  _fetch_remote_chunks l local dev s = Ok u s' →
  released_in s l = true →
  has_payload s local →
  (∃ t outputs input,
      trace s' = trace s ++ t ++ [EvAllGather outputs input] ∧ Forall no_gather t)
  ∧ Forall (has_payload s') l.
Proof.
  unfold _fetch_remote_chunks. intros H Hrel Hlocal.
  apply bind_ok_inv in H as (b & s0 & Hh & H).
  apply has_released_chunk_ok in Hh as (-> & -> & _). rewrite Hrel in H. cbn [negb] in H.
  apply bind_ok_inv in H as (buff & s1 & Hloop & H).
  apply bind_ok_inv in H as (first_payload & sx & Hfirst & H). minv Hfirst.
  apply bind_ok_inv in H as (first_sid & sx & Hsid & H). minv Hsid.
  apply bind_ok_inv in H as ([] & s2 & Hunpin & H).
  minv H.
  lazymatch goal with Hg : all_gather _ _ _ = _ |- _ =>
    apply all_gather_ok in Hg as (outputs & input & Htr & Hch) end.
  stable_fact payload_mono Hunpin ltac:(mono_by) Hmono2.
  stable_fact (emits no_gather) Hunpin ltac:(emits_by ltac:(reflexivity)) Hev2.
  stable_fact payload_mono Hloop ltac:(mono_by) Hmono1.
  stable_fact (emits no_gather) Hloop ltac:(emits_by ltac:(reflexivity)) Hev1.
  assert (Hrem : Forall (fun i => i ≠ local → has_payload s1 i) l).
  { eapply (for_collect_ok_forall (fun i st => i ≠ local → has_payload st i));
      [exact Hloop | |].
    - intros i sa y sb Hbody Hne. apply bind_ok_inv in Hbody as ([] & sc & Hif & Hbody).
      rewrite bool_decide_eq_true_2 in Hif by done.
      apply bind_ok_inv in Hif as (c & sd & Hc & Hif).
      apply bind_ok_inv in Hif as ([] & se & Hprep & Hif).
      apply bind_ok_inv in Hif as ([] & sf & Halloc & Hpin).
      apply allocate_payload_ok, resident_has_payload in Halloc.
      stable_fact payload_mono Hpin ltac:(mono_by) Hm1.
      stable_fact payload_mono Hbody ltac:(mono_by) Hm2.
      by apply Hm2, Hm1.
    - intros i z sa y sb Hi Hbody Hne.
      stable_fact payload_mono Hbody ltac:(mono_by) Hm. by apply Hm, Hi. }
  split.
  - destruct Hev1 as (t1 & Ht1 & HF1). destruct Hev2 as (t2 & Ht2 & HF2).
    exists (t1 ++ t2), outputs, input. split; [|by apply Forall_app].
    rewrite Htr, Ht2, Ht1. by rewrite !(assoc_L (++)).
  - apply Forall_forall. intros i Hi.
    assert (has_payload s2 i) as (c & Hc & Hp).
    { apply Hmono2. destruct (decide (i = local)) as [->|Hne].
      - by apply Hmono1.
      - rewrite Forall_forall in Hrem. by apply Hrem. }
    exists c. by rewrite Hch.
Qed.

(** ** The parts of a distributed access *)

(** Steps 2 and 3 of [access] and [access_dist]: bind the tensor to its
    window of the payload, zero-fill on first touch, go to [COMPUTE]. *)
Definition locate_and_compute (param : param_id) (access_type : AccessType)
    (chunk_id : option chunk_id) : Cmd (option Tensor) :=
  tensor_id <- get_tensor_id param access_type ;;
  info <- get_tensor_info tensor_id ;;
  a <- get_ps_attr param ;;
  assert_ (bool_decide (numel info = ps_numel a)) ;;
  c <- get_chunk chunk_id ;;
  t <- narrow (payload c) (start_offset info) (numel info) ;;
  set_tensor param t access_type ;;
  old_status <- get_status param access_type ;;
  (if bool_decide (old_status = FREE) then
     t <- access_tensor param access_type ;; zero_ t
   else ret tt) ;;
  update_status chunk_id old_status COMPUTE ;;
  set_status param COMPUTE access_type ;;
  access_tensor param access_type.

(** Step 1 of [access_dist] for more than one process. *)
Definition group_step (chunk_id_list : list chunk_id) (local_chunk_id : chunk_id)
    (dev : device) : Cmd unit :=
  access_chunk (Some local_chunk_id) dev ;;
  pin local_chunk_id ;;
  _fetch_remote_chunks chunk_id_list local_chunk_id dev ;;
  unpin local_chunk_id.

(** What [access_dist] does after step 1. *)
Definition access_dist_rest (param : param_id) (access_type : AccessType)
    (dev : device) (chunk_id : option chunk_id) : Cmd (option Tensor) :=
  access_chunk chunk_id dev ;;
  c <- get_chunk chunk_id ;;
  assert_ (bool_decide (is_Some (payload c))) ;;
  dev' <- payload_device (payload c) ;;
  assert_ (bool_decide (dev' = dev)) ;;
  locate_and_compute param access_type chunk_id.

Lemma bind_assoc {A B C} (m : Cmd A) (k : A → Cmd B) (k' : B → Cmd C) s :
  bind (bind m k) k' s = bind m (fun a => bind (k a) k') s.
Proof. cbn. by destruct (m s). Qed.

Lemma chunk_ids_of_comm_group_run s cid l :
  comm_group_of (index s) cid = Some l →
  chunk_ids_of_comm_group (Some cid) s = Ok l s.
Proof. intros H. unfold chunk_ids_of_comm_group. mstep. mstep. by rewrite H. Qed.

#[local] Hint Resolve chunk_ids_of_comm_group_run : run.

(** The parameter is a registered chunk-based one, and this is the
    communication group of its tensor's chunk and the local chunk in it. *)
Record dist_target (s : St) (param : param_id) (access_type : AccessType)
    (cid : chunk_id) (l : list chunk_id) (local : chunk_id) : Prop := {
  dt_registered : ∃ a, attr_at s param = Some a ∧ param_type a = CHUNK_BASED
                       ∧ chunk_of s a access_type = Some cid;
  dt_group : comm_group_of (index s) cid = Some l;
  dt_local : l !! rank (env s) = Some local
}.

Lemma access_dist_parts s param access_type dev cid l local :
  dist_target s param access_type cid l local →
  1 < world_size (env s) →
  access_dist param access_type dev s
  = (group_step l local dev ;; access_dist_rest param access_type dev (Some cid)) s.
Proof.
  intros [(a & Hattr & Ht & Hc) Hg Hl] Hws. unfold access_dist.
  mstep. rewrite Hattr. mstep. mstep.
  rewrite bool_decide_eq_false_2 by (rewrite Ht; done).
  mstep. rewrite Hc. unfold get_rank, get_world_size. mstep. mstep.
  rewrite bool_decide_eq_true_2 by done.
  rewrite bind_assoc. mstep. rewrite bind_assoc, Hl. mstep. reflexivity.
Qed.

Lemma dist_target_frame s s' param access_type cid l local :
  dist_target s param access_type cid l local →
  env s' = env s → chunk_tensor_index s' = chunk_tensor_index s →
  (∀ a, attr_at s param = Some a →
        ∃ a', attr_at s' param = Some a' ∧ param_type a' = param_type a
              ∧ tensor_id_of a' access_type = tensor_id_of a access_type) →
  dist_target s' param access_type cid l local.
Proof.
  intros [(a & Hattr & Ht & Hc) Hg Hl] Henv Hidx Hp.
  destruct (Hp a Hattr) as (a' & Hattr' & Ht' & Hid).
  split.
  - exists a'. split_and!; [done | congruence |].
    unfold chunk_of, index in *. by rewrite Hidx, Hid.
  - unfold index. by rewrite Hidx.
  - by rewrite Henv.
Qed.

(** *** Events of the parts *)

Lemma access_chunk_resident_emits i dev s :
  has_payload s i → emits is_move s (out_state (access_chunk (Some i) dev s)).
Proof.
  intros (c & Hc & sid & Hp). unfold access_chunk.
  rewrite (bind_run _ _ _ _ _ (get_chunk_run _ _ _ Hc)).
  change (bind (lift_opt KeyError (Some i)) ?k s) with (k i s). cbv beta.
  rewrite Hp.
  apply (stable_out (emits is_move)).
  emits_by ltac:(by eexists _, _).
Qed.

Lemma locate_and_compute_silent param access_type c :
  stable (emits (fun _ => False)) (locate_and_compute param access_type c).
Proof. emits_by fail. Qed.

Lemma locate_and_compute_keeps_chunks param access_type c :
  stable (keeps chunk_list) (locate_and_compute param access_type c).
Proof. stable_by ltac:(exact eq_refl). Qed.


(** ** The all-gather happens exactly for a released group (C1) *)

(** The state in which [access_dist] calls [_fetch_remote_chunks]: the local
    chunk has been made resident and pinned. *)
Definition fetch_time_state (s : St) (local : chunk_id) (dev : device) : St :=
  out_state ((access_chunk (Some local) dev ;; pin local) s).

(** Neither an all-gather nor the allocation of storage for a chunk of the
    group other than the local one. *)
Definition quiet (l : list chunk_id) (local : chunk_id) (ev : Event) : Prop :=
  no_gather ev ∧ ∀ j d, ev = EvAllocatePayload j d → j ∈ l → j = local.

Lemma is_move_quiet l local ev : is_move ev → quiet l local ev.
Proof. intros (i & d & ->). split; [done | by intros]. Qed.

Lemma no_gather_filter t : Forall no_gather t → filter is_all_gather t = [].
Proof.
  induction 1 as [|ev t Hev _ IH]; [done|].
  rewrite filter_cons_False; [done|]. unfold no_gather in Hev. rewrite Hev. exact id.
Qed.

Lemma access_dist_rest_no_gather param access_type dev c :
  stable (emits no_gather) (access_dist_rest param access_type dev c).
Proof. emits_by ltac:(reflexivity). Qed.

Lemma access_dist_rest_payload_mono param access_type dev c :
  stable payload_mono (access_dist_rest param access_type dev c).
Proof. mono_by. Qed.

Lemma access_dist_rest_quiet param access_type dev cid l local s :
  Forall (has_payload s) l →
  emits (quiet l local) s (out_state (access_dist_rest param access_type dev (Some cid) s)).
Proof.
  intros Hl. unfold access_dist_rest. apply related_bind; [tc_solve | |].
  - destruct (decide (cid ∈ l)) as [Hin|Hout].
    + eapply emits_weaken; [apply is_move_quiet|].
      apply access_chunk_resident_emits. rewrite Forall_forall in Hl. by apply Hl.
    + eapply emits_weaken; [|apply (access_chunk_emits cid dev)].
      intros ev [Hm|(d & ->)]; [by apply is_move_quiet|].
      split; [done|]. intros j d' [= <- <-] Hj. done.
  - intros _ s1 _. eapply emits_weaken; [|apply (stable_out (emits (fun _ => False)))].
    { by intros ev []. }
    emits_by fail.
Qed.

Lemma fetch_time_state_run s local dev u1 s1 u2 s2 :
  access_chunk (Some local) dev s = Ok u1 s1 →
  pin local s1 = Ok u2 s2 →
  fetch_time_state s local dev = s2.
Proof.
  intros H1 H2. unfold fetch_time_state.
  by rewrite (bind_run _ _ _ _ _ H1), H2.
Qed.

(** Without a released chunk at the time of the check nothing is gathered
    and no remote storage is allocated, however the call ends. *)
Lemma access_dist_quiet s param access_type dev cid l local :
  dist_target s param access_type cid l local →
  1 < world_size (env s) →
  released_in (fetch_time_state s local dev) l = false →
  emits (quiet l local) s (out_state (access_dist param access_type dev s)).
Proof.
  intros Htarget Hws Hrel. rewrite (access_dist_parts _ _ _ _ _ _ _ Htarget Hws).
  assert (Hac : emits (quiet l local) s (out_state (access_chunk (Some local) dev s))).
  { eapply emits_weaken; [|apply (access_chunk_emits local dev)].
    intros ev [Hm|(d & ->)]; [by apply is_move_quiet|]. split; [done|].
    by intros j d' [= <- <-] _. }
  assert (Hpin : ∀ i, stable (emits (quiet l local)) (pin i)).
  { intros i. emits_by ltac:(by split). }
  assert (Hunpin : ∀ i, stable (emits (quiet l local)) (unpin i)).
  { intros i. emits_by ltac:(by split). }
  apply related_bind; [tc_solve | |].
  - unfold group_step. apply related_bind; [tc_solve | done |].
    intros u1 s1 Hrun1. apply related_bind; [tc_solve | apply Hpin |].
    intros u2 s2 Hrun2.
    rewrite (fetch_time_state_run _ _ _ _ _ _ _ Hrun1 Hrun2) in Hrel.
    destruct (fetch_quiet l local dev s2 Hrel) as [Hst _].
    apply related_bind; [tc_solve | by rewrite Hst |].
    intros u3 s3 Hrun3. apply Hunpin.
  - intros u s4 Hgroup. apply access_dist_rest_quiet.
    unfold group_step in Hgroup.
    apply bind_ok_inv in Hgroup as (u1 & s1 & Hrun1 & Hgroup).
    apply bind_ok_inv in Hgroup as (u2 & s2 & Hrun2 & Hgroup).
    apply bind_ok_inv in Hgroup as (u3 & s3 & Hrun3 & Hrun4).
    rewrite (fetch_time_state_run _ _ _ _ _ _ _ Hrun1 Hrun2) in Hrel.
    destruct (fetch_quiet l local dev s2 Hrel) as [Hst Hok].
    rewrite Hrun3 in Hst, Hok. cbn in Hst, Hok. subst s3.
    stable_fact payload_mono Hrun4 ltac:(mono_by) Hmono.
    eapply Forall_impl; [by apply Hok | apply Hmono].
Qed.

Lemma access_dist_keeps_env param access_type dev :
  stable (keeps env) (access_dist param access_type dev).
Proof. stable_by ltac:(exact eq_refl). Qed.

Lemma prefix_payload_mono local dev :
  stable payload_mono (access_chunk (Some local) dev ;; pin local).
Proof. mono_by. Qed.

(** After a distributed access that returned, every chunk of the group has
    its storage, and the trace grew by at most one all-gather: one exactly
    when a chunk was released at the time of the check. *)
Lemma access_dist_ok_gathers s param access_type dev cid l local t s' :
  dist_target s param access_type cid l local →
  1 < world_size (env s) →
  access_dist param access_type dev s = Ok t s' →
  length (filter is_all_gather (new_events s s'))
    = (if released_in (fetch_time_state s local dev) l then 1 else 0)
  ∧ Forall (has_payload s') l.
Proof.
  intros Htarget Hws Hrun.
  rewrite (access_dist_parts _ _ _ _ _ _ _ Htarget Hws) in Hrun.
  apply bind_ok_inv in Hrun as (u & s4 & Hgroup & Hrest). unfold group_step in Hgroup.
  apply bind_ok_inv in Hgroup as (u1 & s1 & Hrun1 & Hgroup).
  apply bind_ok_inv in Hgroup as (u2 & s2 & Hrun2 & Hgroup).
  apply bind_ok_inv in Hgroup as (u3 & s3 & Hrun3 & Hrun4).
  rewrite (fetch_time_state_run _ _ _ _ _ _ _ Hrun1 Hrun2).
  stable_fact (emits no_gather) Hrun1 ltac:(emits_by ltac:(reflexivity)) He1.
  stable_fact (emits no_gather) Hrun2 ltac:(emits_by ltac:(reflexivity)) He2.
  stable_fact (emits no_gather) Hrun4 ltac:(emits_by ltac:(reflexivity)) He4.
  stable_fact (emits no_gather) Hrest ltac:(apply access_dist_rest_no_gather) He5.
  stable_fact payload_mono Hrun2 ltac:(mono_by) Hm2.
  stable_fact payload_mono Hrun4 ltac:(mono_by) Hm4.
  stable_fact payload_mono Hrest ltac:(apply access_dist_rest_payload_mono) Hm5.
  destruct He1 as (t1 & Ht1 & HF1). destruct He2 as (t2 & Ht2 & HF2).
  destruct He4 as (t4 & Ht4 & HF4). destruct He5 as (t5 & Ht5 & HF5).
  destruct (released_in s2 l) eqn:Hrel.
  - assert (Hlocal : has_payload s2 local).
    { apply Hm2. eapply resident_has_payload. by eapply access_chunk_ok. }
    destruct (fetch_gather _ _ _ _ _ _ Hrun3 Hrel Hlocal)
      as ((t3 & outputs & input & Ht3 & HF3) & Hall).
    split.
    + unfold new_events. rewrite Ht5, Ht4, Ht3, Ht2, Ht1.
      rewrite <- !(assoc_L (++)), drop_app_length.
      rewrite !filter_app, (no_gather_filter t1), (no_gather_filter t2),
        (no_gather_filter t3), (no_gather_filter t4), (no_gather_filter t5) by done.
      done.
    + eapply Forall_impl; [exact Hall|]. intros i Hi. by apply Hm5, Hm4.
  - destruct (fetch_quiet l local dev s2 Hrel) as [Hst Hok].
    rewrite Hrun3 in Hst, Hok. cbn in Hst, Hok. subst s3.
    split.
    + unfold new_events. rewrite Ht5, Ht4, Ht2, Ht1.
      rewrite <- !(assoc_L (++)), drop_app_length.
      rewrite !filter_app, (no_gather_filter t1), (no_gather_filter t2),
        (no_gather_filter t4), (no_gather_filter t5) by done.
      done.
    + eapply Forall_impl; [by apply Hok|]. intros i Hi. by apply Hm5, Hm4.
Qed.

Lemma quiet_no_gather l local ev : quiet l local ev → no_gather ev.
Proof. by intros []. Qed.

(** *** The decision and the state at the call

    Making the local chunk resident is the only thing that happens between
    the call of [access_dist] and the decision.  When the local chunk has
    storage already, that moves payloads at most: which chunks are [RELEASED]
    is then the same at the decision as at the call. *)

Definition is_released (s : St) (i : chunk_id) : bool :=
  match chunks s !! i with
  | Some c => bool_decide (chunk_status s i c = CS_RELEASED)
  | None => false
  end.

Definition same_released : relation St :=
  fun s s' => ∀ i, is_released s' i = is_released s i.

#[local] Instance same_released_preorder : PreOrder same_released.
Proof. split; [by intros s i | intros s1 s2 s3 H1 H2 i; by rewrite H2, H1]. Qed.

Lemma is_released_payload s i :
  is_released s i
  = match chunks s !! i with
    | Some c => bool_decide (payload c = None)
    | None => false
    end.
Proof.
  unfold is_released. destruct (chunks s !! i) as [c|]; [|done].
  apply bool_decide_ext, chunk_status_released.
Qed.

Lemma same_released_update s s' i c c' :
  chunks s !! i = Some c →
  chunks s' = <[i := c']> (chunks s) →
  (payload c' = None ↔ payload c = None) →
  same_released s s'.
Proof.
  intros Hc Hs' Hp j. rewrite !is_released_payload, Hs'.
  destruct (decide (i = j)) as [<-|Hne].
  - rewrite lookup_insert_eq, Hc. by apply bool_decide_ext.
  - by rewrite lookup_insert_ne.
Qed.

Lemma same_released_same s s' : chunks s' = chunks s → same_released s s'.
Proof. intros H i. rewrite !is_released_payload. by rewrite H. Qed.

Lemma pin_same_released i : stable same_released (pin i).
Proof.
  intros s. unfold pin. apply related_get_chunk; [tc_solve|]. intros c Hc.
  by eapply same_released_update.
Qed.

Lemma chunk_move_same_released i dev : stable same_released (chunk_move i dev).
Proof.
  intros s. unfold chunk_move. apply related_get_chunk; [tc_solve|]. intros c Hc.
  cbn. destruct (payload c) as [sid|] eqn:Hp; cbn; [|done].
  destruct (heap s !! sid); cbn; [|done].
  eapply same_released_update; [done..|]. cbn. by rewrite Hp.
Qed.

Lemma prepare_device_same_released dev need :
  stable same_released (prepare_device dev need).
Proof.
  stable_go ltac:(first
    [ apply stable_make_room; [tc_solve | intros ? ?; apply chunk_move_same_released] ]).
Qed.

Lemma released_in_same s s' l : same_released s s' → released_in s' l = released_in s l.
Proof.
  intros H. unfold released_in. induction l as [|i l IH]; [done|].
  cbn [existsb]. rewrite IH. f_equal. apply (H i).
Qed.

Lemma fetch_time_released s local dev l :
  has_payload s local →
  released_in (fetch_time_state s local dev) l = released_in s l.
Proof.
  intros (c & Hc & [sid Hp]). apply released_in_same. unfold fetch_time_state.
  apply related_bind; [tc_solve | | intros _ s1 _; apply pin_same_released].
  unfold access_chunk. apply related_get_chunk; [tc_solve|]. intros c' Hc'.
  simplify_eq. rewrite Hp.
  apply (stable_out same_released).
  stable_go ltac:(first
    [ apply prepare_device_same_released | apply chunk_move_same_released
    | apply stable_modify; intros ?; apply same_released_same; exact eq_refl ]).
Qed.


(** ** First touch: the zero-fill (C4) *)

Lemma get_tensor_info_run s tid info :
  tensor_id_to_info_map (index s) !! tid = Some info →
  get_tensor_info tid s = Ok info s.
Proof. intros H. unfold get_tensor_info. mstep. by rewrite H. Qed.

Lemma narrow_run s sid st start len :
  heap s !! sid = Some st → start + len ≤ length (st_data st) →
  narrow (Some sid) start len s = Ok (Narrow sid start len) s.
Proof.
  intros Hst Hlen. unfold narrow. mstep. mstep. rewrite Hst. mstep.
  by rewrite bool_decide_eq_true_2.
Qed.

Definition zero_storage (st : Storage E) (start len : nat) : Storage E :=
  {| st_device := st_device st; st_data := zero_window (st_data st) start len |}.

Lemma zero_run s sid st start len :
  heap s !! sid = Some st →
  zero_ (Some (Narrow sid start len)) s
  = Ok tt (with_heap (insert sid (zero_storage st start len)) s).
Proof. intros Hst. unfold zero_. mstep. by rewrite Hst. Qed.

#[local] Hint Resolve get_tensor_info_run narrow_run zero_run : run.

(** The attributes of the accessed tensor when the call returns. *)
Definition computed_attr (a : PSParameter) (t : Tensor) (access_type : AccessType)
    : PSParameter :=
  attr_set_status (attr_set_tensor a t access_type) COMPUTE access_type.

(** The state steps 2 and 3 leave: the storage zero-filled under the window
    if the tensor was [FREE], the tensor bound and at [COMPUTE]. *)
Definition after_compute (s : St) (param : param_id) (p : Param) (a : PSParameter)
    (access_type : AccessType) (sid : storage_id) (st : Storage E)
    (start len : nat) : St :=
  with_params
    (insert param (with_attr (computed_attr a (Narrow sid start len) access_type) p))
    (if bool_decide (status_of a access_type = FREE)
     then with_heap (insert sid (zero_storage st start len)) s
     else s).

Lemma locate_and_compute_run s param p a access_type cid c sid st info :
  params s !! param = Some p → ps_attr p = Some a →
  tensor_id_to_info_map (index s) !! tensor_id_of a access_type = Some info →
  numel info = ps_numel a →
  chunks s !! cid = Some c → payload c = Some sid → heap s !! sid = Some st →
  start_offset info + numel info ≤ length (st_data st) →
  locate_and_compute param access_type (Some cid) s
  = Ok (Some (Narrow sid (start_offset info) (numel info)))
       (after_compute s param p a access_type sid st (start_offset info) (numel info)).
Proof.
  intros Hp Ha Hinfo Hnumel Hc Hpl Hst Hlen. unfold locate_and_compute.
  mstep. mstep. mstep. mstep. mstep. rewrite Hpl. mstep. mstep. mstep.
  rewrite status_of_set_tensor.
  unfold after_compute. case_bool_decide as Hfree.
  - rewrite bind_assoc. mstep. rewrite tensor_of_set_tensor. mstep. mstep.
    erewrite (bind_run (set_status _ _ _))
      by (apply set_status_run; [apply lookup_insert_eq | done]).
    erewrite access_tensor_run
      by (unfold attr_at; cbn; rewrite lookup_insert_eq; done).
    rewrite tensor_of_set_status, tensor_of_set_tensor.
    f_equal. unfold with_params, with_heap. cbn. f_equal. apply insert_insert_eq.
  - mstep. mstep.
    erewrite (bind_run (set_status _ _ _))
      by (apply set_status_run; [apply lookup_insert_eq | done]).
    erewrite access_tensor_run
      by (unfold attr_at; cbn; rewrite lookup_insert_eq; done).
    rewrite tensor_of_set_status, tensor_of_set_tensor.
    f_equal. unfold with_params. cbn. f_equal. apply insert_insert_eq.
Qed.


Lemma access_chunk_keeps_params c dev : stable (keeps params) (access_chunk c dev).
Proof. stable_by ltac:(exact eq_refl). Qed.

Lemma access_chunk_keeps_index c dev :
  stable (keeps chunk_tensor_index) (access_chunk c dev).
Proof. stable_by ltac:(exact eq_refl). Qed.

Lemma access_chunk_keeps_env c dev : stable (keeps env) (access_chunk c dev).
Proof. stable_by ltac:(exact eq_refl). Qed.

(** *** The elements of a payload survive residency changes *)

(** The elements of a chunk's payload. *)
Definition chunk_elems (s : St) (i : chunk_id) : option (list E) :=
  c ← chunks s !! i; sid ← payload c; st ← heap s !! sid; Some (st_data st).

Definition elems_kept : relation St :=
  fun s s' => ∀ i d, chunk_elems s i = Some d → chunk_elems s' i = Some d.

#[local] Instance elems_kept_preorder : PreOrder elems_kept.
Proof. split; [by intros s i d | intros s1 s2 s3 H1 H2 i d Hi; by apply H2, H1]. Qed.

Lemma fresh_storage_None s : heap s !! fresh_storage s = None.
Proof. unfold fresh_storage. apply (not_elem_of_dom (D:=gset nat)). apply is_fresh. Qed.

Lemma chunk_elems_inv s i d :
  chunk_elems s i = Some d →
  ∃ c sid st, chunks s !! i = Some c ∧ payload c = Some sid
              ∧ heap s !! sid = Some st ∧ st_data st = d.
Proof.
  unfold chunk_elems. intros H.
  destruct (chunks s !! i) as [c|] eqn:Hc; [cbn in H | done].
  destruct (payload c) as [sid|] eqn:Hp; [cbn in H | done].
  destruct (heap s !! sid) as [st|] eqn:Hst; [cbn in H | done].
  simplify_eq. by eexists _, _, _.
Qed.

Lemma chunk_elems_intro s i c sid st :
  chunks s !! i = Some c → payload c = Some sid → heap s !! sid = Some st →
  chunk_elems s i = Some (st_data st).
Proof. intros Hc Hp Hst. unfold chunk_elems. rewrite Hc. cbn. rewrite Hp. cbn. by rewrite Hst. Qed.

(** Giving chunk [i] a new storage that holds [d] keeps the elements of the
    other chunks, and those of [i] if they were [d]. *)
Lemma elems_kept_new_storage s s' i c dev d :
  chunks s !! i = Some c →
  chunks s' = <[i := set_payload (Some (fresh_storage s)) c]> (chunks s) →
  heap s' = <[fresh_storage s := {| st_device := dev; st_data := d |}]> (heap s) →
  (∀ d', chunk_elems s i = Some d' → d' = d) →
  elems_kept s s'.
Proof.
  intros Hc Hcs Hh Hd j dj Hj.
  destruct (decide (i = j)) as [<-|Hne].
  - rewrite (Hd _ Hj). unfold chunk_elems. rewrite Hcs, lookup_insert_eq. cbn.
    by rewrite Hh, lookup_insert_eq.
  - apply chunk_elems_inv in Hj as (cj & sid & st & Hcj & Hp & Hst & <-).
    unfold chunk_elems. rewrite Hcs, lookup_insert_ne, Hcj by done. cbn.
    rewrite Hp. cbn. rewrite Hh, lookup_insert_ne, Hst; [done|].
    intros Heq. rewrite <- Heq, fresh_storage_None in Hst. done.
Qed.

Lemma chunk_move_elems_kept i dev : stable elems_kept (chunk_move i dev).
Proof.
  intros s. unfold chunk_move. apply related_get_chunk; [tc_solve|]. intros c Hc.
  cbn. destruct (payload c) as [sid|] eqn:Hp; cbn; [|done].
  destruct (heap s !! sid) as [st|] eqn:Hst; cbn; [|done].
  eapply (elems_kept_new_storage s _ i c dev (st_data st)); [done..|].
  intros d' Hd'. erewrite chunk_elems_intro in Hd' by done. by simplify_eq.
Qed.

Lemma elems_kept_same s s' :
  chunks s' = chunks s → heap s' = heap s → elems_kept s s'.
Proof. intros Hc Hh i d. unfold chunk_elems. by rewrite Hc, Hh. Qed.

Lemma prepare_device_elems_kept dev need : stable elems_kept (prepare_device dev need).
Proof.
  stable_go ltac:(first
    [ apply stable_make_room; [tc_solve | intros ? ?; apply chunk_move_elems_kept] ]).
Qed.

(** Allocating storage for chunk [i] keeps the elements of the others. *)
Lemma allocate_payload_elems_others i dev s j d :
  j ≠ i → chunk_elems s j = Some d →
  chunk_elems (out_state (allocate_payload i dev s)) j = Some d.
Proof.
  intros Hne Hj. unfold allocate_payload, get_chunk. cbn.
  destruct (chunks s !! i) as [c|] eqn:Hc; cbn; [|done].
  apply chunk_elems_inv in Hj as (cj & sid & st & Hcj & Hp & Hst & <-).
  unfold chunk_elems. cbn. unfold chunks in Hcj.
  rewrite lookup_insert_ne, Hcj by done. cbn.
  rewrite Hp. cbn. rewrite lookup_insert_ne, Hst; [done|].
  intros Heq. rewrite <- Heq, fresh_storage_None in Hst. done.
Qed.

Lemma access_chunk_elems_kept i dev : stable elems_kept (access_chunk (Some i) dev).
Proof.
  intros s. unfold access_chunk. apply related_get_chunk; [tc_solve|]. intros c Hc.
  change (bind (lift_opt KeyError (Some i)) ?k s) with (k i s). cbv beta.
  apply related_bind; [tc_solve | |].
  2: { intros _ s1 _. by apply elems_kept_same. }
  destruct (payload c) as [sid|] eqn:Hp.
  - apply (stable_out elems_kept).
    stable_go ltac:(first [ apply prepare_device_elems_kept | apply chunk_move_elems_kept ]).
  - rewrite out_state_bind.
    pose proof (prepare_device_elems_kept dev (get_chunk_space c) s) as Hprep.
    destruct (prepare_device dev (get_chunk_space c) s) as [u s1|e s1]; cbn in *; [|done].
    intros j d Hj. apply allocate_payload_elems_others; [|by apply Hprep].
    intros ->. unfold chunk_elems in Hj. rewrite Hc in Hj. cbn in Hj.
    by rewrite Hp in Hj.
Qed.

(** *** The window after the zero-fill *)

Lemma zero_window_eq (l : list E) start len :
  start + len ≤ length l →
  zero_window l start len
  = take start l ++ replicate len ezero ++ drop (start + len) l.
Proof.
  intros Hlen. unfold zero_window. do 3 f_equal.
  rewrite length_take_le; [done|]. rewrite length_drop. lia.
Qed.

Lemma zero_window_inside (l : list E) start len :
  start + len ≤ length l →
  take len (drop start (zero_window l start len)) = replicate len ezero.
Proof.
  intros Hlen. rewrite zero_window_eq by done.
  rewrite drop_app_length' by (rewrite length_take_le; lia).
  by rewrite take_app_length' by (by rewrite length_replicate).
Qed.

Lemma zero_window_before (l : list E) start len :
  start + len ≤ length l → take start (zero_window l start len) = take start l.
Proof.
  intros Hlen. rewrite zero_window_eq by done.
  by rewrite take_app_length' by (rewrite length_take_le; lia).
Qed.

Lemma zero_window_after (l : list E) start len :
  start + len ≤ length l →
  drop (start + len) (zero_window l start len) = drop (start + len) l.
Proof.
  intros Hlen. rewrite zero_window_eq by done. rewrite (assoc_L (++)).
  rewrite drop_app_length'; [done|].
  rewrite length_app, length_take_le, length_replicate; lia.
Qed.

(** What steps 2 and 3 achieve, from the state [s1] in which the chunk has
    become resident to the state [s'] the call returns in: the tensor is
    bound to its window and at [COMPUTE]; the window reads zeros if the
    tensor was [FREE], and what it read in [s1] otherwise; outside the
    window the storage is as in [s1]; the directory is untouched. *)
Record first_touch (s1 s' : St) (param : param_id) (a : PSParameter)
    (access_type : AccessType) (sid : storage_id) (start len : nat) : Prop := {
  ft_status : ∃ a', attr_at s' param = Some a'
                    ∧ status_of a' access_type = COMPUTE
                    ∧ tensor_of a' access_type = Some (Narrow sid start len);
  ft_window : tensor_elems s' (Narrow sid start len)
              = if bool_decide (status_of a access_type = FREE)
                then replicate len ezero
                else tensor_elems s1 (Narrow sid start len);
  ft_outside : take start (payload_elems s' sid) = take start (payload_elems s1 sid)
               ∧ drop (start + len) (payload_elems s' sid)
                 = drop (start + len) (payload_elems s1 sid);
  ft_untouched : status_of a access_type ≠ FREE → heap s' = heap s1;
  ft_directory : chunk_list s' = chunk_list s1
}.

Lemma after_compute_first_touch s param p a access_type sid st start len :
  heap s !! sid = Some st → start + len ≤ length (st_data st) →
  first_touch s (after_compute s param p a access_type sid st start len)
    param a access_type sid start len.
Proof.
  intros Hst Hlen. unfold after_compute. split.
  - eexists. rewrite attr_at_insert_eq. split; [done|]. unfold computed_attr.
    by rewrite status_of_set_status, tensor_of_set_status, tensor_of_set_tensor.
  - unfold tensor_elems. case_bool_decide; cbn.
    + rewrite lookup_insert_eq. cbn. by apply zero_window_inside.
    + done.
  - unfold payload_elems. case_bool_decide; cbn; [|done].
    rewrite lookup_insert_eq, Hst. cbn.
    split; [by apply zero_window_before | by apply zero_window_after].
  - intros Hne. by rewrite bool_decide_eq_false_2.
  - by case_bool_decide.
Qed.

Lemma access_run s param p a access_type dev info s1 c sid st :
  params s !! param = Some p → ps_attr p = Some a → param_type a = CHUNK_BASED →
  tensor_id_to_info_map (index s) !! tensor_id_of a access_type = Some info →
  numel info = ps_numel a →
  access_chunk (Some (info_chunk_id info)) dev s = Ok tt s1 →
  chunks s1 !! info_chunk_id info = Some c → payload c = Some sid →
  heap s1 !! sid = Some st →
  start_offset info + numel info ≤ length (st_data st) →
  access param access_type dev s
  = Ok (Some (Narrow sid (start_offset info) (numel info)))
       (after_compute s1 param p a access_type sid st (start_offset info) (numel info)).
Proof.
  intros Hp Ha Ht Hinfo Hnumel Hres Hc Hpl Hst Hlen. unfold access.
  stable_fact (keeps params) Hres ltac:(apply access_chunk_keeps_params) Hparams.
  stable_fact (keeps chunk_tensor_index) Hres ltac:(apply access_chunk_keeps_index) Hidx.
  unfold keeps in *.
  mstep. erewrite attr_at_lookup by done. mstep. mstep.
  rewrite bool_decide_eq_false_2 by (rewrite Ht; done).
  mstep. unfold chunk_of. rewrite Hinfo. cbn [fmap option_fmap option_map].
  rewrite bool_decide_eq_false_2 by done.
  rewrite (bind_run _ _ _ _ _ Hres).
  apply (locate_and_compute_run s1 param p a access_type _ c sid st info); try done.
  - by rewrite Hparams.
  - unfold index. by rewrite Hidx.
Qed.

Lemma payload_device_run s sid st :
  heap s !! sid = Some st → payload_device (Some sid) s = Ok (st_device st) s.
Proof. intros Hst. unfold payload_device. mstep. mstep. by rewrite Hst. Qed.

Lemma access_dist_rest_run s param p a access_type dev info s1 c sid st :
  params s !! param = Some p → ps_attr p = Some a →
  tensor_id_to_info_map (index s) !! tensor_id_of a access_type = Some info →
  numel info = ps_numel a →
  access_chunk (Some (info_chunk_id info)) dev s = Ok tt s1 →
  chunks s1 !! info_chunk_id info = Some c → payload c = Some sid →
  heap s1 !! sid = Some st →
  start_offset info + numel info ≤ length (st_data st) →
  access_dist_rest param access_type dev (Some (info_chunk_id info)) s
  = Ok (Some (Narrow sid (start_offset info) (numel info)))
       (after_compute s1 param p a access_type sid st (start_offset info) (numel info)).
Proof.
  intros Hp Ha Hinfo Hnumel Hres Hc Hpl Hst Hlen. unfold access_dist_rest.
  stable_fact (keeps params) Hres ltac:(apply access_chunk_keeps_params) Hparams.
  stable_fact (keeps chunk_tensor_index) Hres ltac:(apply access_chunk_keeps_index) Hidx.
  unfold keeps in *.
  assert (Hdev : st_device st = dev).
  { apply access_chunk_ok in Hres as (c' & sid' & st' & Hc' & Hpl' & Hst' & Hdev).
    by simplify_eq. }
  rewrite (bind_run _ _ _ _ _ Hres). mstep. rewrite Hpl. mstep.
  rewrite (bind_run _ _ _ _ _ (payload_device_run _ _ _ Hst)). mstep.
  apply (locate_and_compute_run s1 param p a access_type _ c sid st info); try done.
  - by rewrite Hparams.
  - unfold index. by rewrite Hidx.
Qed.

Lemma access_dist_single s param a access_type dev :
  attr_at s param = Some a → param_type a = CHUNK_BASED →
  world_size (env s) ≤ 1 →
  access_dist param access_type dev s
  = access_dist_rest param access_type dev (chunk_of s a access_type) s.
Proof.
  intros Hattr Ht Hws. unfold access_dist.
  mstep. rewrite Hattr. mstep. mstep.
  rewrite bool_decide_eq_false_2 by (rewrite Ht; done).
  mstep. unfold get_rank, get_world_size. mstep. mstep.
  rewrite bool_decide_eq_false_2 by lia. mstep. reflexivity.
Qed.

Lemma group_step_keeps_index l local dev :
  stable (keeps chunk_tensor_index) (group_step l local dev).
Proof. stable_by ltac:(exact eq_refl). Qed.

Lemma group_step_keeps_env l local dev : stable (keeps env) (group_step l local dev).
Proof. stable_by ltac:(exact eq_refl). Qed.

(** Without a gather the group step leaves the parameters alone. *)
Lemma group_step_quiet_params l local dev s u sg :
  released_in (fetch_time_state s local dev) l = false →
  group_step l local dev s = Ok u sg →
  params sg = params s.
Proof.
  intros Hrel Hgroup. unfold group_step in Hgroup.
  apply bind_ok_inv in Hgroup as (u1 & s1 & Hrun1 & Hgroup).
  apply bind_ok_inv in Hgroup as (u2 & s2 & Hrun2 & Hgroup).
  apply bind_ok_inv in Hgroup as (u3 & s3 & Hrun3 & Hrun4).
  rewrite (fetch_time_state_run _ _ _ _ _ _ _ Hrun1 Hrun2) in Hrel.
  destruct (fetch_quiet l local dev s2 Hrel) as [Hst _].
  rewrite Hrun3 in Hst. cbn in Hst. subst s3.
  stable_fact (keeps params) Hrun1 ltac:(stable_by ltac:(exact eq_refl)) H1.
  stable_fact (keeps params) Hrun2 ltac:(stable_by ltac:(exact eq_refl)) H2.
  stable_fact (keeps params) Hrun4 ltac:(stable_by ltac:(exact eq_refl)) H4.
  unfold keeps in *. congruence.
Qed.

(** *** A gather marks the whole group [HOLD] *)

(** The status slot of a tensor. *)
Definition status_at (s : St) (param : param_id) (access_type : AccessType)
    : option TensorStatus :=
  a ← attr_at s param; Some (status_of a access_type).

(** A tensor that is at status [st] stays there. *)
Definition stays_at (st : TensorStatus) (param : param_id) (access_type : AccessType)
    : relation St :=
  fun s s' => status_at s param access_type = Some st →
              status_at s' param access_type = Some st.

#[local] Instance stays_at_preorder st param access_type :
  PreOrder (stays_at st param access_type).
Proof. split; [intros s H; exact H | intros s1 s2 s3 H1 H2 H; by apply H2, H1]. Qed.

Lemma set_status_spec s param st access_type u s' :
  set_status param st access_type s = Ok u s' →
  ∃ p a, params s !! param = Some p ∧ ps_attr p = Some a
         ∧ s' = with_params (insert param (with_attr (attr_set_status a st access_type) p)) s.
Proof.
  unfold set_status, put_ps_attr, get_param. intros H. minv H.
  lazymatch goal with Ha : attr_at _ _ = Some ?a, Hp : params _ !! _ = Some ?p |- _ =>
    exists p, a; split; [done|];
    unfold attr_at in Ha; rewrite Hp in Ha; cbn in Ha; by split end.
Qed.

Lemma set_status_raise_state s param st access_type e s' :
  set_status param st access_type s = Raise e s' → s' = s.
Proof.
  unfold set_status, put_ps_attr, get_ps_attr, get_param. cbn.
  destruct (params s !! param) as [p|] eqn:Hp; cbn; [|by intros; simplify_eq].
  destruct (ps_attr p); cbn; [|by intros; simplify_eq].
  rewrite Hp. cbn. done.
Qed.

Lemma status_at_set_status_eq s param p a st access_type :
  status_at (with_params (insert param (with_attr (attr_set_status a st access_type) p)) s)
    param access_type = Some st.
Proof.
  unfold status_at. rewrite attr_at_insert_eq. cbn. by rewrite status_of_set_status.
Qed.

Lemma set_status_stays st param access_type q k :
  stable (stays_at st param access_type) (set_status q st k).
Proof.
  intros s Hs. destruct (set_status q st k s) as [u s'|e s'] eqn:Hrun; cbn.
  - apply set_status_spec in Hrun as (p & a & Hp & Ha & ->).
    destruct (decide (q = param)) as [->|Hne].
    + destruct (decide (k = access_type)) as [->|Hk].
      * apply status_at_set_status_eq.
      * unfold status_at in *. rewrite attr_at_insert_eq. cbn.
        rewrite status_of_set_status_ne by done.
        erewrite attr_at_lookup in Hs by done. exact Hs.
    + unfold status_at in *. by rewrite attr_at_insert_ne.
  - apply set_status_raise_state in Hrun as ->. exact Hs.
Qed.

Lemma stays_at_same st param access_type s s' :
  params s' = params s → stays_at st param access_type s s'.
Proof. intros H. unfold stays_at, status_at, attr_at. by rewrite H. Qed.

Ltac stays_leaf :=
  first [ apply set_status_stays
        | apply stable_modify; intros ?; apply stays_at_same; exact eq_refl
        | apply stable_has_released_chunk; tc_solve
        | apply stable_make_room; [tc_solve | intros ? ?];
          stable_by ltac:(apply stays_at_same; exact eq_refl) ].

Lemma set_all_hold_stays param access_type i :
  stable (stays_at HOLD param access_type) (set_all_tensors_status_in_chunk i HOLD).
Proof. stable_go ltac:(stays_leaf). Qed.

(** Every tensor mapped into the chunk is at [st]. *)
Definition chunk_all_at (st : TensorStatus) (i : chunk_id) (s : St) : Prop :=
  ∀ info, info ∈ tensor_info_in_order (index s) i →
          status_at s (info_param info) (info_access_type info) = Some st.

Lemma set_all_tensors_status_ok i st s u s' :
  set_all_tensors_status_in_chunk i st s = Ok u s' → chunk_all_at st i s'.
Proof.
  unfold set_all_tensors_status_in_chunk. intros H.
  apply bind_ok_inv in H as (infos & s1 & Hinfos & H).
  unfold generate_tensor_info_in_order in Hinfos. minv Hinfos.
  assert (Hidx : chunk_tensor_index s' = chunk_tensor_index s).
  { stable_fact (keeps chunk_tensor_index) H ltac:(stable_by ltac:(exact eq_refl)) Hk.
    exact Hk. }
  intros info Hin. unfold index in Hin. rewrite Hidx in Hin. revert info Hin.
  apply Forall_forall.
  eapply (for_each_ok_forall
            (fun info s => status_at s (info_param info) (info_access_type info) = Some st));
    [exact H | |].
  - intros info sa y sb Hbody.
    apply bind_ok_inv in Hbody as (old & sc & _ & Hbody).
    apply bind_ok_inv in Hbody as ([] & sd & _ & Hbody).
    apply set_status_spec in Hbody as (p & a & _ & _ & ->).
    apply status_at_set_status_eq.
  - intros info z sa y sb Hinfo Hbody.
    assert (Hst : stable (stays_at st (info_param info) (info_access_type info))
                    (old_status <- get_status (info_param z) (info_access_type z) ;;
                     update_status (Some i) old_status st ;;
                     set_status (info_param z) st (info_access_type z)))
      by stable_go ltac:(stays_leaf).
    specialize (Hst sa). rewrite Hbody in Hst. by apply Hst.
Qed.

Lemma chunk_all_at_same st i s s' :
  params s' = params s → chunk_tensor_index s' = chunk_tensor_index s →
  chunk_all_at st i s → chunk_all_at st i s'.
Proof.
  intros Hp Hi H info Hin. unfold index, status_at, attr_at in *.
  rewrite Hp. rewrite Hi in Hin. by apply H.
Qed.

Lemma all_gather_keeps_params buff pl : stable (keeps params) (all_gather buff pl).
Proof. stable_by ltac:(exact eq_refl). Qed.

Lemma all_gather_keeps_index buff pl :
  stable (keeps chunk_tensor_index) (all_gather buff pl).
Proof. stable_by ltac:(exact eq_refl). Qed.

Lemma unpin_keeps_params i : stable (keeps params) (unpin i).
Proof. stable_by ltac:(exact eq_refl). Qed.

Lemma unpin_keeps_index i : stable (keeps chunk_tensor_index) (unpin i).
Proof. stable_by ltac:(exact eq_refl). Qed.

Lemma fetch_gather_marks_hold l local dev s u s' :
  _fetch_remote_chunks l local dev s = Ok u s' →
  released_in s l = true →
  Forall (fun i => chunk_all_at HOLD i s') l.
Proof.
  unfold _fetch_remote_chunks. intros H Hrel.
  apply bind_ok_inv in H as (b & s0 & Hh & H).
  apply has_released_chunk_ok in Hh as (-> & -> & _). rewrite Hrel in H. cbn [negb] in H.
  apply bind_ok_inv in H as (buff & s1 & Hloop & H).
  apply bind_ok_inv in H as (first_payload & sx & Hfirst & H). minv Hfirst.
  apply bind_ok_inv in H as (first_sid & sx & Hsid & H). minv Hsid.
  apply bind_ok_inv in H as ([] & s2 & Hunpin & H).
  assert (Hp : params s' = params s1 ∧ chunk_tensor_index s' = chunk_tensor_index s1).
  { stable_fact (keeps params) Hunpin ltac:(stable_by ltac:(exact eq_refl)) Hp1.
    stable_fact (keeps chunk_tensor_index) Hunpin ltac:(stable_by ltac:(exact eq_refl)) Hi1.
    stable_fact (keeps params) H ltac:(stable_by ltac:(exact eq_refl)) Hp2.
    stable_fact (keeps chunk_tensor_index) H ltac:(stable_by ltac:(exact eq_refl)) Hi2.
    unfold keeps in *. split; congruence. }
  destruct Hp as [Hp Hi].
  apply (Forall_impl (fun i => chunk_all_at HOLD i s1));
    [|intros i Hi'; by apply (chunk_all_at_same _ _ s1)].
  eapply (for_collect_ok_forall (fun i st => chunk_all_at HOLD i st)); [exact Hloop | |].
  - intros i sa y sb Hbody.
    apply bind_ok_inv in Hbody as ([] & sc & _ & Hbody).
    apply bind_ok_inv in Hbody as ([] & sd & Hset & Hbody). minv Hbody.
    by eapply set_all_tensors_status_ok.
  - intros i z sa y sb Hi' Hbody info Hin.
    stable_fact (stays_at HOLD (info_param info) (info_access_type info)) Hbody
      ltac:(stable_go ltac:(stays_leaf)) Hst.
    stable_fact (keeps chunk_tensor_index) Hbody ltac:(stable_by ltac:(exact eq_refl)) Hidx.
    unfold keeps in Hidx. apply Hst. apply Hi'.
    unfold index in *. by rewrite <- Hidx.
Qed.

(** After a group step that gathered, the tensors of the group's chunks
    are at [HOLD]. *)
Lemma group_step_gather_marks_hold l local dev s u sg :
  group_step l local dev s = Ok u sg →
  released_in (fetch_time_state s local dev) l = true →
  Forall (fun i => chunk_all_at HOLD i sg) l.
Proof.
  intros Hgroup Hrel. unfold group_step in Hgroup.
  apply bind_ok_inv in Hgroup as (u1 & s1 & Hrun1 & Hgroup).
  apply bind_ok_inv in Hgroup as (u2 & s2 & Hrun2 & Hgroup).
  apply bind_ok_inv in Hgroup as (u3 & s3 & Hrun3 & Hrun4).
  rewrite (fetch_time_state_run _ _ _ _ _ _ _ Hrun1 Hrun2) in Hrel.
  stable_fact (keeps params) Hrun4 ltac:(apply unpin_keeps_params) Hp.
  stable_fact (keeps chunk_tensor_index) Hrun4 ltac:(apply unpin_keeps_index) Hi.
  apply (Forall_impl (fun i => chunk_all_at HOLD i s3));
    [by eapply fetch_gather_marks_hold|].
  intros i Hi'. by apply (chunk_all_at_same _ _ s3).
Qed.

(** *** The group step changes status slots only *)

(** Two attribute records that differ in status slots at most. *)
Definition same_but_status (a a' : PSParameter) : Prop :=
  ps_numel a' = ps_numel a ∧ ps_data_type a' = ps_data_type a
  ∧ param_type a' = param_type a
  ∧ data_id a' = data_id a ∧ grad_id a' = grad_id a
  ∧ data_tensor a' = data_tensor a ∧ grad_tensor a' = grad_tensor a.

Definition slots_only : relation St :=
  fun s s' => ∀ param p a,
    params s !! param = Some p → ps_attr p = Some a →
    ∃ a', params s' !! param = Some (with_attr a' p) ∧ same_but_status a a'.

Lemma same_but_status_refl a : same_but_status a a.
Proof. by repeat split. Qed.

Lemma same_but_status_trans a1 a2 a3 :
  same_but_status a1 a2 → same_but_status a2 a3 → same_but_status a1 a3.
Proof. unfold same_but_status. intros ? ?. split_and!; destruct_and!; congruence. Qed.

Lemma with_attr_id p a : ps_attr p = Some a → with_attr a p = p.
Proof. destruct p. cbn. by intros ->. Qed.

#[local] Instance slots_only_preorder : PreOrder slots_only.
Proof.
  split.
  - intros s param p a Hp Ha. exists a. rewrite (with_attr_id _ _ Ha).
    split; [done | apply same_but_status_refl].
  - intros s1 s2 s3 H1 H2 param p a Hp Ha.
    destruct (H1 _ _ _ Hp Ha) as (a2 & Hp2 & Hs2).
    destruct (H2 _ _ _ Hp2 eq_refl) as (a3 & Hp3 & Hs3).
    exists a3. split; [done | by eapply same_but_status_trans].
Qed.

Lemma slots_only_same s s' : params s' = params s → slots_only s s'.
Proof. intros H. unfold slots_only. rewrite H. apply slots_only_preorder. Qed.

Lemma set_status_slots_only param st access_type :
  stable slots_only (set_status param st access_type).
Proof.
  intros s. destruct (set_status param st access_type s) as [u s'|e s'] eqn:Hrun; cbn.
  - apply set_status_spec in Hrun as (p & a & Hp & Ha & ->).
    intros q pq aq Hq Haq. destruct (decide (param = q)) as [->|Hne].
    + simplify_eq. eexists. rewrite params_insert_eq. split; [done|].
      by destruct access_type.
    + rewrite params_insert_ne by done. exists aq.
      rewrite (with_attr_id _ _ Haq). split; [done | apply same_but_status_refl].
  - apply set_status_raise_state in Hrun as ->. reflexivity.
Qed.

Ltac slots_leaf :=
  first [ apply set_status_slots_only
        | apply stable_modify; intros ?; apply slots_only_same; exact eq_refl
        | apply stable_has_released_chunk; tc_solve
        | apply stable_make_room; [tc_solve | intros ? ?];
          stable_by ltac:(apply slots_only_same; exact eq_refl) ].

Lemma group_step_slots_only l local dev : stable slots_only (group_step l local dev).
Proof. stable_go ltac:(slots_leaf). Qed.

(** C4 as the code has it.  For a registered chunk-based tensor with
    registration record [info], once its chunk has become resident on the
    device with the window inside its storage:
    - [access] returns the window [(start_offset, numel)] of the chunk's
      payload, leaves the tensor at [COMPUTE], and has zero-filled the window
      if and only if the tensor was [FREE] at the call; otherwise the storage
      is as residency left it ([first_touch]), and residency keeps the
      elements of a payload that existed;
    - [access_dist] with one process does the same;
    - [access_dist] with several processes does the same with the status the
      tensor has after the group step, in the state [sg]: that is the status
      at the call if nothing was gathered; after a gather the tensors mapped
      into the group's chunks are at [HOLD], so nothing is zero-filled. *)
Theorem zero_fill_on_first_touch s param p a access_type dev info :
  params s !! param = Some p → ps_attr p = Some a → param_type a = CHUNK_BASED →
  tensor_id_to_info_map (index s) !! tensor_id_of a access_type = Some info →
  numel info = ps_numel a →
  let cid := info_chunk_id info in
  let start := start_offset info in
  let len := numel info in
  (∀ s1 c sid st,
     access_chunk (Some cid) dev s = Ok tt s1 →
     chunks s1 !! cid = Some c → payload c = Some sid → heap s1 !! sid = Some st →
     start + len ≤ length (st_data st) →
     ∃ s', access param access_type dev s = Ok (Some (Narrow sid start len)) s'
           ∧ first_touch s1 s' param a access_type sid start len
           ∧ (∀ d, chunk_elems s cid = Some d → payload_elems s1 sid = d)
           ∧ (world_size (env s) ≤ 1 →
              access_dist param access_type dev s = Ok (Some (Narrow sid start len)) s'))
  ∧ (1 < world_size (env s) →
     ∀ l local sg s1 c sid st,
       comm_group_of (index s) cid = Some l → l !! rank (env s) = Some local →
       group_step l local dev s = Ok tt sg →
       access_chunk (Some cid) dev sg = Ok tt s1 →
       chunks s1 !! cid = Some c → payload c = Some sid → heap s1 !! sid = Some st →
       start + len ≤ length (st_data st) →
       ∃ ag s',
         attr_at sg param = Some ag
         ∧ access_dist param access_type dev s = Ok (Some (Narrow sid start len)) s'
         ∧ first_touch s1 s' param ag access_type sid start len
         ∧ (released_in (fetch_time_state s local dev) l = false → ag = a)
         ∧ (released_in (fetch_time_state s local dev) l = true →
            cid ∈ l → info ∈ tensor_info_in_order (index s) cid →
            info_param info = param → info_access_type info = access_type →
            status_of ag access_type = HOLD)).
Proof.
  intros Hp Ha Ht Hinfo Hnumel cid start len.
  pose proof (attr_at_lookup _ _ _ _ Hp Ha) as Hattr.
  split.
  - intros s1 c sid st Hres Hc Hpl Hst Hlen. eexists. split_and!.
    + by eapply access_run.
    + apply after_compute_first_touch; done.
    + intros d Hd.
      stable_fact elems_kept Hres ltac:(apply access_chunk_elems_kept) Hkept.
      apply Hkept in Hd. erewrite chunk_elems_intro in Hd by done.
      unfold payload_elems. rewrite Hst. by simplify_eq.
    + intros Hws. rewrite (access_dist_single _ _ a) by done.
      unfold chunk_of. rewrite Hinfo. cbn [fmap option_fmap option_map].
      by eapply access_dist_rest_run.
  - intros Hws l local sg s1 c sid st Hg Hl Hgroup Hres Hc Hpl Hst Hlen.
    assert (Htarget : dist_target s param access_type cid l local).
    { split; [|done..]. exists a. split_and!; [done..|]. unfold chunk_of. by rewrite Hinfo. }
    stable_fact slots_only Hgroup ltac:(apply group_step_slots_only) Hslots.
    stable_fact (keeps chunk_tensor_index) Hgroup ltac:(apply group_step_keeps_index) Hidx.
    unfold keeps in Hidx.
    destruct (Hslots _ _ _ Hp Ha) as (ag & Hpg & Hsame).
    destruct Hsame as (Hn & _ & _ & Hdid & Hgid & _).
    assert (Hid : tensor_id_of ag access_type = tensor_id_of a access_type)
      by by destruct access_type.
    exists ag. eexists. split_and!.
    + by erewrite attr_at_lookup.
    + rewrite (access_dist_parts _ _ _ _ _ _ _ Htarget Hws).
      rewrite (bind_run _ _ _ _ _ Hgroup).
      eapply (access_dist_rest_run sg param _ ag); try done.
      * unfold index. by rewrite Hidx, Hid.
      * by rewrite Hn.
    + apply after_compute_first_touch; done.
    + intros Hrel. pose proof (group_step_quiet_params _ _ _ _ _ _ Hrel Hgroup) as Hparams.
      rewrite Hparams, Hp in Hpg. injection Hpg as Hpg.
      assert (Hag : ps_attr p = Some ag) by (by rewrite Hpg).
      congruence.
    + intros Hrel Hin Hlisted Hparam Hat.
      pose proof (group_step_gather_marks_hold _ _ _ _ _ _ Hgroup Hrel) as Hall.
      rewrite Forall_forall in Hall. specialize (Hall _ Hin info).
      unfold index in Hall. rewrite Hidx in Hall. specialize (Hall Hlisted).
      rewrite Hparam, Hat in Hall. unfold status_at in Hall.
      erewrite attr_at_lookup in Hall by done. cbn in Hall. by simplify_eq.
Qed.

(** ** One process: the distributed entry points are the local ones (C5) *)

Lemma access_parts s param a access_type dev cid :
  attr_at s param = Some a → param_type a = CHUNK_BASED →
  chunk_of s a access_type = Some cid →
  access param access_type dev s
  = (access_chunk (Some cid) dev ;; locate_and_compute param access_type (Some cid)) s.
Proof.
  intros Hattr Ht Hc. unfold access.
  mstep. rewrite Hattr. mstep. mstep.
  rewrite bool_decide_eq_false_2 by (rewrite Ht; done).
  mstep. rewrite Hc. rewrite bool_decide_eq_false_2 by done. reflexivity.
Qed.

(** The two assertions of [access_dist] after [access_chunk] never fail. *)
Lemma access_dist_rest_eq s param access_type dev cid :
  access_dist_rest param access_type dev (Some cid) s
  = (access_chunk (Some cid) dev ;; locate_and_compute param access_type (Some cid)) s.
Proof.
  unfold access_dist_rest.
  destruct (access_chunk (Some cid) dev s) as [[] s1|e s1] eqn:Hres.
  - rewrite !(bind_run _ _ _ _ _ Hres).
    apply access_chunk_ok in Hres as (c & sid & st & Hc & Hpl & Hst & Hdev).
    mstep. rewrite Hpl. mstep.
    rewrite (bind_run _ _ _ _ _ (payload_device_run _ _ _ Hst)). by mstep.
  - by rewrite !(bind_raise _ _ _ _ _ Hres).
Qed.

Lemma access_emits param access_type dev cid s a :
  attr_at s param = Some a → param_type a = CHUNK_BASED →
  chunk_of s a access_type = Some cid →
  emits (fun ev => is_move ev ∨ ∃ d, ev = EvAllocatePayload cid d) s
        (out_state (access param access_type dev s)).
Proof.
  intros Hattr Ht Hc. rewrite (access_parts _ _ a _ _ cid) by done.
  apply related_bind; [tc_solve | apply access_chunk_emits |].
  intros _ s1 _. eapply emits_weaken; [|apply (stable_out (emits (fun _ => False)))].
  { by intros ev []. }
  apply locate_and_compute_silent.
Qed.

(** A command followed by something that does nothing. *)
Lemma bind_trailing (m : Cmd unit) (k : unit → Cmd unit) s :
  (∀ s', m s = Ok tt s' → k tt s' = Ok tt s') → bind m k s = m s.
Proof. intros Hk. cbn. destruct (m s) as [[] s'|e s'] eqn:Hm; [by apply Hk | done]. Qed.

Lemma release_keeps_env param access_type st :
  stable (keeps env) (release param access_type st).
Proof. stable_by ltac:(exact eq_refl). Qed.

Lemma release_keeps_trace param access_type st :
  stable (keeps trace) (release param access_type st).
Proof. stable_by ltac:(exact eq_refl). Qed.

Lemma release_keeps_chunk_list param access_type st :
  stable (keeps chunk_list) (release param access_type st).
Proof. stable_by ltac:(exact eq_refl). Qed.

Lemma release_keeps_heap param access_type st :
  stable (keeps heap) (release param access_type st).
Proof. stable_by ltac:(exact eq_refl). Qed.

(** What [release] and [release_dist] share: the status transition and the
    detachment of the view. *)
Definition transition_and_detach (param : param_id) (access_type : AccessType)
    (chunk_id : option chunk_id) (reset_to_status : TensorStatus) : Cmd unit :=
  old_status <- get_status param access_type ;;
  update_status chunk_id old_status reset_to_status ;;
  set_status param reset_to_status access_type ;;
  match access_type with
  | DATA =>
      a <- get_ps_attr param ;;
      dev <- param_device param ;;
      set_param_data param (EmptyTensor (ps_data_type a) dev)
  | GRAD => set_param_grad param None
  end.

Lemma release_parts s param a access_type st :
  attr_at s param = Some a → param_type a = CHUNK_BASED →
  release param access_type st s
  = transition_and_detach param access_type (chunk_of s a access_type) st s.
Proof.
  intros Hattr Ht. unfold release.
  mstep. rewrite bool_decide_eq_false_2 by (rewrite Ht; done).
  mstep. reflexivity.
Qed.

Lemma transition_and_detach_keeps_env param access_type c st :
  stable (keeps env) (transition_and_detach param access_type c st).
Proof. stable_by ltac:(exact eq_refl). Qed.

(** What [release_dist] does after the transition: the collapse of the
    group once every chunk is ready. *)
Definition collapse_step (training_stage : TrainingStage) (is_allreduce : bool)
    (chunk_id_list : list chunk_id) (local_chunk_id : chunk_id) : Cmd unit :=
  world_size <- get_world_size ;;
  if bool_decide (1 < world_size) then
    all_chunks_ready <- for_fold chunk_id_list true (fun ready i =>
      not_ready <- chunk_not_ready training_stage i ;;
      ret (if not_ready then false else ready)) ;;
    if all_chunks_ready : bool then
      (if is_allreduce then
         local_chunk <- get_chunk (Some local_chunk_id) ;;
         assert_ (bool_decide (is_Some (payload local_chunk))) ;;
         cuda <- gets (fun s => CUDA (local_rank s)) ;;
         input_list <- for_collect chunk_id_list (fun i =>
           access_chunk (Some i) cuda ;;
           pin i ;;
           c <- get_chunk (Some i) ;;
           ret (payload c)) ;;
         local_chunk <- get_chunk (Some local_chunk_id) ;;
         reduce_scatter (payload local_chunk) input_list ;;
         local_chunk <- get_chunk (Some local_chunk_id) ;;
         div_payload (payload local_chunk) world_size
       else ret tt) ;;
      for_each chunk_id_list (fun i =>
        unpin i ;;
        if bool_decide (i ≠ local_chunk_id) then
          release_payload i ;;
          set_all_tensors_status_in_chunk i FREE
        else ret tt)
    else ret tt
  else ret tt.

Lemma bind_ext {A B} (m : Cmd A) (k k' : A → Cmd B) s :
  (∀ a s1, m s = Ok a s1 → k a s1 = k' a s1) → bind m k s = bind m k' s.
Proof. intros H. cbn. destruct (m s) as [a s1|e s1]; [by apply H | done]. Qed.

(** A chunk-based parameter whose tensor's chunk sits in a communication
    group that has an entry for this rank. *)
Lemma release_dist_parts s param a access_type st stage reduce cid l local :
  attr_at s param = Some a → param_type a = CHUNK_BASED →
  chunk_of s a access_type = Some cid →
  dist_initialized (env s) = true →
  stage = FWD ∨ stage = BWD →
  comm_group_of (index s) cid = Some l → l !! rank (env s) = Some local →
  release_dist param access_type st stage reduce s
  = (transition_and_detach param access_type (Some cid) st ;;
     collapse_step stage reduce l local) s.
Proof.
  intros Hattr Ht Hc Hinit Hstage Hg Hl. unfold release_dist.
  mstep. rewrite bool_decide_eq_false_2 by (rewrite Ht; done).
  unfold get_rank. mstep.
  assert (Hst : bool_decide (stage = FWD) || bool_decide (stage = BWD) = true)
    by (destruct Hstage as [-> | ->]; done).
  rewrite Hst. mstep.
  unfold is_initialized. mstep. rewrite Hinit. mstep.
  mstep. rewrite Hc. mstep. rewrite Hl. mstep.
  unfold transition_and_detach.
  rewrite bind_assoc. apply bind_ext. intros old s1 _.
  rewrite bind_assoc. apply bind_ext. intros [] s2 _.
  rewrite bind_assoc. apply bind_ext. intros [] s3 _.
  reflexivity.
Qed.

Lemma collapse_step_single stage reduce l local s :
  world_size (env s) ≤ 1 → collapse_step stage reduce l local s = Ok tt s.
Proof.
  intros Hws. unfold collapse_step, get_world_size. mstep.
  by rewrite bool_decide_eq_false_2 by lia.
Qed.

Lemma release_dist_single s param a access_type st stage reduce cid l local :
  attr_at s param = Some a → param_type a = CHUNK_BASED →
  chunk_of s a access_type = Some cid →
  world_size (env s) ≤ 1 → dist_initialized (env s) = true →
  stage = FWD ∨ stage = BWD →
  comm_group_of (index s) cid = Some l → l !! rank (env s) = Some local →
  release_dist param access_type st stage reduce s = release param access_type st s.
Proof.
  intros Hattr Ht Hc Hws Hinit Hstage Hg Hl.
  rewrite (release_parts _ _ a) by done. rewrite Hc.
  rewrite (release_dist_parts _ _ a _ _ _ _ cid l local) by done.
  apply bind_trailing. intros s' Hrun.
  stable_fact (keeps env) Hrun ltac:(apply transition_and_detach_keeps_env) Henv.
  apply collapse_step_single. by rewrite Henv.
Qed.

(** C5 as the code has it, for a registered chunk-based tensor with chunk
    [cid] and one process.
    - [access_dist] is [access]: the same outcome, tensor and state; the only
      calls made are those of residency for the tensor's chunk, a move or the
      allocation of its storage: no collective, no pin, no release.
    - [release_dist] is [release] provided that the process group is
      initialised, the stage is [FWD] or [BWD], and the chunk sits in a
      communication group with an entry for this rank; then no call at all is
      made, and directory and storages are as before. *)
Theorem single_process_is_local s param a access_type cid :
  attr_at s param = Some a → param_type a = CHUNK_BASED →
  chunk_of s a access_type = Some cid →
  world_size (env s) = 1 →
  (∀ dev,
     access_dist param access_type dev s = access param access_type dev s
     ∧ Forall (fun ev => is_move ev ∨ ∃ d, ev = EvAllocatePayload cid d)
         (new_events s (out_state (access_dist param access_type dev s))))
  ∧ (∀ st stage reduce l local,
       dist_initialized (env s) = true → stage = FWD ∨ stage = BWD →
       comm_group_of (index s) cid = Some l → l !! rank (env s) = Some local →
       release_dist param access_type st stage reduce s = release param access_type st s
       ∧ trace (out_state (release_dist param access_type st stage reduce s)) = trace s
       ∧ chunk_list (out_state (release_dist param access_type st stage reduce s))
         = chunk_list s
       ∧ heap (out_state (release_dist param access_type st stage reduce s)) = heap s).
Proof.
  intros Hattr Ht Hc Hws. split.
  - intros dev.
    assert (Heq : access_dist param access_type dev s = access param access_type dev s).
    { rewrite (access_dist_single _ _ a) by (done || lia). rewrite Hc.
      rewrite access_dist_rest_eq. by rewrite (access_parts _ _ a _ _ cid). }
    split; [done|]. rewrite Heq. apply emits_new_events. by eapply access_emits.
  - intros st stage reduce l local Hinit Hstage Hg Hl.
    rewrite (release_dist_single _ _ a _ _ _ _ cid l local) by (done || lia).
    split_and!; [done | apply release_keeps_trace | apply release_keeps_chunk_list
                | apply release_keeps_heap].
Qed.

(** ** Pins around the gather (C3) *)

Definition is_residency (ev : Event) : Prop :=
  is_move ev ∨ ∃ i d, ev = EvAllocatePayload i d.

Definition is_pin (ev : Event) : bool :=
  match ev with EvPin _ => true | _ => false end.

Lemma pin_ok i s u s' : pin i s = Ok u s' → trace s' = trace s ++ [EvPin i].
Proof. unfold pin. intros H. by minv H. Qed.

Lemma unpin_ok i s u s' : unpin i s = Ok u s' → trace s' = trace s ++ [EvUnpin i].
Proof. unfold unpin. intros H. by minv H. Qed.

Lemma for_each_unpin_ok l s u s' :
  for_each l (fun i => unpin i) s = Ok u s' → trace s' = trace s ++ (EvUnpin <$> l).
Proof.
  revert s. induction l as [|i l IH]; intros s H; cbn [for_each] in H.
  - minv H. by rewrite app_nil_r.
  - apply bind_ok_inv in H as ([] & s1 & Hi & H).
    apply unpin_ok in Hi. apply IH in H. rewrite H, Hi. by rewrite <- (assoc_L (++)).
Qed.

(** The events of the preparation loop of [_fetch_remote_chunks]: residency
    events and pins of remote chunks, with a pin for every remote chunk. *)
Lemma fetch_loop_events l local dev s buff s' :
  for_collect l (fun chunk_id =>
      (if bool_decide (chunk_id ≠ local) then
         c <- get_chunk (Some chunk_id) ;;
         prepare_device dev (get_chunk_space c) ;;
         allocate_payload chunk_id dev ;;
         pin chunk_id
       else ret tt) ;;
      set_all_tensors_status_in_chunk chunk_id HOLD ;;
      c <- get_chunk (Some chunk_id) ;;
      ret (payload c)) s = Ok buff s' →
  ∃ t, trace s' = trace s ++ t
       ∧ Forall (fun ev => is_residency ev ∨ ∃ i, ev = EvPin i ∧ i ≠ local) t
       ∧ ∀ i, i ∈ l → i ≠ local →
           ∃ ta tb d, t = ta ++ [EvAllocatePayload i d; EvPin i] ++ tb.
Proof.
  revert s buff. induction l as [|x l IH]; intros s buff H; cbn [for_collect] in H.
  - minv H. exists []. rewrite app_nil_r. split_and!; [done..|]. by intros i Hi%elem_of_nil.
  - apply bind_ok_inv in H as (y & s1 & Hx & H).
    apply bind_ok_inv in H as (ys & s2 & Hl & H). minv H.
    apply IH in Hl as (tl & Htl & HFl & Hpl).
    apply bind_ok_inv in Hx as ([] & sa & Hif & Hx).
    assert (Hrest : trace s1 = trace sa).
    { stable_fact (keeps trace) Hx ltac:(stable_by ltac:(exact eq_refl)) Hk. exact Hk. }
    case_bool_decide as Hne.
    + apply bind_ok_inv in Hif as (c & sb & Hc & Hif). minv Hc.
      apply bind_ok_inv in Hif as ([] & sc & Hprep & Hif).
      apply bind_ok_inv in Hif as ([] & sd & Halloc & Hpin).
      stable_fact (emits is_move) Hprep ltac:(apply prepare_device_emits) Hm.
      destruct Hm as (tm & Htm & HFm).
      assert (Ha : trace sd = trace sc ++ [EvAllocatePayload x dev]).
      { unfold allocate_payload in Halloc. by minv Halloc. }
      apply pin_ok in Hpin.
      exists (tm ++ [EvAllocatePayload x dev; EvPin x] ++ tl). split_and!.
      * rewrite Htl, Hrest, Hpin, Ha, Htm. by rewrite <- !(assoc_L (++)).
      * apply Forall_app. split.
        { eapply Forall_impl; [exact HFm|]. intros ev Hev. left. by left. }
        apply Forall_app. split; [|done].
        apply Forall_cons_2; [left; right; by eexists _, _|].
        apply Forall_cons_2; [right; by eexists | apply Forall_nil_2].
      * intros i Hi Hil. apply elem_of_cons in Hi as [->|Hi].
        { by exists tm, tl, dev. }
        destruct (Hpl i Hi Hil) as (ta & tb & d & ->).
        exists (tm ++ [EvAllocatePayload x dev; EvPin x] ++ ta), tb, d.
        by rewrite <- !(assoc_L (++)).
    + minv Hif. exists tl. split_and!.
      * by rewrite Htl, Hrest.
      * done.
      * intros i Hi Hil. apply elem_of_cons in Hi as [->|Hi]; [|by apply Hpl].
        exfalso. apply Hil. by apply dec_stable.
Qed.

(** The shape of a gathering [_fetch_remote_chunks]: the preparation loop,
    then the unpins of every chunk of the group, and only then, in the state
    [sb] in which the tensors of the group are already at [HOLD], the
    all-gather. *)
Lemma fetch_gather_shape l local dev s u s' :
  _fetch_remote_chunks l local dev s = Ok u s' →
  released_in s l = true →
  ∃ t2 buff pl sb outputs input,
    trace sb = trace s ++ t2 ++ (EvUnpin <$> l)
    ∧ all_gather buff pl sb = Ok tt s'
    ∧ trace s' = trace sb ++ [EvAllGather outputs input]
    ∧ Forall (fun ev => is_residency ev ∨ ∃ i, ev = EvPin i ∧ i ≠ local) t2
    ∧ (∀ i, i ∈ l → i ≠ local →
         ∃ ta tb d, t2 = ta ++ [EvAllocatePayload i d; EvPin i] ++ tb)
    ∧ Forall (fun i => chunk_all_at HOLD i sb) l.
Proof.
  unfold _fetch_remote_chunks. intros H Hrel.
  apply bind_ok_inv in H as (b & s0 & Hh & H).
  apply has_released_chunk_ok in Hh as (-> & -> & _). rewrite Hrel in H. cbn [negb] in H.
  apply bind_ok_inv in H as (buff & s1 & Hloop & H).
  apply bind_ok_inv in H as (first_payload & sx & Hfirst & H). minv Hfirst.
  apply bind_ok_inv in H as (first_sid & sx & Hsid & H). minv Hsid.
  apply bind_ok_inv in H as ([] & s2 & Hunpin & H).
  apply bind_ok_inv in H as (init & s3 & Hinit & H). minv Hinit.
  apply bind_ok_inv in H as ([] & s4 & Hassert & H). minv Hassert.
  apply bind_ok_inv in H as (lc & s5 & Hlc & H). minv Hlc.
  destruct u.
  destruct (all_gather_ok _ _ _ _ _ H) as (outputs & input & Htr & _).
  destruct (fetch_loop_events _ _ _ _ _ _ Hloop) as (t2 & Ht2 & HF2 & Hp2).
  pose proof (for_each_unpin_ok _ _ _ _ Hunpin) as Hu.
  exists t2, buff, (payload lc), s2, outputs, input. split_and!; try done.
  - by rewrite Hu, Ht2, <- (assoc_L (++)).
  - assert (Hp : params s2 = params s1 ∧ chunk_tensor_index s2 = chunk_tensor_index s1).
    { stable_fact (keeps params) Hunpin ltac:(stable_by ltac:(exact eq_refl)) Hp1.
      stable_fact (keeps chunk_tensor_index) Hunpin
        ltac:(stable_by ltac:(exact eq_refl)) Hi1.
      by split. }
    destruct Hp as [Hp Hi].
    apply (Forall_impl (fun i => chunk_all_at HOLD i s1));
      [|intros i Hi'; by apply (chunk_all_at_same _ _ s1)].
    eapply (for_collect_ok_forall (fun i st => chunk_all_at HOLD i st)); [exact Hloop | |].
    + intros i sa y sb Hbody.
      apply bind_ok_inv in Hbody as ([] & sc & _ & Hbody).
      apply bind_ok_inv in Hbody as ([] & sd & Hset & Hbody). minv Hbody.
      by eapply set_all_tensors_status_ok.
    + intros i z sa y sb Hi' Hbody info Hin.
      stable_fact (stays_at HOLD (info_param info) (info_access_type info)) Hbody
        ltac:(stable_go ltac:(stays_leaf)) Hst.
      stable_fact (keeps chunk_tensor_index) Hbody
        ltac:(stable_by ltac:(exact eq_refl)) Hidx.
      unfold keeps in Hidx. apply Hst. apply Hi'.
      unfold index in *. by rewrite <- Hidx.
Qed.

Lemma access_dist_rest_residency param access_type dev c :
  stable (emits is_residency) (access_dist_rest param access_type dev c).
Proof.
  emits_by ltac:(first [left; by eexists _, _ | right; by eexists _, _]).
Qed.

Lemma is_residency_no_pin ev : is_residency ev → is_pin ev = false.
Proof. by intros [(i & d & ->)|(i & d & ->)]. Qed.


(** ** Registration: [append_tensor] (C6) *)

(** [[(param, param.ps_attr) for param in param_list]], when every parameter
    is registered. *)
Fixpoint attrs_in (s : St) (param_list : list param_id)
    : option (list (param_id * PSParameter)) :=
  match param_list with
  | [] => Some []
  | param :: rest =>
      a ← attr_at s param; r ← attrs_in s rest; Some ((param, a) :: r)
  end.

Lemma attrs_of_run s param_list items :
  attrs_in s param_list = Some items → attrs_of param_list s = Ok items s.
Proof.
  revert items. induction param_list as [|param l IH]; intros items H; cbn in H.
  - by simplify_eq.
  - destruct (attr_at s param) as [a|] eqn:Ha; [cbn in H | done].
    destruct (attrs_in s l) as [r|] eqn:Hr; [cbn in H | done]. simplify_eq.
    cbn [attrs_of]. mstep. by rewrite (bind_run _ _ _ _ _ (IH _ eq_refl)).
Qed.

(** The list fits the free space of chunk [i]. *)
Definition fits (idx : ChunkTensorIndex) (i : chunk_id)
    (items : list (param_id * PSParameter)) : Prop :=
  chunk_used idx i + total_numel items ≤ index_default_chunk_size idx.

Lemma try_insert_fits s i param_list access_type items tids :
  attrs_in s param_list = Some items →
  chunk_id_to_tensor_id_list_map (index s) !! i = Some tids →
  fits (index s) i items →
  try_insert_tensor_list i param_list access_type s
  = Ok true (with_index (register_infos i
               (layout i access_type (chunk_used (index s) i) items)) s).
Proof.
  intros Hitems Htids Hfits. unfold try_insert_tensor_list.
  rewrite (bind_run _ _ _ _ _ (attrs_of_run _ _ _ Hitems)).
  mstep. rewrite Htids. mstep. rewrite bool_decide_eq_true_2 by done. by mstep.
Qed.

Lemma try_insert_no_fit s i param_list access_type items tids :
  attrs_in s param_list = Some items →
  chunk_id_to_tensor_id_list_map (index s) !! i = Some tids →
  ¬ fits (index s) i items →
  try_insert_tensor_list i param_list access_type s = Ok false s.
Proof.
  intros Hitems Htids Hfits. unfold try_insert_tensor_list.
  rewrite (bind_run _ _ _ _ _ (attrs_of_run _ _ _ Hitems)).
  mstep. rewrite Htids. mstep. by rewrite bool_decide_eq_false_2 by done.
Qed.

(** A failed insertion leaves the state, the index included, as it was. *)
Lemma try_insert_false_no_mutation s i param_list access_type s' :
  try_insert_tensor_list i param_list access_type s = Ok false s' → s' = s.
Proof.
  unfold try_insert_tensor_list. intros H.
  apply bind_ok_inv in H as (items & s1 & Hitems & H).
  assert (s1 = s) as ->.
  { clear H. revert items s1 Hitems.
    induction param_list as [|param l IH]; intros items s1 H; cbn [attrs_of] in H.
    - by minv H.
    - apply bind_ok_inv in H as (a & s2 & Ha & H). minv Ha.
      apply bind_ok_inv in H as (r & s3 & Hr & H). minv H. by eapply IH. }
  minv H. case_bool_decide; minv_ctx; done.
Qed.

(** The state [append_chunk] leaves: a chunk without storage under the next
    id, filed under its category, its round-robin group and with no tensors. *)
Definition new_chunk_id (s : St) : chunk_id := size (chunks s).

Definition with_new_chunk (s : St) (dt : dtype) (chunk_type : ChunkType) : St :=
  out_state (append_chunk dt chunk_type false s).

Lemma append_chunk_run s dt chunk_type :
  ∃ position,
    append_chunk dt chunk_type false s
    = Ok (new_chunk_id s, position) (with_new_chunk s dt chunk_type).
Proof.
  unfold with_new_chunk, append_chunk, generate_chunk_id, new_chunk, add_chunk.
  cbn. eexists. reflexivity.
Qed.

Lemma with_new_chunk_spec s dt chunk_type :
  let s' := with_new_chunk s dt chunk_type in
  chunks s' = <[new_chunk_id s := {| capacity := default_chunk_size s; data_type := dt;
                                     is_dummy_flag := false; pin_count := 0;
                                     payload := None |}]> (chunks s)
  ∧ ids_of_type (chunk_list s') chunk_type
    = ids_of_type (chunk_list s) chunk_type ++ [new_chunk_id s]
  ∧ tensor_id_to_info_map (index s') = tensor_id_to_info_map (index s)
  ∧ chunk_id_to_tensor_id_list_map (index s')
    = <[new_chunk_id s := []]> (chunk_id_to_tensor_id_list_map (index s))
  ∧ index_default_chunk_size (index s') = index_default_chunk_size (index s)
  ∧ params s' = params s ∧ heap s' = heap s ∧ trace s' = trace s.
Proof.
  unfold with_new_chunk, append_chunk, generate_chunk_id, new_chunk, add_chunk.
  cbn. split_and!; try done.
  unfold ids_of_type. cbn. rewrite filter_app, fmap_app. f_equal.
  rewrite filter_cons_True by done. done.
Qed.

(** *** The layout of an inserted list *)

(** Records laid out back to back from [start]. *)
Fixpoint contiguous_from (start : nat) (infos : list TensorInfo) : Prop :=
  match infos with
  | [] => True
  | info :: rest =>
      start_offset info = start ∧ contiguous_from (start + numel info) rest
  end.

Lemma layout_contiguous i access_type start items :
  contiguous_from start (layout i access_type start items).
Proof.
  revert start. induction items as [|[param a] items IH]; intros start; [done|].
  cbn. split; [done | apply IH].
Qed.

Lemma layout_params i access_type start items :
  info_param <$> layout i access_type start items = fst <$> items.
Proof.
  revert start. induction items as [|[param a] items IH]; intros start; [done|].
  cbn. f_equal. apply IH.
Qed.

Lemma layout_numels i access_type start items :
  sum_list (numel <$> layout i access_type start items) = total_numel items.
Proof.
  revert start. induction items as [|[param a] items IH]; intros start; [done|].
  cbn. f_equal. apply IH.
Qed.

Lemma attrs_in_params s param_list items :
  attrs_in s param_list = Some items → fst <$> items = param_list.
Proof.
  revert items. induction param_list as [|param l IH]; intros items H; cbn in H.
  - by simplify_eq.
  - destruct (attr_at s param) as [a|]; [cbn in H | done].
    destruct (attrs_in s l) as [r|] eqn:Hr; [cbn in H | done]. simplify_eq.
    cbn. f_equal. by apply IH.
Qed.

Lemma register_infos_lookup_old infos (m : gmap tensor_id TensorInfo) tid :
  tid ∉ (info_tensor_id <$> infos) →
  foldl (fun m info => <[info_tensor_id info := info]> m) m infos !! tid = m !! tid.
Proof.
  revert m. induction infos as [|info infos IH]; intros m Hnot; [done|].
  cbn in *. apply not_elem_of_cons in Hnot as [Hne Hnot].
  rewrite IH by done. by apply lookup_insert_ne.
Qed.

Lemma register_infos_lookup_new infos (m : gmap tensor_id TensorInfo) info :
  NoDup (info_tensor_id <$> infos) → info ∈ infos →
  foldl (fun m info => <[info_tensor_id info := info]> m) m infos
    !! info_tensor_id info = Some info.
Proof.
  revert m. induction infos as [|x infos IH]; intros m Hnd Hin; [by apply elem_of_nil in Hin|].
  cbn in *. apply NoDup_cons in Hnd as [Hx Hnd].
  apply elem_of_cons in Hin as [->|Hin].
  - rewrite register_infos_lookup_old by done. apply lookup_insert_eq.
  - by apply IH.
Qed.

Lemma omap_ext_in {A B} (f g : A → option B) (l : list A) :
  (∀ x, x ∈ l → f x = g x) → omap f l = omap g l.
Proof.
  induction l as [|x l IH]; intros H; [done|]. cbn.
  rewrite (H x) by apply list_elem_of_here.
  rewrite IH; [done|]. intros y Hy. apply H. by apply list_elem_of_further.
Qed.

Lemma omap_lookup_all {A B} (f : A → option B) (g : B → A) (l : list B) :
  (∀ y, y ∈ l → f (g y) = Some y) → omap f (g <$> l) = l.
Proof.
  induction l as [|y l IH]; intros H; [done|]. cbn.
  rewrite (H y) by apply list_elem_of_here. f_equal.
  apply IH. intros z Hz. apply H. by apply list_elem_of_further.
Qed.

(** The tensors of the chunk after an insertion: those it held, then the
    inserted ones in the order of the list, provided that the inserted
    tensor ids are distinct and not among the chunk's. *)
Lemma register_infos_in_order idx i infos tids :
  NoDup (info_tensor_id <$> infos) →
  (∀ info, info ∈ infos → info_tensor_id info ∉ tids) →
  chunk_id_to_tensor_id_list_map idx !! i = Some tids →
  tensor_info_in_order (register_infos i infos idx) i
  = tensor_info_in_order idx i ++ infos.
Proof.
  intros Hnd Hnew Htids. unfold tensor_info_in_order, register_infos. cbn.
  rewrite lookup_insert_eq, Htids. cbn. rewrite omap_app. f_equal.
  - apply omap_ext_in. intros tid Htid. apply register_infos_lookup_old.
    intros (info & -> & Hin)%list_elem_of_fmap. by apply (Hnew info).
  - apply omap_lookup_all. intros info Hin. by apply register_infos_lookup_new.
Qed.

Lemma is_empty_run s chunk_type :
  is_empty chunk_type s
  = Ok (bool_decide (ids_of_type (chunk_list s) chunk_type = [])) s.
Proof. done. Qed.

Lemma last_chunk_id_run s chunk_type c :
  last (ids_of_type (chunk_list s) chunk_type) = Some c →
  last_chunk_id chunk_type s = Ok c s.
Proof. intros H. unfold last_chunk_id. mstep. by rewrite H. Qed.

Lemma chunk_used_new_chunk s dt chunk_type :
  chunk_used (index (with_new_chunk s dt chunk_type)) (new_chunk_id s) = 0.
Proof.
  unfold chunk_used, tensor_info_in_order.
  destruct (with_new_chunk_spec s dt chunk_type) as (_ & _ & _ & -> & _).
  by rewrite lookup_insert_eq.
Qed.

Lemma attrs_in_ext s s' param_list :
  params s' = params s → attrs_in s' param_list = attrs_in s param_list.
Proof.
  intros Hp. induction param_list as [|param l IH]; [done|].
  cbn. rewrite IH. unfold attr_at. by rewrite Hp.
Qed.

(** Inserting into a chunk that [append_chunk] has just made. *)
Lemma in_new_chunk_run s param_list dt access_type chunk_type items :
  attrs_in s param_list = Some items →
  index_default_chunk_size (index s) = default_chunk_size s →
  let s_new := with_new_chunk s dt chunk_type in
  let new := new_chunk_id s in
  (appended <- append_chunk dt chunk_type false ;;
   let chunk_id := appended.1 in
   inserted <- try_insert_tensor_list chunk_id param_list access_type ;;
   if negb inserted then raise RuntimeError else ret tt) s
  = if bool_decide (total_numel items ≤ default_chunk_size s)
    then Ok tt (with_index (register_infos new (layout new access_type 0 items)) s_new)
    else Raise RuntimeError s_new.
Proof.
  intros Hitems Hsize s_new new. subst s_new new.
  destruct (append_chunk_run s dt chunk_type) as (position & Hrun).
  rewrite (bind_run _ _ _ _ _ Hrun). cbn [fst]. cbv zeta.
  destruct (with_new_chunk_spec s dt chunk_type) as (_ & _ & _ & Htids & Hcap & Hp & _).
  assert (Hitems' : attrs_in (with_new_chunk s dt chunk_type) param_list = Some items).
  { by rewrite (attrs_in_ext _ _ _ Hp). }
  assert (Hused : chunk_used (index (with_new_chunk s dt chunk_type)) (new_chunk_id s) = 0) by apply chunk_used_new_chunk.
  assert (Hl : chunk_id_to_tensor_id_list_map (index (with_new_chunk s dt chunk_type)) !! new_chunk_id s = Some []).
  { rewrite Htids. apply lookup_insert_eq. }
  case_bool_decide as Hfit.
  - erewrite (bind_run (try_insert_tensor_list _ _ _)).
    2: { eapply try_insert_fits; [done..|]. unfold fits.
         rewrite Hused, Hcap, Hsize. lia. }
    cbn [negb]. by rewrite Hused.
  - erewrite (bind_run (try_insert_tensor_list _ _ _)).
    2: { eapply try_insert_no_fit; [done..|]. unfold fits.
         rewrite Hused, Hcap, Hsize. lia. }
    done.
Qed.


(** ** The collapse of a group (C2) *)

(** The hold status a stage leaves tensors at. *)
Definition hold_status_of (training_stage : TrainingStage) : TensorStatus :=
  match training_stage with FWD => HOLD_AFTER_FWD | _ => HOLD_AFTER_BWD end.

(** What the readiness loop of [release_dist] asks of a chunk: all its
    tensors at the hold status of the stage, or a dummy. *)
Definition chunk_ready (s : St) (training_stage : TrainingStage) (i : chunk_id) : bool :=
  match chunks s !! i with
  | Some c =>
      forallb (fun x => bool_decide (x = hold_status_of training_stage))
              (tensor_statuses s i)
      || is_dummy_flag c
  | None => false
  end.

Definition group_ready (s : St) (training_stage : TrainingStage) (l : list chunk_id)
    : bool :=
  forallb (chunk_ready s training_stage) l.

Lemma chunk_not_ready_run s stage i c :
  stage = FWD ∨ stage = BWD → chunks s !! i = Some c →
  chunk_not_ready stage i s = Ok (negb (chunk_ready s stage i)) s.
Proof.
  intros Hstage Hc. unfold chunk_ready. rewrite Hc.
  destruct Hstage as [-> | ->];
    unfold chunk_not_ready, all_tensor_status, is_dummy, get_chunk;
    cbn; rewrite Hc; cbn;
    destruct (forallb _ (tensor_statuses s i)); cbn; try done;
    by rewrite Hc.
Qed.

Lemma readiness_loop_run s stage l acc :
  stage = FWD ∨ stage = BWD →
  Forall (fun i => is_Some (chunks s !! i)) l →
  for_fold l acc (fun ready i =>
    not_ready <- chunk_not_ready stage i ;;
    ret (if not_ready then false else ready)) s
  = Ok (acc && group_ready s stage l) s.
Proof.
  intros Hstage Hl. revert acc.
  induction Hl as [|i l [c Hc] Hl IH]; intros acc; cbn [for_fold group_ready forallb].
  - by rewrite andb_true_r.
  - erewrite bind_run;
      [|erewrite bind_run; [|by eapply chunk_not_ready_run]; reflexivity].
    rewrite IH. f_equal. fold (group_ready s stage l).
    by destruct (chunk_ready s stage i), acc.
Qed.

(** *** A chunk that no eviction scan picks *)

(** Chunk [i] has the payload [sid], which holds [st], and its aggregate
    status is not [HOLD]. *)
Definition settled (i : chunk_id) (sid : storage_id) (st : Storage E) (s : St) : Prop :=
  (∃ c, chunks s !! i = Some c ∧ payload c = Some sid)
  ∧ heap s !! sid = Some st
  ∧ aggregate_status (tensor_statuses s i) ≠ CS_HOLD.

Definition stays_settled (i : chunk_id) (sid : storage_id) (st : Storage E)
    : relation St :=
  fun s s' => settled i sid st s → settled i sid st s'.

#[local] Instance stays_settled_preorder i sid st : PreOrder (stays_settled i sid st).
Proof. split; [intros s H; exact H | intros s1 s2 s3 H1 H2 H; by apply H2, H1]. Qed.

Lemma settled_not_evictable i sid st s dev :
  settled i sid st s → evictable s dev i = false.
Proof.
  intros ((c & Hc & Hp) & _ & Hst). unfold evictable. rewrite Hc.
  unfold chunk_status. rewrite Hp.
  rewrite (bool_decide_eq_false_2 (aggregate_status _ = _)) by done.
  apply andb_false_r.
Qed.

(** A step that leaves chunk [i], the storages that exist and the status
    slots alone. *)
Lemma settled_frame i sid st s s' :
  chunks s' !! i = chunks s !! i →
  (∀ x, is_Some (heap s !! x) → heap s' !! x = heap s !! x) →
  params s' = params s → chunk_tensor_index s' = chunk_tensor_index s →
  stays_settled i sid st s s'.
Proof.
  intros Hc Hh Hp Hi ((c & Hci & Hpl) & Hst & Hagg). split_and!.
  - exists c. by rewrite Hc.
  - rewrite Hh by by rewrite Hst. done.
  - unfold tensor_statuses, index in *. by rewrite Hp, Hi.
Qed.

Lemma fresh_storage_ne s x : is_Some (heap s !! x) → fresh_storage s ≠ x.
Proof. intros [st Hst] <-. by rewrite fresh_storage_None in Hst. Qed.

Lemma chunk_move_settled i sid st j target s :
  j ≠ i → stays_settled i sid st s (out_state (chunk_move j target s)).
Proof.
  intros Hne. unfold chunk_move. apply related_get_chunk; [tc_solve|]. intros c Hc.
  cbn. destruct (payload c) as [sid0|] eqn:Hp; cbn; [|done].
  destruct (heap s !! sid0) as [st0|] eqn:Hst0; cbn; [|done].
  apply settled_frame; cbn; try done.
  - unfold chunks. cbn. by rewrite lookup_insert_ne.
  - intros x Hx. rewrite lookup_insert_ne; [done|]. by apply fresh_storage_ne.
Qed.

Lemma allocate_payload_settled i sid st j dev s :
  j ≠ i → stays_settled i sid st s (out_state (allocate_payload j dev s)).
Proof.
  intros Hne. unfold allocate_payload. apply related_get_chunk; [tc_solve|]. intros c Hc.
  cbn. apply settled_frame; cbn; try done.
  - unfold chunks. cbn. by rewrite lookup_insert_ne.
  - intros x Hx. rewrite lookup_insert_ne; [done|]. by apply fresh_storage_ne.
Qed.

Lemma make_room_settled i sid st candidates dev need :
  stable (stays_settled i sid st) (make_room candidates dev need).
Proof.
  induction candidates as [|j rest IH]; intros s; cbn.
  - by case_bool_decide.
  - case_bool_decide; cbn; [done|].
    intros Hs.
    destruct (decide (j = i)) as [->|Hne].
    + rewrite (settled_not_evictable _ _ _ _ dev Hs). cbn. by apply IH.
    + pose proof (chunk_move_settled i sid st j (other_tier s dev) s Hne Hs) as Hm.
      destruct (evictable s dev j); cbn; [|by apply IH].
      destruct (chunk_move j (other_tier s dev) s) as [u s1|e s1]; cbn in *; [|done].
      by apply IH.
Qed.

Lemma prepare_device_settled i sid st dev need :
  stable (stays_settled i sid st) (prepare_device dev need).
Proof. intros s. unfold prepare_device. cbn. apply make_room_settled. Qed.

Lemma pin_settled i sid st j : stable (stays_settled i sid st) (pin j).
Proof.
  intros s. unfold pin. apply related_get_chunk; [tc_solve|]. intros c Hc.
  cbn. intros ((ci & Hci & Hpl) & Hst & Hagg). split_and!; [|done..].
  unfold chunks in *. cbn. destruct (decide (j = i)) as [->|Hne].
  - rewrite lookup_insert_eq. eexists; split; [done|]. cbn. by simplify_eq.
  - rewrite lookup_insert_ne by done. eauto.
Qed.

(** Bringing any chunk to the device where a settled chunk lives leaves the
    settled chunk as it is. *)
Lemma access_chunk_settled i sid st j :
  stable (stays_settled i sid st) (access_chunk (Some j) (st_device st)).
Proof.
  intros s. unfold access_chunk. apply related_get_chunk; [tc_solve|]. intros c Hc.
  change (bind (lift_opt KeyError (Some j)) ?k s) with (k j s). cbv beta.
  apply related_bind; [tc_solve | |].
  2: { intros _ s1 _. by apply settled_frame. }
  intros Hs.
  assert (Hmove : ∀ s1, j ≠ i →
            stays_settled i sid st s1 (out_state (chunk_move j (st_device st) s1)))
    by (intros; by apply chunk_move_settled).
  assert (Halloc : ∀ s1, j ≠ i →
            stays_settled i sid st s1 (out_state (allocate_payload j (st_device st) s1)))
    by (intros; by apply allocate_payload_settled).
  destruct (payload c) as [sid0|] eqn:Hp.
  - change (bind get ?k s) with (k s s). cbv beta.
    destruct (heap s !! sid0) as [st0|] eqn:Hst0; [|exact Hs].
    change (bind (lift_opt KeyError (Some st0)) ?k s) with (k st0 s). cbv beta.
    case_bool_decide as Hdev; [exact Hs|].
    assert (Hne : j ≠ i).
    { intros ->. destruct Hs as ((ci & Hci & Hpl) & Hst & _). simplify_eq. }
    revert Hs. apply (related_bind (stays_settled i sid st));
      [apply prepare_device_settled|].
    intros _ s1 _. by apply Hmove.
  - assert (Hne : j ≠ i).
    { intros ->. destruct Hs as ((ci & Hci & Hpl) & _). simplify_eq. }
    revert Hs. apply (related_bind (stays_settled i sid st));
      [apply prepare_device_settled|].
    intros _ s1 _. by apply Halloc.
Qed.

(** *** The inputs of the reduction *)

Lemma tensor_statuses_same s s' i :
  params s' = params s → chunk_tensor_index s' = chunk_tensor_index s →
  tensor_statuses s' i = tensor_statuses s i.
Proof. intros Hp Hi. unfold tensor_statuses, index. by rewrite Hp, Hi. Qed.

(** One round of the loop that collects the inputs of the reduce-scatter. *)
Definition collect_input (dev : device) (i : chunk_id) : Cmd (option storage_id) :=
  access_chunk (Some i) dev ;;
  pin i ;;
  c <- get_chunk (Some i) ;;
  ret (payload c).

Lemma collect_input_keeps_params dev i : stable (keeps params) (collect_input dev i).
Proof. stable_by ltac:(exact eq_refl). Qed.

Lemma collect_input_keeps_index dev i :
  stable (keeps chunk_tensor_index) (collect_input dev i).
Proof. stable_by ltac:(exact eq_refl). Qed.

Lemma collect_input_keeps_env dev i : stable (keeps env) (collect_input dev i).
Proof. stable_by ltac:(exact eq_refl). Qed.

Lemma pin_elems_kept i : stable elems_kept (pin i).
Proof.
  intros s. unfold pin. apply related_get_chunk; [tc_solve|]. intros c Hc.
  cbn. intros j d Hj. unfold chunk_elems in *. unfold chunks in *. cbn.
  destruct (decide (i = j)) as [->|Hne].
  - rewrite lookup_insert_eq. rewrite Hc in Hj. exact Hj.
  - by rewrite lookup_insert_ne.
Qed.

Lemma collect_input_elems_kept dev i : stable elems_kept (collect_input dev i).
Proof.
  unfold collect_input.
  stable_go ltac:(first [ apply access_chunk_elems_kept | apply pin_elems_kept ]).
Qed.

Lemma collect_input_silent dev i :
  stable (emits (fun ev => is_collective ev = false)) (collect_input dev i).
Proof. emits_by ltac:(reflexivity). Qed.

Lemma collect_input_settled j sid st i :
  stable (stays_settled j sid st) (collect_input (st_device st) i).
Proof.
  unfold collect_input.
  stable_go ltac:(first [ apply access_chunk_settled | apply pin_settled ]).
Qed.

(** After its round a chunk whose status is not [HOLD] is settled on the
    device, and the round hands back its payload. *)
Lemma collect_input_ok dev i s pl s' :
  collect_input dev i s = Ok pl s' →
  aggregate_status (tensor_statuses s i) ≠ CS_HOLD →
  ∃ sid st, pl = Some sid ∧ st_device st = dev ∧ settled i sid st s'.
Proof.
  intros Hrun Hagg.
  stable_fact (keeps params) Hrun ltac:(apply collect_input_keeps_params) Hp.
  stable_fact (keeps chunk_tensor_index) Hrun ltac:(apply collect_input_keeps_index) Hi.
  unfold collect_input in Hrun.
  apply bind_ok_inv in Hrun as ([] & s1 & Haccess & Hrun).
  apply bind_ok_inv in Hrun as ([] & s2 & Hpin & Hrun).
  apply bind_ok_inv in Hrun as (c & s3 & Hget & Hrun). minv Hget. minv Hrun.
  stable_fact (keeps params) Haccess ltac:(apply access_chunk_keeps_params) Hp1.
  stable_fact (keeps chunk_tensor_index) Haccess ltac:(apply access_chunk_keeps_index) Hi1.
  apply access_chunk_ok in Haccess as (c1 & sid & st & Hc1 & Hpl & Hst & Hdev).
  assert (Hs1 : settled i sid st s1).
  { split_and!; [by exists c1 | done |]. by rewrite (tensor_statuses_same s). }
  stable_fact (stays_settled i sid st) Hpin ltac:(apply pin_settled) Hs2.
  specialize (Hs2 Hs1). exists sid, st. split_and!; [|done..].
  destruct Hs2 as ((c2 & Hc2 & Hpl2) & _). by simplify_eq.
Qed.

Lemma collect_inputs_local dev l s pls s' r local :
  for_collect l (collect_input dev) s = Ok pls s' →
  l !! r = Some local →
  aggregate_status (tensor_statuses s local) ≠ CS_HOLD →
  ∃ sid st, pls !! r = Some (Some sid) ∧ st_device st = dev ∧ settled local sid st s'.
Proof.
  revert s pls r. induction l as [|i l IH]; intros s pls r Hrun Hr Hagg; [done|].
  cbn [for_collect] in Hrun.
  apply bind_ok_inv in Hrun as (pl & s1 & Hhead & Hrun).
  apply bind_ok_inv in Hrun as (pls' & s2 & Hrest & Hrun). minv Hrun.
  destruct r as [|r]; cbn in Hr.
  - simplify_eq.
    apply collect_input_ok in Hhead as (sid & st & -> & <- & Hs1); [|done].
    exists sid, st. split_and!; [done..|].
    stable_fact (stays_settled local sid st) Hrest
      ltac:(apply stable_for_collect; [tc_solve | intros ?; apply collect_input_settled])
      Hs2.
    by apply Hs2.
  - stable_fact (keeps params) Hhead ltac:(apply collect_input_keeps_params) Hp.
    stable_fact (keeps chunk_tensor_index) Hhead ltac:(apply collect_input_keeps_index) Hi.
    eapply (IH s1 pls' r); [done..|]. by rewrite (tensor_statuses_same s).
Qed.

Lemma unwrap_all_lookup {A} (l : list (option A)) xs r x :
  unwrap_all l = Some xs → l !! r = Some (Some x) → xs !! r = Some x.
Proof.
  revert xs r. induction l as [|o l IH]; intros xs r H Hr; [done|].
  cbn in H. destruct o as [y|]; [cbn in H | done].
  destruct (unwrap_all l) as [ys|] eqn:Hys; [cbn in H | done]. simplify_eq.
  destruct r as [|r]; cbn in *; [by simplify_eq | by eapply IH].
Qed.

Lemma emits_collective_count s s' :
  emits (fun ev => is_collective ev = false) s s' →
  collective_count s' = collective_count s.
Proof.
  intros (t & Ht & HF). unfold collective_count. rewrite Ht, filter_app, length_app.
  assert (Hnil : filter is_collective t = []).
  { clear Ht. induction HF as [|ev t Hev HF IH]; [done|].
    rewrite filter_cons_False; [done|]. rewrite Hev. exact id. }
  rewrite Hnil. cbn. lia.
Qed.

(** *** The reduction *)

(** The reduction of [release_dist]: the chunks of the group are brought to
    the accelerator and pinned, the reduce-scatter writes into the local
    chunk, and the local chunk is divided by the number of processes. *)
Definition reduce_group (l : list chunk_id) (local : chunk_id) (world_size : nat)
    : Cmd unit :=
  local_chunk <- get_chunk (Some local) ;;
  assert_ (bool_decide (is_Some (payload local_chunk))) ;;
  cuda <- gets (fun s => CUDA (local_rank s)) ;;
  input_list <- for_collect l (collect_input cuda) ;;
  local_chunk <- get_chunk (Some local) ;;
  reduce_scatter (payload local_chunk) input_list ;;
  local_chunk <- get_chunk (Some local) ;;
  div_payload (payload local_chunk) world_size.

(** The release of the remote chunks of [release_dist]. *)
Definition release_remote (l : list chunk_id) (local : chunk_id) : Cmd unit :=
  for_each l (fun i =>
    unpin i ;;
    if bool_decide (i ≠ local) then
      release_payload i ;;
      set_all_tensors_status_in_chunk i FREE
    else ret tt).

Lemma collapse_step_parts stage reduce l local s :
  1 < world_size (env s) → stage = FWD ∨ stage = BWD →
  Forall (fun i => is_Some (chunks s !! i)) l →
  collapse_step stage reduce l local s
  = if group_ready s stage l
    then ((if reduce then reduce_group l local (world_size (env s)) else ret tt) ;;
          release_remote l local) s
    else Ok tt s.
Proof.
  intros Hws Hstage Hl. unfold collapse_step, get_world_size. mstep.
  rewrite bool_decide_eq_true_2 by done.
  rewrite (bind_run _ _ _ _ _ (readiness_loop_run _ _ _ true Hstage Hl)).
  cbn [andb]. by destruct (group_ready s stage l).
Qed.

(** Element-wise sum of the contributions, first to last. *)
Definition sum_lists (cs : list (list E)) : list E :=
  match cs with
  | [] => []
  | c :: rest => foldl (zip_with eadd) c rest
  end.

(** What the processes put into a reduce-scatter issued in state [s] for
    this process's chunk: this process the elements [mine] of its copy, every
    peer the elements of its own copy of that chunk, in rank order. *)
Definition contributions (s : St) (mine : list E) : list (list E) :=
  map (fun p => if bool_decide (p = rank (env s)) then mine
                else received s (collective_count s) p (length mine))
      (seq 0 (world_size (env s))).

(** The average over the processes. *)
Definition averaged (s : St) (mine : list E) : list E :=
  map (fun x => ediv x (world_size (env s))) (sum_lists (contributions s mine)).

Lemma sum_contributions_sum_lists cs total :
  sum_contributions cs = Some total → total = sum_lists cs.
Proof. destruct cs; cbn; by intros; simplify_eq. Qed.

Lemma write_storage_lookup sid d (h : gmap storage_id (Storage E)) st :
  h !! sid = Some st →
  write_storage sid d h !! sid = Some {| st_device := st_device st; st_data := d |}.
Proof. intros H. unfold write_storage. rewrite H. apply lookup_insert_eq. Qed.

Lemma reduce_group_ok l local s d s' :
  l !! rank (env s) = Some local →
  aggregate_status (tensor_statuses s local) ≠ CS_HOLD →
  chunk_elems s local = Some d →
  reduce_group l local (world_size (env s)) s = Ok tt s' →
  chunk_elems s' local = Some (averaged s d).
Proof.
  intros Hl Hagg Hd Hrun. unfold reduce_group in Hrun.
  apply bind_ok_inv in Hrun as (c0 & s0 & Hget & Hrun). minv Hget.
  apply bind_ok_inv in Hrun as ([] & s0 & Hassert & Hrun). minv Hassert.
  apply bind_ok_inv in Hrun as (cuda & s0 & Hcuda & Hrun). minv Hcuda.
  apply bind_ok_inv in Hrun as (pls & s2 & Hloop & Hrun).
  apply bind_ok_inv in Hrun as (c2 & s0 & Hget2 & Hrun). minv Hget2.
  apply bind_ok_inv in Hrun as ([] & s3 & Hreduce & Hrun).
  apply bind_ok_inv in Hrun as (c3 & s0 & Hget3 & Hdiv). minv Hget3.
  (* the loop *)
  destruct (collect_inputs_local _ _ _ _ _ _ _ Hloop Hl Hagg)
    as (sid & st & Hpl & Hdev & ((c2' & Hc2' & Hpl2) & Hst & _)).
  stable_fact elems_kept Hloop
    ltac:(apply stable_for_collect; [tc_solve | intros ?; apply collect_input_elems_kept])
    Helems.
  stable_fact (keeps env) Hloop
    ltac:(apply stable_for_collect; [tc_solve | intros ?; apply collect_input_keeps_env])
    Henv.
  stable_fact (emits (fun ev => is_collective ev = false)) Hloop
    ltac:(apply stable_for_collect; [tc_solve | intros ?; apply collect_input_silent])
    Hsilent.
  apply emits_collective_count in Hsilent. unfold keeps in Henv.
  specialize (Helems _ _ Hd).
  assert (Hdata : st_data st = d).
  { erewrite chunk_elems_intro in Helems by done. by simplify_eq. }
  (* the reduce-scatter *)
  simplify_eq. rewrite Hpl2 in Hreduce.
  unfold reduce_scatter in Hreduce.
  apply bind_ok_inv in Hreduce as (out & s0 & Hout & Hreduce). minv Hout.
  apply bind_ok_inv in Hreduce as (inputs & s0 & Hin & Hreduce). minv Hin.
  apply bind_ok_inv in Hreduce as (sx & s0 & Hsx & Hreduce). minv Hsx.
  case_bool_decide as Hlen; [|discriminate Hreduce].
  apply bind_ok_inv in Hreduce as (mine & s0 & Hmine & Hreduce). minv Hmine.
  apply bind_ok_inv in Hreduce as (total & s0 & Htotal & Hreduce). minv Htotal.
  minv Hreduce.
  rewrite (unwrap_all_lookup _ _ _ _ Hin) in Hmine
    by (rewrite Henv; exact Hpl).
  simplify_eq.
  apply sum_contributions_sum_lists in Htotal.
  (* the division *)
  change (chunks s2 !! local = Some c3) in Hget3.
  simplify_eq. rewrite Hpl2 in Hdiv.
  unfold div_payload in Hdiv. minv Hdiv.
  unfold chunk_elems. change (chunks _ !! local) with (chunks s2 !! local).
  rewrite Hget2. cbn [mbind option_bind]. rewrite Hpl2. cbn [mbind option_bind].
  unfold payload_elems. cbn [heap with_heap log_event].
  rewrite !(write_storage_lookup _ _ _ _ Hst).
  erewrite write_storage_lookup by by apply write_storage_lookup.
  cbn. f_equal. unfold averaged. rewrite Henv. f_equal.
  unfold payload_elems. rewrite Hst.
  unfold contributions, received. by rewrite Henv, Hsilent.
Qed.

(** *** The release of the remote chunks *)

Definition payload_of (i : chunk_id) (s : St) : option (option storage_id) :=
  payload <$> chunks s !! i.

(** The chunk is there and has no storage. *)
Definition without_payload (s : St) (i : chunk_id) : Prop :=
  payload_of i s = Some None.

Lemma unpin_keeps_payload i j : stable (keeps (payload_of j)) (unpin i).
Proof.
  intros s. unfold unpin. apply related_get_chunk; [tc_solve|]. intros c Hc.
  cbn. unfold keeps, payload_of, chunks in *. cbn.
  destruct (decide (i = j)) as [->|Hne].
  - by rewrite lookup_insert_eq, Hc.
  - by rewrite lookup_insert_ne.
Qed.

Lemma release_payload_keeps_payload i j :
  i ≠ j → stable (keeps (payload_of j)) (release_payload i).
Proof.
  intros Hne s. unfold release_payload. apply related_get_chunk; [tc_solve|].
  intros c Hc. cbn. unfold keeps, payload_of, chunks. cbn.
  by rewrite lookup_insert_ne.
Qed.

Lemma release_payload_ok i s u s' :
  release_payload i s = Ok u s' → without_payload s' i.
Proof.
  unfold release_payload. intros H. minv H.
  unfold without_payload, payload_of, chunks. cbn. by rewrite lookup_insert_eq.
Qed.

Lemma set_all_tensors_status_keeps_payload i st j :
  stable (keeps (payload_of j)) (set_all_tensors_status_in_chunk i st).
Proof. stable_by ltac:(exact eq_refl). Qed.

(** One round of the loop. *)
Definition release_remote_round (local i : chunk_id) : Cmd unit :=
  unpin i ;;
  if bool_decide (i ≠ local) then
    release_payload i ;;
    set_all_tensors_status_in_chunk i FREE
  else ret tt.

Lemma release_remote_round_keeps_heap local i :
  stable (keeps heap) (release_remote_round local i).
Proof. stable_by ltac:(exact eq_refl). Qed.

Lemma release_remote_round_keeps_index local i :
  stable (keeps chunk_tensor_index) (release_remote_round local i).
Proof. stable_by ltac:(exact eq_refl). Qed.

Lemma release_remote_round_keeps_local local i :
  stable (keeps (payload_of local)) (release_remote_round local i).
Proof.
  unfold release_remote_round.
  apply stable_bind; [tc_solve | apply unpin_keeps_payload | intros _].
  case_bool_decide as Hne; [|apply stable_ret; tc_solve].
  apply stable_bind; [tc_solve | by apply release_payload_keeps_payload | intros _].
  apply set_all_tensors_status_keeps_payload.
Qed.

Lemma release_remote_round_free local i param access_type :
  stable (stays_at FREE param access_type) (release_remote_round local i).
Proof. stable_go ltac:(stays_leaf). Qed.

(** A round leaves a chunk without storage without storage. *)
Lemma release_remote_round_without local i j s u s' :
  release_remote_round local i s = Ok u s' →
  without_payload s j → without_payload s' j.
Proof.
  unfold release_remote_round. intros H Hj.
  apply bind_ok_inv in H as ([] & s1 & Hunpin & H).
  stable_fact (keeps (payload_of j)) Hunpin ltac:(apply unpin_keeps_payload) H1.
  unfold keeps in H1.
  case_bool_decide as Hne; [|minv H; unfold without_payload; congruence].
  apply bind_ok_inv in H as ([] & s2 & Hrel & H).
  stable_fact (keeps (payload_of j)) H ltac:(apply set_all_tensors_status_keeps_payload) H3.
  unfold keeps in H3. unfold without_payload in *. rewrite H3.
  destruct (decide (i = j)) as [->|Hij].
  - by eapply release_payload_ok.
  - stable_fact (keeps (payload_of j)) Hrel
      ltac:(by apply release_payload_keeps_payload) H2.
    unfold keeps in H2. congruence.
Qed.

(** When the loop returns, the local chunk has the payload and the storages
    are what they were, and every other chunk of the group is without storage,
    its tensors [FREE]. *)
Lemma release_remote_ok l local s u s' :
  release_remote l local s = Ok u s' →
  heap s' = heap s
  ∧ payload_of local s' = payload_of local s
  ∧ Forall (fun i => i ≠ local → without_payload s' i ∧ chunk_all_at FREE i s') l.
Proof.
  intros H. change (for_each l (release_remote_round local) s = Ok u s') in H.
  split_and!.
  - stable_fact (keeps heap) H
      ltac:(apply stable_for_each; [tc_solve | intros ?; apply release_remote_round_keeps_heap])
      Hh.
    exact Hh.
  - stable_fact (keeps (payload_of local)) H
      ltac:(apply stable_for_each;
            [tc_solve | intros ?; apply release_remote_round_keeps_local])
      Hp.
    exact Hp.
  - eapply (for_each_ok_forall
              (fun i st => i ≠ local → without_payload st i ∧ chunk_all_at FREE i st));
      [exact H | |].
    + intros i sa y sb Hbody Hne. unfold release_remote_round in Hbody.
      apply bind_ok_inv in Hbody as ([] & s1 & _ & Hbody).
      rewrite bool_decide_eq_true_2 in Hbody by done.
      apply bind_ok_inv in Hbody as ([] & s2 & Hrel & Hset).
      split; [|by eapply set_all_tensors_status_ok].
      stable_fact (keeps (payload_of i)) Hset
        ltac:(apply set_all_tensors_status_keeps_payload) Hk.
      unfold without_payload. rewrite Hk. by eapply release_payload_ok.
    + intros i z sa y sb Hi Hbody Hne. destruct (Hi Hne) as [Hw Hfree].
      split; [by eapply release_remote_round_without|].
      intros info Hin.
      stable_fact (stays_at FREE (info_param info) (info_access_type info)) Hbody
        ltac:(apply release_remote_round_free) Hst.
      stable_fact (keeps chunk_tensor_index) Hbody
        ltac:(apply release_remote_round_keeps_index) Hidx.
      unfold keeps in Hidx. apply Hst, Hfree. unfold index in *. by rewrite <- Hidx.
Qed.

(** *** The collapse *)

Lemma chunk_elems_same s s' i :
  heap s' = heap s → payload_of i s' = payload_of i s →
  chunk_elems s' i = chunk_elems s i.
Proof.
  intros Hh Hp. unfold chunk_elems, payload_of in *. rewrite Hh.
  destruct (chunks s' !! i) as [c'|], (chunks s !! i) as [c|]; cbn in *;
    simplify_eq; try done.
  by rewrite Hp.
Qed.

Lemma aggregate_status_hold l : aggregate_status l = CS_HOLD → HOLD ∈ l.
Proof. unfold aggregate_status. by repeat case_bool_decide. Qed.

(** A dummy chunk has no tensors mapped into it. *)
Definition dummy_is_empty (s : St) (i : chunk_id) : Prop :=
  ∀ c, chunks s !! i = Some c → is_dummy_flag c = true →
       tensor_info_in_order (index s) i = [].

(** A chunk that is ready for the collapse is no candidate for eviction. *)
Lemma chunk_ready_not_hold s stage i :
  stage = FWD ∨ stage = BWD → dummy_is_empty s i →
  chunk_ready s stage i = true →
  aggregate_status (tensor_statuses s i) ≠ CS_HOLD.
Proof.
  intros Hstage Hdummy Hready Hagg. apply aggregate_status_hold in Hagg.
  unfold chunk_ready in Hready.
  destruct (chunks s !! i) as [c|] eqn:Hc; [|done].
  apply orb_true_iff in Hready as [Hall|Hd].
  - rewrite forallb_forall in Hall. rewrite list_elem_of_In in Hagg.
    specialize (Hall _ Hagg). apply bool_decide_eq_true_1 in Hall.
    by destruct Hstage as [-> | ->].
  - unfold tensor_statuses in Hagg. rewrite (Hdummy c Hc Hd) in Hagg.
    by apply elem_of_nil in Hagg.
Qed.


(** * The rest of the client *)

(** [access_data(param, compute_device)] and [access_grad(param,
    compute_device)]. *)
Definition access_data (param : param_id) (compute_device : device)
    : Cmd (option Tensor) :=
  access param DATA compute_device.

Definition access_grad (param : param_id) (compute_device : device)
    : Cmd (option Tensor) :=
  access param GRAD compute_device.

(** [release_data(param, reset_to_status=TensorStatus.HOLD)] and
    [release_grad(param, reset_to_status=TensorStatus.HOLD)]; the default of
    the keyword argument is the caller's to pass. *)
Definition release_data (param : param_id) (reset_to_status : TensorStatus) : Cmd unit :=
  release param DATA reset_to_status.

Definition release_grad (param : param_id) (reset_to_status : TensorStatus) : Cmd unit :=
  release param GRAD reset_to_status.

(** [PatrickStarClient(rank, default_chunk_size)], as far as the state
    reaches: an empty chunk list, and an index configured with the client's
    chunk size.  The parameter objects and the process environment exist
    before the client. *)
Definition new_client (e : Env E) (rank default_chunk_size : nat)
    (ps : gmap param_id Param) : St :=
  {| env := e; local_rank := rank; default_chunk_size := default_chunk_size;
     chunk_list := {| chunk_id_to_chunk_dict := ∅; chunk_type_to_id_list := [];
                      recently_needed := [] |};
     chunk_tensor_index := {| index_default_chunk_size := default_chunk_size;
                              tensor_id_to_info_map := ∅;
                              chunk_id_to_tensor_id_list_map := ∅;
                              chunk_id_to_comm_group_map := ∅;
                              comm_group_to_chunk_id_list := [] |};
     params := ps; heap := ∅; trace := [] |}.

(** ** What fails before anything is touched *)

(** The guards of [release_dist] on a registered chunk-based parameter come
    before the status transition: a training stage other than [FWD] and [BWD],
    a process group that is not initialised, and a communication group
    without an entry for this rank each end the call with the state as it
    was, the first two by [AssertionError], the last by [IndexError]. *)
Theorem release_dist_guards_come_first s param a access_type st stage reduce :
  attr_at s param = Some a → param_type a = CHUNK_BASED →
  (stage = OTHER_STAGE →
   release_dist param access_type st stage reduce s = Raise AssertionError s)
  ∧ (dist_initialized (env s) = false →
     release_dist param access_type st stage reduce s = Raise AssertionError s)
  ∧ (∀ cid l,
       stage ≠ OTHER_STAGE → dist_initialized (env s) = true →
       chunk_of s a access_type = Some cid →
       comm_group_of (index s) cid = Some l →
       length l ≤ rank (env s) →
       release_dist param access_type st stage reduce s = Raise IndexError s).
Proof.
  intros Hattr Ht. split_and!.
  - intros ->. unfold release_dist.
    mstep. rewrite bool_decide_eq_false_2 by (rewrite Ht; done).
    unfold get_rank. mstep. reflexivity.
  - intros Hinit. unfold release_dist.
    mstep. rewrite bool_decide_eq_false_2 by (rewrite Ht; done).
    unfold get_rank, is_initialized. mstep.
    destruct (bool_decide (stage = FWD) || bool_decide (stage = BWD)); [|reflexivity].
    mstep. mstep. by rewrite Hinit.
  - intros cid l Hstage Hinit Hc Hg Hl. unfold release_dist.
    mstep. rewrite bool_decide_eq_false_2 by (rewrite Ht; done).
    unfold get_rank, is_initialized. mstep.
    assert (Hst : bool_decide (stage = FWD) || bool_decide (stage = BWD) = true)
      by (by destruct stage).
    rewrite Hst. mstep. mstep. rewrite Hinit. mstep. mstep. rewrite Hc. mstep.
    by rewrite (lookup_ge_None_2 l (rank (env s))).
Qed.

(** [release] and [release_dist] read [param.ps_attr] without asking
    [is_param_registered] first: on a parameter that is not registered they
    end with [AttributeError] where [access] and [access_dist] end with
    [AssertionError]; the state is as it was. *)
Theorem release_of_unregistered_param s param access_type st stage reduce :
  attr_at s param = None →
  release param access_type st s = Raise AttributeError s
  ∧ release_dist param access_type st stage reduce s = Raise AttributeError s.
Proof.
  intros Hattr. unfold release, release_dist.
  by rewrite !(bind_raise _ _ _ _ _ (get_ps_attr_unregistered _ _ Hattr)).
Qed.

(** [access_dist] with several processes looks up [chunk_id_list[rank]]
    before it makes any chunk resident: a group without an entry for this
    rank ends the call with [IndexError] and the state as it was. *)
Theorem access_dist_needs_a_local_chunk s param a access_type dev cid l :
  attr_at s param = Some a → param_type a = CHUNK_BASED →
  chunk_of s a access_type = Some cid →
  1 < world_size (env s) →
  comm_group_of (index s) cid = Some l →
  length l ≤ rank (env s) →
  access_dist param access_type dev s = Raise IndexError s.
Proof.
  intros Hattr Ht Hc Hws Hg Hl. unfold access_dist.
  mstep. rewrite Hattr. mstep. mstep.
  rewrite bool_decide_eq_false_2 by (rewrite Ht; done).
  mstep. unfold get_rank, get_world_size. mstep. mstep.
  rewrite bool_decide_eq_true_2 by done. rewrite Hc.
  rewrite bind_assoc. mstep.
  by rewrite (lookup_ge_None_2 l (rank (env s))).
Qed.

(** ** The calls each entry point can make *)

(** Residency calls and pins. *)
Definition is_access_dist_call (ev : Event) : Prop :=
  match ev with
  | EvMove _ _ | EvAllocatePayload _ _ | EvPin _ | EvUnpin _ | EvAllGather _ _ => True
  | EvReleasePayload _ | EvReduceScatter _ _ => False
  end.

Definition is_release_dist_call (ev : Event) : Prop :=
  match ev with
  | EvMove _ _ | EvAllocatePayload _ _ | EvPin _ | EvUnpin _
  | EvReduceScatter _ _ | EvReleasePayload _ => True
  | EvAllGather _ _ => False
  end.

(** Whatever the state and however they end, the entry points keep to their
    calls: [access] makes a chunk resident and nothing else, "no cross
    process communication" as its docstring has it, and never pins;
    [access_dist] adds pins, unpins and the all-gather but never releases a
    payload or reduces; [release] makes no call at all; [release_dist] never
    gathers. *)
Theorem calls_of_the_entry_points s param access_type dev st stage reduce :
  Forall is_residency (new_events s (out_state (access param access_type dev s)))
  ∧ Forall is_access_dist_call
      (new_events s (out_state (access_dist param access_type dev s)))
  ∧ new_events s (out_state (release param access_type st s)) = []
  ∧ Forall is_release_dist_call
      (new_events s (out_state (release_dist param access_type st stage reduce s))).
Proof.
  split_and!.
  - apply emits_new_events. revert s. change (stable (emits is_residency)
      (access param access_type dev)).
    emits_by ltac:(first [left; by eexists _, _ | right; by eexists _, _]).
  - apply emits_new_events. revert s. change (stable (emits is_access_dist_call)
      (access_dist param access_type dev)).
    emits_by ltac:(exact I).
  - pose proof (release_keeps_trace param access_type st s) as H.
    unfold keeps in H. unfold new_events. rewrite H. apply drop_all.
  - apply emits_new_events. revert s. change (stable (emits is_release_dist_call)
      (release_dist param access_type st stage reduce)).
    emits_by ltac:(exact I).
Qed.

(** ** What no entry point changes of a parameter *)

(** The registration of a parameter: whether it is registered, and if so its
    element count, element type, parameter type and tensor ids. *)
Definition registration (p : Param)
    : option (nat * dtype * ParamType * tensor_id * tensor_id) :=
  a ← ps_attr p;
  Some (ps_numel a, ps_data_type a, param_type a, data_id a, grad_id a).

Definition registrations_kept : relation St :=
  fun s s' => ∀ param, registration <$> params s' !! param
                       = registration <$> params s !! param.

#[local] Instance registrations_kept_preorder : PreOrder registrations_kept.
Proof.
  split; [by intros s param | intros s1 s2 s3 H1 H2 param; by rewrite H2, H1].
Qed.

Lemma registrations_kept_same s s' : params s' = params s → registrations_kept s s'.
Proof. intros H param. by rewrite H. Qed.

Lemma registrations_kept_update s param p p' :
  params s !! param = Some p → registration p' = registration p →
  registrations_kept s (with_params (insert param p') s).
Proof.
  intros Hp Hr q. cbn. destruct (decide (param = q)) as [<-|Hne].
  - rewrite lookup_insert_eq, Hp. cbn. by rewrite Hr.
  - by rewrite lookup_insert_ne.
Qed.

Lemma set_status_registrations_kept param st access_type :
  stable registrations_kept (set_status param st access_type).
Proof.
  intros s. destruct (set_status param st access_type s) as [u s'|e s'] eqn:Hrun; cbn.
  - apply set_status_spec in Hrun as (p & a & Hp & Ha & ->).
    eapply registrations_kept_update; [done|]. unfold registration. cbn. rewrite Ha.
    by destruct access_type.
  - apply set_status_raise_state in Hrun as ->. reflexivity.
Qed.

Lemma set_tensor_registrations_kept param t access_type :
  stable registrations_kept (set_tensor param t access_type).
Proof.
  intros s. unfold set_tensor.
  apply related_bind; [tc_solve | apply (stable_out registrations_kept); stable_go fail |].
  intros a s1 Ha. apply get_ps_attr_ok_inv in Ha as [Ha ->].
  apply attr_at_inv in Ha as (p & Hp & Ha).
  rewrite (put_ps_attr_run _ _ _ _ Hp). cbn.
  eapply registrations_kept_update; [done|]. unfold registration. cbn. rewrite Ha.
  by destruct access_type.
Qed.

Lemma set_param_data_registrations_kept param t :
  stable registrations_kept (set_param_data param t).
Proof.
  intros s. unfold set_param_data.
  apply related_bind; [tc_solve | apply (stable_out registrations_kept); stable_go fail |].
  intros p s1 Hp. unfold get_param in Hp. minv Hp.
  by eapply registrations_kept_update.
Qed.

Lemma set_param_grad_registrations_kept param g :
  stable registrations_kept (set_param_grad param g).
Proof.
  intros s. unfold set_param_grad.
  apply related_bind; [tc_solve | apply (stable_out registrations_kept); stable_go fail |].
  intros p s1 Hp. unfold get_param in Hp. minv Hp.
  by eapply registrations_kept_update.
Qed.

Ltac registration_leaf :=
  first [ apply set_status_registrations_kept | apply set_tensor_registrations_kept
        | apply set_param_data_registrations_kept
        | apply set_param_grad_registrations_kept
        | apply stable_modify; intros ?; apply registrations_kept_same; exact eq_refl
        | apply stable_has_released_chunk; tc_solve
        | apply stable_make_room; [tc_solve | intros ? ?];
          stable_by ltac:(apply registrations_kept_same; exact eq_refl) ].

(** Whatever the state and however they end, [access], [access_dist],
    [release] and [release_dist] register and unregister no parameter and
    leave the element count, element type, parameter type and tensor ids of
    every parameter as they were: of a parameter they change status slots,
    bound tensors, [data] and [grad] only. *)
Theorem entry_points_keep_the_registrations s param access_type dev st stage reduce :
  registrations_kept s (out_state (access param access_type dev s))
  ∧ registrations_kept s (out_state (access_dist param access_type dev s))
  ∧ registrations_kept s (out_state (release param access_type st s))
  ∧ registrations_kept s (out_state (release_dist param access_type st stage reduce s)).
Proof.
  split_and!; revert s.
  - change (stable registrations_kept (access param access_type dev)).
    stable_go ltac:(registration_leaf).
  - change (stable registrations_kept (access_dist param access_type dev)).
    stable_go ltac:(registration_leaf).
  - change (stable registrations_kept (release param access_type st)).
    stable_go ltac:(registration_leaf).
  - change (stable registrations_kept (release_dist param access_type st stage reduce)).
    stable_go ltac:(registration_leaf).
Qed.

(** ** What a returned access guarantees *)

Lemma zero_window_length (l : list E) start len :
  length (zero_window l start len) = length l.
Proof.
  unfold zero_window. rewrite !length_app, length_replicate, !length_take, !length_drop.
  lia.
Qed.

(** Steps 2 and 3 return only from a state in which the tensor is
    registered with the parameter's element count and its window lies in the
    chunk's payload. *)
Lemma locate_and_compute_ok_inv s param access_type cid t s' :
  locate_and_compute param access_type (Some cid) s = Ok t s' →
  ∃ p a info c sid st,
    params s !! param = Some p ∧ ps_attr p = Some a
    ∧ tensor_id_to_info_map (index s) !! tensor_id_of a access_type = Some info
    ∧ numel info = ps_numel a
    ∧ chunks s !! cid = Some c ∧ payload c = Some sid ∧ heap s !! sid = Some st
    ∧ start_offset info + numel info ≤ length (st_data st)
    ∧ t = Some (Narrow sid (start_offset info) (numel info))
    ∧ s' = after_compute s param p a access_type sid st (start_offset info) (numel info).
Proof.
  intros H. pose proof H as Hrun. unfold locate_and_compute in H.
  apply bind_ok_inv in H as (tid & s1 & Htid & H).
  unfold get_tensor_id in Htid. minv Htid.
  apply bind_ok_inv in H as (info & s1 & Hinfo & H).
  unfold get_tensor_info in Hinfo. minv Hinfo.
  apply bind_ok_inv in H as (a' & s1 & Ha' & H). minv Ha'.
  apply bind_ok_inv in H as ([] & s1 & Hnumel & H). minv Hnumel.
  apply bool_decide_eq_true_1 in Hnumel.
  apply bind_ok_inv in H as (c & s1 & Hc & H). minv Hc.
  apply bind_ok_inv in H as (w & s1 & Hw & _).
  unfold narrow in Hw.
  apply bind_ok_inv in Hw as (sid & s2 & Hsid & Hw). minv Hsid.
  apply bind_ok_inv in Hw as (sx & s2 & Hsx & Hw). minv Hsx.
  apply bind_ok_inv in Hw as (st & s2 & Hst & Hw). minv Hst.
  case_bool_decide as Hlen; [|discriminate Hw].
  lazymatch goal with Ha : attr_at _ _ = Some ?a |- _ =>
    pose proof Ha as Hattr; apply attr_at_inv in Ha as (p & Hp & Hpa);
    exists p, a, info, c, sid, st end.
  simplify_eq.
  erewrite locate_and_compute_run in Hrun by done.
  by simplify_eq.
Qed.

(** The tensor of a parameter after steps 2 and 3. *)
Lemma after_compute_attr s param p a access_type sid st start len :
  attr_at (after_compute s param p a access_type sid st start len) param
  = Some (computed_attr a (Narrow sid start len) access_type).
Proof. unfold after_compute. by rewrite attr_at_insert_eq. Qed.

Lemma after_compute_storage s param p a access_type sid st start len :
  heap s !! sid = Some st →
  ∃ st', heap (after_compute s param p a access_type sid st start len) !! sid = Some st'
         ∧ st_device st' = st_device st
         ∧ length (st_data st') = length (st_data st).
Proof.
  intros Hst. unfold after_compute. case_bool_decide; cbn.
  - rewrite lookup_insert_eq. eexists. split; [done|]. cbn.
    by rewrite zero_window_length.
  - by exists st.
Qed.

(** What [access] has achieved when it returns for a chunk-based
    parameter. *)
Definition accessed (s s' : St) (param : param_id) (a : PSParameter)
    (access_type : AccessType) (dev : device) (t : option Tensor) : Prop :=
  ∃ info c sid st a',
    tensor_id_to_info_map (index s) !! tensor_id_of a access_type = Some info
    ∧ t = Some (Narrow sid (start_offset info) (ps_numel a))
    ∧ chunks s' !! info_chunk_id info = Some c ∧ payload c = Some sid
    ∧ heap s' !! sid = Some st ∧ st_device st = dev
    ∧ start_offset info + ps_numel a ≤ length (st_data st)
    ∧ attr_at s' param = Some a' ∧ status_of a' access_type = COMPUTE
    ∧ tensor_of a' access_type = t.

Lemma locate_and_compute_accessed s0 s1 s' param a a1 access_type dev cid c1 sid1 st1 t :
  chunk_of s0 a access_type = Some cid →
  chunk_tensor_index s1 = chunk_tensor_index s0 →
  attr_at s1 param = Some a1 →
  tensor_id_of a1 access_type = tensor_id_of a access_type → ps_numel a1 = ps_numel a →
  chunks s1 !! cid = Some c1 → payload c1 = Some sid1 →
  heap s1 !! sid1 = Some st1 → st_device st1 = dev →
  locate_and_compute param access_type (Some cid) s1 = Ok t s' →
  accessed s0 s' param a access_type dev t.
Proof.
  intros Hcid Hidx Ha1 Hid Hnum Hc1 Hpl1 Hst1 Hdev Hrun.
  apply locate_and_compute_ok_inv in Hrun
    as (p & a' & info & c & sid & st & Hp & Hpa & Hinfo & Hnumel & Hc & Hpl & Hst
        & Hlen & -> & ->).
  erewrite attr_at_lookup in Ha1 by done. injection Ha1 as <-.
  rewrite Hc1 in Hc. injection Hc as <-.
  rewrite Hpl1 in Hpl. injection Hpl as <-.
  rewrite Hst1 in Hst. injection Hst as <-.
  unfold index in Hinfo. rewrite Hidx, Hid in Hinfo.
  unfold chunk_of, index in Hcid. rewrite Hinfo in Hcid. cbn in Hcid.
  injection Hcid as <-.
  destruct (after_compute_storage s1 param p a' access_type sid1 st1
              (start_offset info) (numel info) Hst1) as (st' & Hst' & Hdev' & Hlen').
  rewrite Hnumel, Hnum in *.
  exists info, c1, sid1, st',
    (computed_attr a' (Narrow sid1 (start_offset info) (ps_numel a)) access_type).
  split_and!; try done.
  all: try (by rewrite Hlen').
  all: try (by rewrite Hdev').
  - unfold after_compute, chunks. cbn. by case_bool_decide.
  - apply after_compute_attr.
  - unfold computed_attr. by rewrite status_of_set_status.
  - unfold computed_attr. by rewrite tensor_of_set_status, tensor_of_set_tensor.
Qed.

(** When [access] returns for a registered chunk-based parameter, the tensor
    is registered in the index, and what is returned is the window of the
    parameter's element count at the registered offset of the payload of the
    tensor's chunk; that payload is on the compute device and holds the whole
    window; the tensor is at [COMPUTE] with the window bound to it. *)
Theorem access_returns_the_registered_window s param a access_type dev t s' :
  attr_at s param = Some a → param_type a = CHUNK_BASED →
  access param access_type dev s = Ok t s' →
  accessed s s' param a access_type dev t.
Proof.
  intros Hattr Ht Hrun.
  destruct (chunk_of s a access_type) as [cid|] eqn:Hcid.
  2: { unfold access in Hrun. revert Hrun.
       mstep. rewrite Hattr. mstep. mstep.
       rewrite bool_decide_eq_false_2 by (rewrite Ht; done).
       mstep. by rewrite Hcid. }
  rewrite (access_parts _ _ a _ _ cid) in Hrun by done.
  apply bind_ok_inv in Hrun as ([] & s1 & Hres & Hrun).
  stable_fact (keeps params) Hres ltac:(apply access_chunk_keeps_params) Hparams.
  stable_fact (keeps chunk_tensor_index) Hres ltac:(apply access_chunk_keeps_index) Hidx.
  apply access_chunk_ok in Hres as (c & sid & st & Hc & Hpl & Hst & Hdev).
  eapply (locate_and_compute_accessed s s1); try done.
  unfold attr_at in *. by rewrite Hparams.
Qed.

(** The same holds of [access_dist], whatever the number of processes; that
    the payload is there and on the compute device is what its two
    assertions after [access_chunk] check. *)
Theorem access_dist_returns_the_registered_window s param a access_type dev t s' :
  attr_at s param = Some a → param_type a = CHUNK_BASED →
  access_dist param access_type dev s = Ok t s' →
  accessed s s' param a access_type dev t.
Proof.
  intros Hattr Ht Hrun.
  assert (Hprefix : ∃ sg, slots_only s sg
                          ∧ chunk_tensor_index sg = chunk_tensor_index s
                          ∧ access_dist_rest param access_type dev
                              (chunk_of s a access_type) sg = Ok t s').
  { unfold access_dist in Hrun. revert Hrun.
    mstep. rewrite Hattr. mstep. mstep.
    rewrite bool_decide_eq_false_2 by (rewrite Ht; done).
    mstep. unfold get_rank, get_world_size. mstep. mstep.
    intros Hrun. apply bind_ok_inv in Hrun as ([] & sg & Hgroup & Hrun).
    exists sg. split_and!; [| |exact Hrun].
    - case_bool_decide; [|minv Hgroup; reflexivity].
      stable_fact slots_only Hgroup ltac:(stable_go ltac:(slots_leaf)) Hso. exact Hso.
    - case_bool_decide; [|by minv Hgroup].
      stable_fact (keeps chunk_tensor_index) Hgroup
        ltac:(stable_by ltac:(exact eq_refl)) Hk.
      exact Hk. }
  destruct Hprefix as (sg & Hslots & Hidx & Hrest).
  unfold access_dist_rest in Hrest.
  apply bind_ok_inv in Hrest as ([] & s1 & Hres & Hrest).
  destruct (access_chunk_ok_some _ _ _ _ _ Hres) as [cid Hcid]. rewrite Hcid in *.
  stable_fact (keeps params) Hres ltac:(apply access_chunk_keeps_params) Hparams.
  stable_fact (keeps chunk_tensor_index) Hres ltac:(apply access_chunk_keeps_index) Hidx1.
  apply bind_ok_inv in Hrest as (c & sx & Hc & Hrest). minv Hc.
  apply bind_ok_inv in Hrest as ([] & sx & Hsome & Hrest). minv Hsome.
  apply bool_decide_eq_true_1 in Hsome as [sid Hpl].
  apply bind_ok_inv in Hrest as (dev' & sx & Hdev & Hrest).
  rewrite Hpl in Hdev. unfold payload_device in Hdev.
  apply bind_ok_inv in Hdev as (sid' & sy & Hsid & Hdev). minv Hsid.
  apply bind_ok_inv in Hdev as (sz & sy & Hsz & Hdev). minv Hsz.
  apply bind_ok_inv in Hdev as (st & sy & Hst & Hdev). minv Hst. minv Hdev.
  apply bind_ok_inv in Hrest as ([] & sx & Hsame & Hrest). minv Hsame.
  apply bool_decide_eq_true_1 in Hsame.
  apply attr_at_inv in Hattr as (p & Hp & Hpa).
  destruct (Hslots _ _ _ Hp Hpa) as (ag & Hpg & Hsame_attr).
  eapply (locate_and_compute_accessed s s1 s' param a ag); try done.
  - unfold keeps in *. congruence.
  - unfold attr_at. unfold keeps in Hparams. by rewrite Hparams, Hpg.
  - destruct Hsame_attr as (_ & _ & _ & Hd & Hg & _). by destruct access_type.
  - by destruct Hsame_attr as (? & _).
Qed.

(** ** Accessing twice, and accessing after a release *)

Lemma access_chunk_ok_needed i dev s u s1 :
  access_chunk (Some i) dev s = Ok u s1 →
  ∃ r, recently_needed (chunk_list s1) = filter (fun j => j ≠ i) r ++ [i].
Proof.
  unfold access_chunk. intros H.
  apply bind_ok_inv in H as (c & s0 & Hc & H). minv Hc.
  change (bind (lift_opt KeyError (Some i)) ?k s) with (k i s) in H. cbv beta in H.
  apply bind_ok_inv in H as ([] & s2 & _ & H). unfold mark_needed in H. minv H.
  by eexists.
Qed.

(** A chunk that is on the device and was the last one needed: making it
    resident changes nothing. *)
Lemma access_chunk_again i dev s c sid st r :
  chunks s !! i = Some c → payload c = Some sid →
  heap s !! sid = Some st → st_device st = dev →
  recently_needed (chunk_list s) = filter (fun j => j ≠ i) r ++ [i] →
  access_chunk (Some i) dev s = Ok tt s.
Proof.
  intros Hc Hpl Hst Hdev Hr. unfold access_chunk.
  mstep. mstep. rewrite Hpl. rewrite bind_assoc. mstep. rewrite Hst.
  rewrite bind_assoc. mstep. rewrite bool_decide_eq_true_2 by done. mstep.
  unfold mark_needed. cbn. f_equal.
  destruct s as [e lr dcs cl idx ps h tr]. destruct cl as [d tl rn]. cbn in *.
  unfold with_chunk_list. cbn. do 2 f_equal.
  rewrite Hr, filter_app, list_filter_filter.
  rewrite (filter_cons_False _ i) by (intros H; by apply H).
  rewrite filter_nil, app_nil_r. f_equal.
  apply list_filter_iff. intros j. tauto.
Qed.

Lemma computed_attr_again a t access_type :
  computed_attr (computed_attr a t access_type) t access_type
  = computed_attr a t access_type.
Proof. by destruct access_type. Qed.

Lemma with_params_insert_same s param p :
  params s !! param = Some p → with_params (insert param p) s = s.
Proof.
  intros Hp. destruct s as [e lr dcs cl idx ps h tr]. unfold with_params. cbn in *.
  f_equal. by apply insert_id.
Qed.

(** [access] is idempotent: repeated on the state it returned in, it returns
    the same window and leaves that state exactly as it is.  In particular
    the second call does not zero-fill. *)
Theorem access_twice_is_access_once s param a access_type dev t s' :
  attr_at s param = Some a → param_type a = CHUNK_BASED →
  access param access_type dev s = Ok t s' →
  access param access_type dev s' = Ok t s'.
Proof.
  intros Hattr Ht Hrun.
  destruct (chunk_of s a access_type) as [cid|] eqn:Hcid.
  2: { unfold access in Hrun. revert Hrun.
       mstep. rewrite Hattr. mstep. mstep.
       rewrite bool_decide_eq_false_2 by (rewrite Ht; done).
       mstep. by rewrite Hcid. }
  rewrite (access_parts _ _ a _ _ cid) in Hrun by done.
  apply bind_ok_inv in Hrun as ([] & s1 & Hres & Hrun).
  stable_fact (keeps params) Hres ltac:(apply access_chunk_keeps_params) Hparams.
  stable_fact (keeps chunk_tensor_index) Hres ltac:(apply access_chunk_keeps_index) Hidx.
  unfold keeps in Hparams, Hidx.
  destruct (access_chunk_ok_needed _ _ _ _ _ Hres) as (r & Hneeded).
  apply access_chunk_ok in Hres as (c1 & sid1 & st1 & Hc1 & Hpl1 & Hst1 & Hdev).
  apply locate_and_compute_ok_inv in Hrun
    as (p & a1 & info & c & sid & st & Hp & Hpa & Hinfo & Hnumel & Hc & Hpl & Hst
        & Hlen & -> & ->).
  assert (a1 = a) as ->.
  { unfold attr_at in Hattr. rewrite <- Hparams, Hp in Hattr. cbn in Hattr. congruence. }
  rewrite Hc1 in Hc. injection Hc as <-.
  rewrite Hpl1 in Hpl. injection Hpl as <-.
  rewrite Hst1 in Hst. injection Hst as <-.
  set (w := Narrow sid1 (start_offset info) (numel info)).
  set (s' := after_compute s1 param p a access_type sid1 st1 (start_offset info)
               (numel info)).
  destruct (after_compute_storage s1 param p a access_type sid1 st1
              (start_offset info) (numel info) Hst1) as (st' & Hst' & Hdev' & Hlen').
  fold s' in Hst'.
  assert (Hcl : chunk_list s' = chunk_list s1).
  { unfold s', after_compute. cbn. by case_bool_decide. }
  assert (Hidx' : chunk_tensor_index s' = chunk_tensor_index s1).
  { unfold s', after_compute. cbn. by case_bool_decide. }
  assert (Hp' : params s' !! param = Some (with_attr (computed_attr a w access_type) p)).
  { unfold s', after_compute. cbn. apply lookup_insert_eq. }
  assert (Hattr' : attr_at s' param = Some (computed_attr a w access_type)).
  { by eapply attr_at_lookup. }
  assert (Hid : tensor_id_of (computed_attr a w access_type) access_type
                = tensor_id_of a access_type) by by destruct access_type.
  rewrite (access_parts _ _ (computed_attr a w access_type) _ _ cid).
  2: done.
  2: by destruct access_type.
  2: { unfold chunk_of, index in *. by rewrite Hidx', Hidx, Hid. }
  assert (info_chunk_id info = cid) as <-.
  { pose proof Hinfo as Hinfo'. unfold chunk_of, index in Hcid, Hinfo'.
    rewrite <- Hidx, Hinfo' in Hcid. cbn in Hcid. by simplify_eq. }
  erewrite bind_run.
  2: { eapply (access_chunk_again _ _ _ c1 sid1 st' r); unfold chunks;
         rewrite ?Hcl; try done. by rewrite Hdev'. }
  erewrite (locate_and_compute_run s' param _ (computed_attr a w access_type)
              access_type _ c1 sid1 st' info); try done.
  - f_equal. unfold after_compute.
    rewrite bool_decide_eq_false_2.
    2: { unfold computed_attr. by rewrite status_of_set_status. }
    fold w. rewrite computed_attr_again.
    apply with_params_insert_same. rewrite Hp'. f_equal.
  - unfold index. by rewrite Hidx', Hid.
  - by destruct access_type.
  - unfold chunks. by rewrite Hcl.
  - by rewrite Hlen'.
Qed.

(** What the tensor keeps across a release.  After [release] with reset
    status [st], an [access] that returns, on whatever device, hands back a
    window that reads zeros if [st] is [FREE], and otherwise what that window
    of the chunk held before the release ([d] being the elements of the chunk
    then): the reset status alone decides whether the next access wipes the
    tensor.  The same through [release_data] and [access_data], and through
    [release_grad] and [access_grad]. *)
Theorem reset_status_decides_what_the_next_access_reads
    s param a access_type st dev cid d t s' :
  attr_at s param = Some a → param_type a = CHUNK_BASED →
  chunk_of s a access_type = Some cid →
  chunk_elems s cid = Some d →
  (release param access_type st ;; access param access_type dev) s = Ok t s' →
  (∃ sid info,
     tensor_id_to_info_map (index s) !! tensor_id_of a access_type = Some info
     ∧ t = Some (Narrow sid (start_offset info) (numel info))
     ∧ tensor_elems s' (Narrow sid (start_offset info) (numel info))
       = if bool_decide (st = FREE) then replicate (numel info) ezero
         else take (numel info) (drop (start_offset info) d))
  ∧ match access_type with
    | DATA => (release_data param st ;; access_data param dev) s = Ok t s'
    | GRAD => (release_grad param st ;; access_grad param dev) s = Ok t s'
    end.
Proof.
  intros Hattr Ht Hcid Hd Hrun. split; [|by destruct access_type].
  apply bind_ok_inv in Hrun as ([] & s1 & Hrel & Hrun).
  destruct (chunk_elems_inv _ _ _ Hd) as (c & sid0 & st0 & Hc & Hpl0 & Hst0 & Hd0).
  apply attr_at_inv in Hattr as (p & Hp & Hpa).
  rewrite (release_run _ _ _ _ _ _ _ _ Hp Hpa Ht Hcid Hc) in Hrel.
  injection Hrel as <-.
  set (p1 := released_param s p a access_type st) in *.
  set (s1 := with_params (insert param p1) s) in *.
  assert (Hp1 : params s1 !! param = Some p1) by apply lookup_insert_eq.
  assert (Hpa1 : ps_attr p1 = Some (attr_set_status a st access_type))
    by (unfold p1, released_param; by destruct access_type).
  assert (Hattr1 : attr_at s1 param = Some (attr_set_status a st access_type))
    by by eapply attr_at_lookup.
  assert (Hid : tensor_id_of (attr_set_status a st access_type) access_type
                = tensor_id_of a access_type) by by destruct access_type.
  rewrite (access_parts _ _ (attr_set_status a st access_type) _ _ cid) in Hrun.
  2: done.
  2: by destruct access_type.
  2: { unfold chunk_of in *. by rewrite Hid. }
  apply bind_ok_inv in Hrun as ([] & s2 & Hres & Hrun).
  stable_fact (keeps params) Hres ltac:(apply access_chunk_keeps_params) Hparams.
  stable_fact (keeps chunk_tensor_index) Hres ltac:(apply access_chunk_keeps_index) Hidx.
  stable_fact elems_kept Hres ltac:(apply access_chunk_elems_kept) Hkept.
  unfold keeps in Hparams, Hidx.
  assert (Hd2 : chunk_elems s2 cid = Some d) by by apply Hkept.
  apply locate_and_compute_ok_inv in Hrun
    as (p2 & a2 & info & c2 & sid & st2 & Hp2 & Hpa2 & Hinfo & Hnumel & Hc2 & Hpl2
        & Hst2 & Hlen & -> & ->).
  assert (a2 = attr_set_status a st access_type) as ->.
  { rewrite Hparams, Hp1 in Hp2. injection Hp2 as <-. congruence. }
  exists sid, info. split_and!; [|done|].
  - unfold index in *. rewrite Hidx, Hid in Hinfo. exact Hinfo.
  - destruct (after_compute_first_touch s2 param p2 (attr_set_status a st access_type)
                access_type sid st2 (start_offset info) (numel info) Hst2 Hlen)
      as [_ Hwindow _ _ _].
    rewrite Hwindow, status_of_set_status.
    destruct (bool_decide (st = FREE)); [done|]. unfold tensor_elems. rewrite Hst2.
    erewrite chunk_elems_intro in Hd2 by done. injection Hd2 as Heq. by rewrite Heq.
Qed.

(** ** [set_all_tensors_status_in_chunk] *)

Lemma set_status_other_slot s param st access_type q k u s' :
  set_status param st access_type s = Ok u s' →
  ¬ (param = q ∧ access_type = k) →
  status_at s' q k = status_at s q k.
Proof.
  intros Hrun Hne. apply set_status_spec in Hrun as (p & a & Hp & Ha & ->).
  unfold status_at. destruct (decide (param = q)) as [->|Hq].
  - rewrite attr_at_insert_eq. erewrite attr_at_lookup by done. cbn.
    rewrite status_of_set_status_ne; [done|]. intros ->. by apply Hne.
  - by rewrite attr_at_insert_ne.
Qed.

Lemma set_status_registered s param st access_type u s' q :
  set_status param st access_type s = Ok u s' →
  is_Some (attr_at s q) → is_Some (attr_at s' q).
Proof.
  intros Hrun Hq. apply set_status_spec in Hrun as (p & a & Hp & Ha & ->).
  destruct (decide (param = q)) as [->|Hne].
  - rewrite attr_at_insert_eq. by eexists.
  - by rewrite attr_at_insert_ne.
Qed.

(** One round of the loop. *)
Definition set_tensor_status (chunk_id : chunk_id) (new_status : TensorStatus)
    (info : TensorInfo) : Cmd unit :=
  old_status <- get_status (info_param info) (info_access_type info) ;;
  update_status (Some chunk_id) old_status new_status ;;
  set_status (info_param info) new_status (info_access_type info).

Lemma set_tensor_status_run i st info s c a :
  chunks s !! i = Some c → attr_at s (info_param info) = Some a →
  ∃ s', set_tensor_status i st info s = Ok tt s' ∧ chunk_list s' = chunk_list s
        ∧ set_status (info_param info) st (info_access_type info) s = Ok tt s'.
Proof.
  intros Hc Ha. unfold set_tensor_status.
  rewrite (bind_run _ _ _ _ _ (get_status_run _ _ _ _ Ha)).
  rewrite (bind_run _ _ _ _ _ (update_status_run _ _ _ _ _ Hc)).
  destruct (attr_at_inv _ _ _ Ha) as (p & Hp & Hpa).
  rewrite (set_status_run _ _ _ _ _ _ Hp Hpa). by eexists.
Qed.

Lemma set_tensor_status_loop_run i st infos s c :
  chunks s !! i = Some c →
  Forall (fun info => is_Some (attr_at s (info_param info))) infos →
  ∃ s', for_each infos (set_tensor_status i st) s = Ok tt s'.
Proof.
  intros Hc Hreg. revert s Hc Hreg.
  induction infos as [|info infos IH]; intros s Hc Hreg; [by eexists|].
  apply Forall_cons in Hreg as [[a Ha] Hreg].
  destruct (set_tensor_status_run i st info s c a Hc Ha) as (s1 & Hrun & Hcl & Hset).
  cbn [for_each]. rewrite (bind_run _ _ _ _ _ Hrun).
  apply IH.
  - unfold chunks. by rewrite Hcl.
  - eapply Forall_impl; [exact Hreg|]. intros info' Hi. cbn in Hi.
    by eapply set_status_registered.
Qed.

Lemma set_tensor_status_loop_frame i st infos s u s' q k :
  for_each infos (set_tensor_status i st) s = Ok u s' →
  Forall (fun info => ¬ (info_param info = q ∧ info_access_type info = k)) infos →
  status_at s' q k = status_at s q k.
Proof.
  revert s. induction infos as [|info infos IH]; intros s Hrun Hne.
  - cbn in Hrun. by simplify_eq.
  - apply Forall_cons in Hne as [Hne Hrest]. cbn [for_each] in Hrun.
    apply bind_ok_inv in Hrun as ([] & s1 & Hhead & Hrun).
    rewrite (IH _ Hrun Hrest). unfold set_tensor_status in Hhead.
    apply bind_ok_inv in Hhead as (old & sa & Hold & Hhead).
    unfold get_status in Hold. minv Hold.
    apply bind_ok_inv in Hhead as ([] & sb & Hupd & Hhead).
    unfold update_status in Hupd. minv Hupd.
    by eapply set_status_other_slot.
Qed.

(** [set_all_tensors_status_in_chunk(chunk_id, new_status)] on a chunk of
    the chunk list whose tensors all belong to registered parameters returns,
    with every tensor mapped into the chunk at [new_status].  It "has nothing
    to do with whether the payload of the chunk is allocated or not", as its
    docstring says: chunk list, storages, index and trace are as before.  The
    status slot of every tensor that is not mapped into the chunk is as
    before, and so are the bound tensors, ids and element counts of all
    parameters. *)
Theorem set_all_tensors_status_in_chunk_sets_the_chunk_only s i c st :
  chunks s !! i = Some c →
  (∀ info, info ∈ tensor_info_in_order (index s) i →
           is_Some (attr_at s (info_param info))) →
  ∃ s',
    set_all_tensors_status_in_chunk i st s = Ok tt s'
    ∧ chunk_all_at st i s'
    ∧ chunk_list s' = chunk_list s ∧ heap s' = heap s
    ∧ chunk_tensor_index s' = chunk_tensor_index s ∧ trace s' = trace s
    ∧ slots_only s s'
    ∧ ∀ q k,
        (∀ info, info ∈ tensor_info_in_order (index s) i →
                 ¬ (info_param info = q ∧ info_access_type info = k)) →
        status_at s' q k = status_at s q k.
Proof.
  intros Hc Hreg.
  destruct (set_tensor_status_loop_run i st (tensor_info_in_order (index s) i) s c Hc)
    as (s' & Hloop); [by apply Forall_forall|].
  assert (Hrun : set_all_tensors_status_in_chunk i st s = Ok tt s').
  { unfold set_all_tensors_status_in_chunk, generate_tensor_info_in_order.
    mstep. exact Hloop. }
  exists s'. split_and!; [done | by eapply set_all_tensors_status_ok | | | | | |].
  - stable_fact (keeps chunk_list) Hrun ltac:(stable_by ltac:(exact eq_refl)) H1.
    exact H1.
  - stable_fact (keeps heap) Hrun ltac:(stable_by ltac:(exact eq_refl)) H1.
    exact H1.
  - stable_fact (keeps chunk_tensor_index) Hrun ltac:(stable_by ltac:(exact eq_refl)) H1.
    exact H1.
  - stable_fact (keeps trace) Hrun ltac:(stable_by ltac:(exact eq_refl)) H1.
    exact H1.
  - stable_fact slots_only Hrun ltac:(stable_go ltac:(slots_leaf)) H1. exact H1.
  - intros q k Hne. eapply set_tensor_status_loop_frame; [exact Hloop|].
    by apply Forall_forall.
Qed.

(** ** The pins of a distributed access, call by call *)

Definition is_pin_call (ev : Event) : bool :=
  match ev with EvPin _ | EvUnpin _ => true | _ => false end.

Lemma filter_false_nil (P : Event → bool) t :
  Forall (fun ev => P ev = false) t → filter P t = [].
Proof.
  induction 1 as [|ev t Hev _ IH]; [done|].
  rewrite filter_cons_False; [done|]. rewrite Hev. exact id.
Qed.

Lemma is_residency_no_pin_call ev : is_residency ev → is_pin_call ev = false.
Proof. by intros [(i & d & ->)|(i & d & ->)]. Qed.

Lemma filter_pin_calls_pins (l : list chunk_id) :
  filter is_pin_call (EvPin <$> l) = EvPin <$> l.
Proof.
  induction l as [|i l IH]; [done|].
  rewrite !fmap_cons, filter_cons_True by done. by rewrite IH.
Qed.

Lemma filter_pin_calls_unpins (l : list chunk_id) :
  filter is_pin_call (EvUnpin <$> l) = EvUnpin <$> l.
Proof.
  induction l as [|i l IH]; [done|].
  rewrite !fmap_cons, filter_cons_True by done. by rewrite IH.
Qed.

(** The preparation loop of [_fetch_remote_chunks] pins the remote chunks,
    in group order, and makes no other pin or unpin. *)
Lemma fetch_loop_pin_calls l local dev s buff s' :
  for_collect l (fun chunk_id =>
      (if bool_decide (chunk_id ≠ local) then
         c <- get_chunk (Some chunk_id) ;;
         prepare_device dev (get_chunk_space c) ;;
         allocate_payload chunk_id dev ;;
         pin chunk_id
       else ret tt) ;;
      set_all_tensors_status_in_chunk chunk_id HOLD ;;
      c <- get_chunk (Some chunk_id) ;;
      ret (payload c)) s = Ok buff s' →
  ∃ t, trace s' = trace s ++ t
       ∧ filter is_pin_call t = EvPin <$> filter (fun i => i ≠ local) l.
Proof.
  revert s buff. induction l as [|x l IH]; intros s buff H; cbn [for_collect] in H.
  - minv H. exists []. by rewrite app_nil_r.
  - apply bind_ok_inv in H as (y & s1 & Hx & H).
    apply bind_ok_inv in H as (ys & s2 & Hl & H). minv H.
    apply IH in Hl as (tl & Htl & HFl).
    apply bind_ok_inv in Hx as ([] & sa & Hif & Hx).
    assert (Hrest : trace s1 = trace sa).
    { stable_fact (keeps trace) Hx ltac:(stable_by ltac:(exact eq_refl)) Hk. exact Hk. }
    case_bool_decide as Hne.
    + apply bind_ok_inv in Hif as (c & sb & Hc & Hif). minv Hc.
      apply bind_ok_inv in Hif as ([] & sc & Hprep & Hif).
      apply bind_ok_inv in Hif as ([] & sd & Halloc & Hpin).
      stable_fact (emits is_move) Hprep ltac:(apply prepare_device_emits) Hm.
      destruct Hm as (tm & Htm & HFm).
      assert (Ha : trace sd = trace sc ++ [EvAllocatePayload x dev]).
      { unfold allocate_payload in Halloc. by minv Halloc. }
      apply pin_ok in Hpin.
      exists (tm ++ [EvAllocatePayload x dev; EvPin x] ++ tl). split.
      * rewrite Htl, Hrest, Hpin, Ha, Htm. by rewrite <- !(assoc_L (++)).
      * rewrite !filter_app, (filter_false_nil _ tm), HFl.
        2: { eapply Forall_impl; [exact HFm|]. by intros ev (i & d & ->). }
        rewrite filter_cons_False by exact id.
        rewrite filter_cons_True by done. rewrite filter_nil.
        by rewrite (filter_cons_True (fun i => i ≠ local)) by done.
    + minv Hif. exists tl. split; [by rewrite Htl, Hrest|].
      rewrite HFl. rewrite (filter_cons_False (fun i => i ≠ local)); [done|].
      intros H. apply H. by apply dec_stable.
Qed.

(** A gathering [_fetch_remote_chunks]: the pins of the remote chunks, then
    the unpins of all chunks of the group, the local one included. *)
Lemma fetch_gather_pin_calls l local dev s u s' :
  _fetch_remote_chunks l local dev s = Ok u s' →
  released_in s l = true →
  ∃ t, trace s' = trace s ++ t
       ∧ filter is_pin_call t
         = (EvPin <$> filter (fun i => i ≠ local) l) ++ (EvUnpin <$> l).
Proof.
  unfold _fetch_remote_chunks. intros H Hrel.
  apply bind_ok_inv in H as (b & s0 & Hh & H).
  apply has_released_chunk_ok in Hh as (-> & -> & _). rewrite Hrel in H. cbn [negb] in H.
  apply bind_ok_inv in H as (buff & s1 & Hloop & H).
  apply bind_ok_inv in H as (first_payload & sx & Hfirst & H). minv Hfirst.
  apply bind_ok_inv in H as (first_sid & sx & Hsid & H). minv Hsid.
  apply bind_ok_inv in H as ([] & s2 & Hunpin & H).
  apply bind_ok_inv in H as (init & s3 & Hinit & H). minv Hinit.
  apply bind_ok_inv in H as ([] & s4 & Hassert & H). minv Hassert.
  apply bind_ok_inv in H as (lc & s5 & Hlc & H). minv Hlc.
  destruct (all_gather_ok _ _ _ _ _ H) as (outputs & input & Htr & _).
  destruct (fetch_loop_pin_calls _ _ _ _ _ _ Hloop) as (t2 & Ht2 & HF2).
  pose proof (for_each_unpin_ok _ _ _ _ Hunpin) as Hu.
  exists (t2 ++ (EvUnpin <$> l) ++ [EvAllGather outputs input]). split.
  - rewrite Htr, Hu, Ht2. by rewrite <- !(assoc_L (++)).
  - rewrite !filter_app, HF2, filter_pin_calls_unpins.
    rewrite filter_cons_False by exact id. by rewrite filter_nil, app_nil_r.
Qed.

(** The pins and unpins of a distributed access with several processes that
    returns, in the order of the calls.  Without a gather: the local chunk is
    pinned and unpinned.  With a gather: the local chunk is pinned; every
    remote chunk is pinned; every chunk of the group is unpinned, the local
    one among them; and the local chunk is unpinned once more.  So a
    gathering access unpins the local chunk once more often than it pins
    it. *)
Theorem pin_calls_of_access_dist s param access_type dev cid l local t s' :
  dist_target s param access_type cid l local →
  1 < world_size (env s) →
  access_dist param access_type dev s = Ok t s' →
  filter is_pin_call (new_events s s')
  = if released_in (fetch_time_state s local dev) l
    then [EvPin local] ++ (EvPin <$> filter (fun i => i ≠ local) l)
         ++ (EvUnpin <$> l) ++ [EvUnpin local]
    else [EvPin local; EvUnpin local].
Proof.
  intros Htarget Hws Hrun.
  rewrite (access_dist_parts _ _ _ _ _ _ _ Htarget Hws) in Hrun.
  apply bind_ok_inv in Hrun as (u & s4 & Hgroup & Hrest). unfold group_step in Hgroup.
  apply bind_ok_inv in Hgroup as (u1 & s1 & Hrun1 & Hgroup).
  apply bind_ok_inv in Hgroup as (u2 & s2 & Hrun2 & Hgroup).
  apply bind_ok_inv in Hgroup as (u3 & s3 & Hrun3 & Hrun4).
  rewrite (fetch_time_state_run _ _ _ _ _ _ _ Hrun1 Hrun2).
  stable_fact (emits (fun ev => is_move ev ∨ ∃ d, ev = EvAllocatePayload local d))
    Hrun1 ltac:(apply access_chunk_emits) He1.
  destruct He1 as (t1 & Ht1 & HF1).
  apply pin_ok in Hrun2. apply unpin_ok in Hrun4.
  stable_fact (emits is_residency) Hrest ltac:(apply access_dist_rest_residency) He5.
  destruct He5 as (t5 & Ht5 & HF5).
  assert (Hn1 : filter is_pin_call t1 = []).
  { apply filter_false_nil. eapply Forall_impl; [exact HF1|].
    by intros ev [(i & d & ->)|(d & ->)]. }
  assert (Hn5 : filter is_pin_call t5 = []).
  { apply filter_false_nil. eapply Forall_impl; [exact HF5|].
    apply is_residency_no_pin_call. }
  destruct (released_in s2 l) eqn:Hrel.
  - destruct (fetch_gather_pin_calls _ _ _ _ _ _ Hrun3 Hrel) as (t3 & Ht3 & HF3).
    unfold new_events. rewrite Ht5, Hrun4, Ht3, Hrun2, Ht1.
    rewrite <- !(assoc_L (++)), drop_app_length.
    rewrite !filter_app, Hn1, Hn5, HF3. cbn [app].
    rewrite !(filter_cons_True is_pin_call) by done.
    rewrite filter_nil, app_nil_r. cbn. by rewrite <- !(assoc_L (++)).
  - destruct (fetch_quiet l local dev s2 Hrel) as [Hst _].
    rewrite Hrun3 in Hst. cbn in Hst. subst s3.
    unfold new_events. rewrite Ht5, Hrun4, Hrun2, Ht1.
    rewrite <- !(assoc_L (++)), drop_app_length.
    rewrite !filter_app, Hn1, Hn5. cbn [app].
    rewrite !(filter_cons_True is_pin_call) by done.
    by rewrite filter_nil.
Qed.

(** ** The calls of a distributed release *)

(** What the release loop of [release_dist] calls: every chunk of the group
    is unpinned, and every chunk but the local one then has its payload
    released. *)
Definition release_calls (local : chunk_id) (l : list chunk_id) : list Event :=
  l ≫= fun i => EvUnpin i :: if bool_decide (i ≠ local) then [EvReleasePayload i] else [].

Lemma release_payload_trace i s u s' :
  release_payload i s = Ok u s' → trace s' = trace s ++ [EvReleasePayload i].
Proof. unfold release_payload. intros H. by minv H. Qed.

Lemma release_remote_calls l local s u s' :
  release_remote l local s = Ok u s' → trace s' = trace s ++ release_calls local l.
Proof.
  unfold release_remote. revert s.
  induction l as [|i l IH]; intros s H; cbn [for_each] in H.
  - minv H. unfold release_calls. cbn. by rewrite app_nil_r.
  - apply bind_ok_inv in H as ([] & s1 & Hi & H). apply IH in H. rewrite H.
    apply bind_ok_inv in Hi as ([] & s2 & Hunpin & Hi). apply unpin_ok in Hunpin.
    unfold release_calls. rewrite bind_cons. fold (release_calls local l).
    case_bool_decide.
    + apply bind_ok_inv in Hi as ([] & s3 & Hrel & Hset).
      apply release_payload_trace in Hrel.
      stable_fact (keeps trace) Hset ltac:(stable_by ltac:(exact eq_refl)) Hk.
      unfold keeps in Hk. rewrite Hk, Hrel, Hunpin. by rewrite <- !(assoc_L (++)).
    + minv Hi. rewrite Hunpin. by rewrite <- !(assoc_L (++)).
Qed.

Lemma collect_inputs_calls dev l s pls s' :
  for_collect l (collect_input dev) s = Ok pls s' →
  ∃ t, trace s' = trace s ++ t
       ∧ filter is_pin_call t = EvPin <$> l
       ∧ Forall (fun ev => is_residency ev ∨ ∃ i, ev = EvPin i) t.
Proof.
  revert s pls. induction l as [|i l IH]; intros s pls H; cbn [for_collect] in H.
  - minv H. exists []. by rewrite app_nil_r.
  - apply bind_ok_inv in H as (pl & s1 & Hhead & H).
    apply bind_ok_inv in H as (pls' & s2 & Hrest & H). minv H.
    apply IH in Hrest as (tl & Htl & HFl & Hkl).
    unfold collect_input in Hhead.
    apply bind_ok_inv in Hhead as ([] & sa & Haccess & Hhead).
    apply bind_ok_inv in Hhead as ([] & sb & Hpin & Hhead).
    apply bind_ok_inv in Hhead as (c & sc & Hc & Hhead). minv Hc. minv Hhead.
    stable_fact (emits (fun ev => is_move ev ∨ ∃ d, ev = EvAllocatePayload i d))
      Haccess ltac:(apply access_chunk_emits) He.
    destruct He as (ta & Hta & HFa). apply pin_ok in Hpin.
    assert (Hres : Forall is_residency ta).
    { eapply Forall_impl; [exact HFa|]. intros ev [Hm|(d & ->)]; [by left|].
      right. by eexists _, _. }
    exists (ta ++ [EvPin i] ++ tl). split_and!.
    + rewrite Htl, Hpin, Hta. by rewrite <- !(assoc_L (++)).
    + rewrite !filter_app, (filter_false_nil _ ta), HFl.
      2: { eapply Forall_impl; [exact Hres|]. apply is_residency_no_pin_call. }
      by rewrite filter_cons_True by done.
    + apply Forall_app. split; [eapply Forall_impl; [exact Hres|]; by left|].
      apply Forall_app. split; [|done].
      apply Forall_cons_2; [right; by eexists | apply Forall_nil_2].
Qed.

Lemma reduce_group_calls l local ws s u s' :
  reduce_group l local ws s = Ok u s' →
  ∃ t out inputs,
    trace s' = trace s ++ t ++ [EvReduceScatter out inputs]
    ∧ filter is_pin_call t = EvPin <$> l
    ∧ Forall (fun ev => is_residency ev ∨ ∃ i, ev = EvPin i) t
    ∧ length inputs = world_size (env s).
Proof.
  unfold reduce_group. intros Hrun.
  apply bind_ok_inv in Hrun as (c0 & s0 & Hget & Hrun). minv Hget.
  apply bind_ok_inv in Hrun as ([] & s0 & Hassert & Hrun). minv Hassert.
  apply bind_ok_inv in Hrun as (cuda & s0 & Hcuda & Hrun). minv Hcuda.
  apply bind_ok_inv in Hrun as (pls & s2 & Hloop & Hrun).
  apply bind_ok_inv in Hrun as (c2 & s0 & Hget2 & Hrun). minv Hget2.
  apply bind_ok_inv in Hrun as ([] & s3 & Hreduce & Hrun).
  apply bind_ok_inv in Hrun as (c3 & s0 & Hget3 & Hdiv). minv Hget3.
  destruct (collect_inputs_calls _ _ _ _ _ Hloop) as (t & Ht & HF & Hk).
  stable_fact (keeps env) Hloop
    ltac:(apply stable_for_collect; [tc_solve | intros ?; apply collect_input_keeps_env])
    Henv.
  stable_fact (keeps trace) Hdiv ltac:(stable_by ltac:(exact eq_refl)) Hktr.
  unfold keeps in Henv, Hktr.
  unfold reduce_scatter in Hreduce.
  apply bind_ok_inv in Hreduce as (out & s0 & Hout & Hreduce). minv Hout.
  apply bind_ok_inv in Hreduce as (inputs & s0 & Hin & Hreduce). minv Hin.
  apply bind_ok_inv in Hreduce as (sx & s0 & Hsx & Hreduce). minv Hsx.
  case_bool_decide as Hlen; [|discriminate Hreduce].
  apply bind_ok_inv in Hreduce as (mine & s0 & Hmine & Hreduce). minv Hmine.
  apply bind_ok_inv in Hreduce as (total & s0 & Htotal & Hreduce). minv Htotal.
  minv Hreduce.
  exists t, out, inputs. split_and!; [|done..|by rewrite <- Henv].
  rewrite Hktr. cbn. rewrite Ht. by rewrite <- !(assoc_L (++)).
Qed.

(** The calls of a [release_dist] with several processes that returns.  If
    some chunk of the group is not ready it makes none.  If the group is
    ready and no reduction is asked for, it unpins every chunk of the group
    and releases the payload of every chunk but the local one, in group
    order, and that is all: the chunks are unpinned without having been
    pinned.  With the reduction, that is preceded by making every chunk of
    the group resident and pinning it, in group order, and by one
    reduce-scatter over as many inputs as there are processes. *)
Theorem calls_of_release_dist
    s param a access_type st stage reduce cid l local s1 s' :
  attr_at s param = Some a → param_type a = CHUNK_BASED →
  chunk_of s a access_type = Some cid →
  dist_initialized (env s) = true →
  stage = FWD ∨ stage = BWD →
  comm_group_of (index s) cid = Some l → l !! rank (env s) = Some local →
  1 < world_size (env s) →
  Forall (fun i => is_Some (chunks s !! i)) l →
  release param access_type st s = Ok tt s1 →
  release_dist param access_type st stage reduce s = Ok tt s' →
  if group_ready s1 stage l then
    if reduce then
      ∃ t out inputs,
        new_events s s' = t ++ [EvReduceScatter out inputs] ++ release_calls local l
        ∧ filter is_pin_call t = EvPin <$> l
        ∧ Forall (fun ev => is_residency ev ∨ ∃ i, ev = EvPin i) t
        ∧ length inputs = world_size (env s)
    else new_events s s' = release_calls local l
  else new_events s s' = [].
Proof.
  intros Hattr Ht Hc Hinit Hstage Hg Hl Hws Hchunks Hrel Hrun.
  stable_fact (keeps env) Hrel ltac:(apply release_keeps_env) Henv.
  stable_fact (keeps chunk_list) Hrel ltac:(apply release_keeps_chunk_list) Hcl.
  stable_fact (keeps trace) Hrel ltac:(apply release_keeps_trace) Htr.
  unfold keeps in Henv, Hcl, Htr.
  assert (Hdist : release_dist param access_type st stage reduce s
                  = collapse_step stage reduce l local s1).
  { rewrite (release_dist_parts _ _ _ _ _ _ _ _ _ _ Hattr Ht Hc Hinit Hstage Hg Hl).
    apply (bind_run _ (fun _ => collapse_step stage reduce l local) _ tt).
    by rewrite <- Hc, <- (release_parts _ _ _ _ _ Hattr Ht). }
  assert (Hparts := collapse_step_parts stage reduce l local s1).
  rewrite Henv in Hparts. specialize (Hparts Hws Hstage).
  unfold chunks in Hparts. rewrite Hcl in Hparts. specialize (Hparts Hchunks).
  rewrite Hdist, Hparts in Hrun. clear Hdist Hparts.
  unfold new_events. rewrite <- Htr.
  destruct (group_ready s1 stage l).
  2: { injection Hrun as <-. apply drop_all. }
  apply bind_ok_inv in Hrun as ([] & s2 & Hreduce & Hremote).
  apply release_remote_calls in Hremote. rewrite Hremote.
  destruct reduce.
  - destruct (reduce_group_calls _ _ _ _ _ _ Hreduce)
      as (t & out & inputs & Ht2 & HF & Hk & Hn).
    exists t, out, inputs. split_and!; [|done..|by rewrite <- Henv].
    rewrite Ht2, <- !(assoc_L (++)). by rewrite drop_app_length.
  - minv Hreduce. by rewrite drop_app_length.
Qed.

(** ** After a collapse the group is gathered again *)

Definition stays_without (i : chunk_id) : relation St :=
  fun s s' => without_payload s i → without_payload s' i.

#[local] Instance stays_without_preorder i : PreOrder (stays_without i).
Proof. split; [intros s H; exact H | intros s1 s2 s3 H1 H2 H; by apply H2, H1]. Qed.

Lemma stays_without_same i s s' : chunks s' = chunks s → stays_without i s s'.
Proof. intros H. unfold stays_without, without_payload, payload_of. by rewrite H. Qed.

Lemma pin_stays_without i j : stable (stays_without i) (pin j).
Proof.
  intros s. unfold pin. apply related_get_chunk; [tc_solve|]. intros c Hc Hw.
  cbn. unfold without_payload, payload_of, chunks in *. cbn.
  destruct (decide (j = i)) as [->|Hne].
  - rewrite lookup_insert_eq. rewrite Hc in Hw. exact Hw.
  - by rewrite lookup_insert_ne.
Qed.

(** A chunk without storage is not moved. *)
Lemma chunk_move_stays_without i j target : stable (stays_without i) (chunk_move j target).
Proof.
  intros s. unfold chunk_move. apply related_get_chunk; [tc_solve|]. intros c Hc Hw.
  cbn. destruct (payload c) as [sid|] eqn:Hp; cbn; [|done].
  destruct (heap s !! sid) as [st|]; cbn; [|done].
  unfold without_payload, payload_of, chunks in *. cbn.
  destruct (decide (j = i)) as [->|Hne].
  - rewrite Hc in Hw. cbn in Hw. congruence.
  - by rewrite lookup_insert_ne.
Qed.

Lemma allocate_payload_stays_without i j dev :
  j ≠ i → stable (stays_without i) (allocate_payload j dev).
Proof.
  intros Hne s. unfold allocate_payload. apply related_get_chunk; [tc_solve|].
  intros c Hc Hw. cbn. unfold without_payload, payload_of, chunks in *. cbn.
  by rewrite lookup_insert_ne.
Qed.

(** Making one chunk resident gives no other chunk storage. *)
Lemma access_chunk_stays_without i j dev :
  j ≠ i → stable (stays_without i) (access_chunk (Some j) dev).
Proof.
  intros Hne.
  stable_go ltac:(first
    [ by apply allocate_payload_stays_without
    | apply chunk_move_stays_without
    | apply stable_make_room; [tc_solve | intros ? ?; apply chunk_move_stays_without]
    | apply stable_modify; intros ?; apply stays_without_same; exact eq_refl ]).
Qed.

Lemma without_payload_released s i l :
  without_payload s i → i ∈ l → released_in s l = true.
Proof.
  intros Hw Hi. unfold released_in. apply existsb_exists. exists i.
  split; [by apply list_elem_of_In|].
  unfold without_payload, payload_of in Hw.
  destruct (chunks s !! i) as [c|]; [cbn in Hw | done].
  apply bool_decide_eq_true_2, chunk_status_released. congruence.
Qed.

Lemma registrations_kept_attr s s' param a access_type :
  registrations_kept s s' → attr_at s param = Some a →
  ∃ a', attr_at s' param = Some a' ∧ param_type a' = param_type a
        ∧ tensor_id_of a' access_type = tensor_id_of a access_type.
Proof.
  intros Hk Ha. specialize (Hk param). apply attr_at_inv in Ha as (p & Hp & Hpa).
  rewrite Hp in Hk. cbn in Hk. unfold registration in Hk. rewrite Hpa in Hk. cbn in Hk.
  destruct (params s' !! param) as [p'|] eqn:Hp'; [cbn in Hk | done].
  destruct (ps_attr p') as [a'|] eqn:Hpa'; [cbn in Hk | done].
  exists a'. split; [by eapply attr_at_lookup|]. simplify_eq.
  split; [done | by destruct access_type].
Qed.

(** A collapse and the next access.  When a [release_dist] with several
    processes has collapsed a group that has a chunk other than the local
    one, a distributed access to any tensor of the group that returns issues
    exactly one all-gather: the group is materialised anew. *)
Theorem after_a_collapse_the_next_access_gathers
    s param a access_type st stage reduce cid l local s1 s'
    remote param2 access_type2 cid2 dev t s'' :
  attr_at s param = Some a → param_type a = CHUNK_BASED →
  chunk_of s a access_type = Some cid →
  dist_initialized (env s) = true →
  stage = FWD ∨ stage = BWD →
  comm_group_of (index s) cid = Some l → l !! rank (env s) = Some local →
  1 < world_size (env s) →
  Forall (fun i => is_Some (chunks s !! i)) l →
  release param access_type st s = Ok tt s1 →
  group_ready s1 stage l = true →
  release_dist param access_type st stage reduce s = Ok tt s' →
  remote ∈ l → remote ≠ local →
  dist_target s param2 access_type2 cid2 l local →
  access_dist param2 access_type2 dev s' = Ok t s'' →
  length (filter is_all_gather (new_events s' s'')) = 1.
Proof.
  intros Hattr Ht Hc Hinit Hstage Hg Hl Hws Hchunks Hrel Hready Hrun Hin Hne
    Htarget Haccess.
  stable_fact (keeps env) Hrun
    ltac:(stable_by ltac:(exact eq_refl)) Henv'.
  stable_fact (keeps chunk_tensor_index) Hrun
    ltac:(apply release_dist_keeps_index) Hidx'.
  stable_fact registrations_kept Hrun ltac:(stable_go ltac:(registration_leaf)) Hreg.
  unfold keeps in Henv', Hidx'.
  assert (Htarget' : dist_target s' param2 access_type2 cid2 l local).
  { eapply dist_target_frame; [exact Htarget | done..|].
    intros a2 Ha2. by eapply registrations_kept_attr. }
  assert (Hw : without_payload s' remote).
  { stable_fact (keeps env) Hrel ltac:(apply release_keeps_env) Henv.
    stable_fact (keeps chunk_list) Hrel ltac:(apply release_keeps_chunk_list) Hcl.
    unfold keeps in Henv, Hcl.
    assert (Hdist : release_dist param access_type st stage reduce s
                    = collapse_step stage reduce l local s1).
    { rewrite (release_dist_parts _ _ _ _ _ _ _ _ _ _ Hattr Ht Hc Hinit Hstage Hg Hl).
      apply (bind_run _ (fun _ => collapse_step stage reduce l local) _ tt).
      by rewrite <- Hc, <- (release_parts _ _ _ _ _ Hattr Ht). }
    assert (Hparts := collapse_step_parts stage reduce l local s1).
    rewrite Henv in Hparts. specialize (Hparts Hws Hstage).
    unfold chunks in Hparts. rewrite Hcl in Hparts. specialize (Hparts Hchunks).
    rewrite Hdist, Hparts, Hready in Hrun.
    apply bind_ok_inv in Hrun as ([] & s2 & _ & Hremote).
    apply release_remote_ok in Hremote as (_ & _ & Hall).
    rewrite Forall_forall in Hall. by apply Hall. }
  assert (Hws' : 1 < world_size (env s')) by by rewrite Henv'.
  destruct (access_dist_ok_gathers _ _ _ _ _ _ _ _ _ Htarget' Hws' Haccess) as [-> _].
  rewrite (without_payload_released _ remote); [done| |done].
  unfold fetch_time_state.
  assert (Hst : stable (stays_without remote) (access_chunk (Some local) dev ;; pin local)).
  { apply stable_bind; [tc_solve | apply access_chunk_stays_without; congruence
                       | intros _; apply pin_stays_without]. }
  by apply Hst.
Qed.

(** ** The statuses a gathering access leaves *)

Lemma after_compute_other_slot s param p a access_type sid st start len q k :
  params s !! param = Some p → ps_attr p = Some a →
  ¬ (param = q ∧ access_type = k) →
  status_at (after_compute s param p a access_type sid st start len) q k
  = status_at s q k.
Proof.
  intros Hp Hpa Hne. unfold after_compute.
  set (s0 := if bool_decide (status_of a access_type = FREE)
             then with_heap (insert sid (zero_storage st start len)) s else s).
  assert (Hs0 : params s0 = params s) by (unfold s0; by case_bool_decide).
  assert (Hat : attr_at s0 q = attr_at s q) by (unfold attr_at; by rewrite Hs0).
  unfold status_at. destruct (decide (param = q)) as [->|Hq].
  - rewrite attr_at_insert_eq. cbn.
    erewrite (attr_at_lookup s) by done. cbn. unfold computed_attr.
    rewrite status_of_set_status_ne by (intros ->; by apply Hne).
    by destruct access_type, k.
  - rewrite attr_at_insert_ne by done. by rewrite Hat.
Qed.

(** A distributed access with several processes that gathers and returns
    leaves the requested tensor at [COMPUTE] and every other tensor mapped
    into a chunk of the group at [HOLD], whatever status it had at the call:
    the gather resets the statuses of the whole group. *)
Theorem a_gather_resets_the_group_to_hold
    s param access_type dev cid l local t s' :
  dist_target s param access_type cid l local →
  1 < world_size (env s) →
  released_in (fetch_time_state s local dev) l = true →
  access_dist param access_type dev s = Ok t s' →
  status_at s' param access_type = Some COMPUTE
  ∧ ∀ i info,
      i ∈ l → info ∈ tensor_info_in_order (index s) i →
      ¬ (info_param info = param ∧ info_access_type info = access_type) →
      status_at s' (info_param info) (info_access_type info) = Some HOLD.
Proof.
  intros Htarget Hws Hrel Hrun.
  rewrite (access_dist_parts _ _ _ _ _ _ _ Htarget Hws) in Hrun.
  apply bind_ok_inv in Hrun as ([] & sg & Hgroup & Hrest).
  pose proof (group_step_gather_marks_hold _ _ _ _ _ _ Hgroup Hrel) as Hhold.
  stable_fact (keeps chunk_tensor_index) Hgroup ltac:(apply group_step_keeps_index) Hidx.
  rewrite access_dist_rest_eq in Hrest.
  apply bind_ok_inv in Hrest as ([] & s1 & Hres & Hrest).
  stable_fact (keeps params) Hres ltac:(apply access_chunk_keeps_params) Hparams.
  unfold keeps in Hidx, Hparams.
  apply locate_and_compute_ok_inv in Hrest
    as (p & a & info0 & c & sid & st & Hp & Hpa & _ & _ & _ & _ & _ & _ & _ & ->).
  split.
  - unfold status_at. rewrite after_compute_attr. cbn. unfold computed_attr.
    by rewrite status_of_set_status.
  - intros i info Hi Hinfo Hne.
    rewrite after_compute_other_slot by (done || (intros [Hq Hk]; by apply Hne)).
    rewrite Forall_forall in Hhold. specialize (Hhold i Hi info).
    unfold status_at, attr_at in *. rewrite Hparams. apply Hhold.
    unfold index in *. by rewrite Hidx.
Qed.

(** ** Registering and finding *)

Lemma try_insert_true_inv s i param_list access_type items s' :
  attrs_in s param_list = Some items →
  try_insert_tensor_list i param_list access_type s = Ok true s' →
  s' = with_index (register_infos i
         (layout i access_type (chunk_used (index s) i) items)) s
  ∧ fits (index s) i items.
Proof.
  intros Hitems H. unfold try_insert_tensor_list in H.
  rewrite (bind_run _ _ _ _ _ (attrs_of_run _ _ _ Hitems)) in H.
  apply bind_ok_inv in H as (sx & s1 & Hsx & H). minv Hsx.
  apply bind_ok_inv in H as (tids & s1 & Htids & H). minv Htids.
  case_bool_decide as Hfits; [|by minv H].
  apply bind_ok_inv in H as ([] & s1 & Hmod & H). minv Hmod. minv H. done.
Qed.

Lemma layout_lookup i access_type start items j param a :
  items !! j = Some (param, a) →
  layout i access_type start items !! j
  = Some {| info_chunk_id := i; info_tensor_id := tensor_id_of a access_type;
            start_offset := start + total_numel (take j items); numel := ps_numel a;
            info_param := param; info_access_type := access_type |}.
Proof.
  revert start j. induction items as [|[q b] items IH]; intros start j Hj; [done|].
  destruct j as [|j]; cbn in Hj.
  - simplify_eq. cbn. do 2 f_equal. unfold total_numel. cbn. lia.
  - cbn [layout lookup list_lookup]. rewrite (IH _ _ Hj). do 2 f_equal.
    unfold total_numel. cbn. lia.
Qed.

Lemma layout_tensor_ids i access_type start items :
  info_tensor_id <$> layout i access_type start items
  = (fun x => tensor_id_of x.2 access_type) <$> items.
Proof.
  revert start. induction items as [|[q b] items IH]; intros start; [done|].
  cbn. f_equal. apply IH.
Qed.

Lemma attrs_in_lookup s param_list items j param a :
  attrs_in s param_list = Some items → items !! j = Some (param, a) →
  attr_at s param = Some a.
Proof.
  revert items j. induction param_list as [|q l IH]; intros items j H Hj; cbn in H.
  - by simplify_eq.
  - destruct (attr_at s q) as [b|] eqn:Hb; [cbn in H | done].
    destruct (attrs_in s l) as [r|] eqn:Hr; [cbn in H | done]. simplify_eq.
    destruct j as [|j]; cbn in Hj; [by simplify_eq | by eapply IH].
Qed.

(** What [append_tensor] registers is found again.  When it returns for a
    list of registered parameters with distinct tensor ids, all of them are
    in the last chunk of the category, whether that is the chunk that was
    the last one or a chunk the call has appended: for each of them
    [get_chunk_id] answers that chunk and [get_tensor_info] the record with
    the parameter's element count at the offset that follows the parameters
    before it in the list; the list ends within the chunk size. *)
Theorem appended_tensors_are_found s param_list dt access_type chunk_type items s' :
  attrs_in s param_list = Some items →
  NoDup ((fun x => tensor_id_of x.2 access_type) <$> items) →
  append_tensor param_list dt access_type chunk_type s = Ok tt s' →
  ∃ c start,
    last (ids_of_type (chunk_list s') chunk_type) = Some c
    ∧ start + total_numel items ≤ index_default_chunk_size (index s')
    ∧ ∀ j param a,
        items !! j = Some (param, a) →
        get_chunk_id param access_type s' = Ok (Some c) s'
        ∧ get_tensor_info (tensor_id_of a access_type) s'
          = Ok {| info_chunk_id := c; info_tensor_id := tensor_id_of a access_type;
                  start_offset := start + total_numel (take j items);
                  numel := ps_numel a;
                  info_param := param; info_access_type := access_type |} s'.
Proof.
  intros Hitems Hnd Hrun.
  assert (Hfound : ∀ s0 c,
            params s0 = params s →
            last (ids_of_type (chunk_list s0) chunk_type) = Some c →
            try_insert_tensor_list c param_list access_type s0 = Ok true s' →
            ∃ c start,
              last (ids_of_type (chunk_list s') chunk_type) = Some c
              ∧ start + total_numel items ≤ index_default_chunk_size (index s')
              ∧ ∀ j param a,
                  items !! j = Some (param, a) →
                  get_chunk_id param access_type s' = Ok (Some c) s'
                  ∧ get_tensor_info (tensor_id_of a access_type) s'
                    = Ok {| info_chunk_id := c;
                            info_tensor_id := tensor_id_of a access_type;
                            start_offset := start + total_numel (take j items);
                            numel := ps_numel a;
                            info_param := param; info_access_type := access_type |} s').
  { intros s0 c Hp0 Hlast Hins.
    assert (Hitems0 : attrs_in s0 param_list = Some items)
      by by rewrite (attrs_in_ext _ _ _ Hp0).
    destruct (try_insert_true_inv _ _ _ _ _ _ Hitems0 Hins) as [-> Hfits].
    exists c, (chunk_used (index s0) c). split_and!; [done | exact Hfits |].
    intros j param a Hj.
    set (info := {| info_chunk_id := c; info_tensor_id := tensor_id_of a access_type;
                    start_offset := chunk_used (index s0) c + total_numel (take j items);
                    numel := ps_numel a;
                    info_param := param; info_access_type := access_type |}).
    set (infos := layout c access_type (chunk_used (index s0) c) items).
    assert (Hnd' : NoDup (info_tensor_id <$> infos))
      by (unfold infos; by rewrite layout_tensor_ids).
    assert (Hin : info ∈ infos)
      by (eapply list_elem_of_lookup_2; by apply layout_lookup).
    assert (Hinfo : tensor_id_to_info_map (index (with_index (register_infos c infos) s0))
                    !! tensor_id_of a access_type = Some info)
      by exact (register_infos_lookup_new infos (tensor_id_to_info_map (index s0))
                  info Hnd' Hin).
    assert (Hattr : attr_at (with_index (register_infos c infos) s0) param = Some a)
      by (eapply (attrs_in_lookup s0); done).
    split.
    - rewrite (get_chunk_id_run _ _ a) by done. f_equal. unfold chunk_of.
      by rewrite Hinfo.
    - by apply get_tensor_info_run. }
  unfold append_tensor in Hrun. cbv zeta in Hrun.
  rewrite (bind_run _ _ _ _ _ (is_empty_run _ _)) in Hrun.
  assert (Hnew : (appended <- append_chunk dt chunk_type false ;;
                  let chunk_id := appended.1 in
                  inserted <- try_insert_tensor_list chunk_id param_list access_type ;;
                  if negb inserted then raise RuntimeError else ret tt) s = Ok tt s' →
                 ∃ c, params (with_new_chunk s dt chunk_type) = params s
                      ∧ last (ids_of_type (chunk_list (with_new_chunk s dt chunk_type))
                                chunk_type) = Some c
                      ∧ try_insert_tensor_list c param_list access_type
                          (with_new_chunk s dt chunk_type) = Ok true s').
  { intros H. destruct (append_chunk_run s dt chunk_type) as (position & Happ).
    rewrite (bind_run _ _ _ _ _ Happ) in H. cbn [fst] in H. cbv zeta in H.
    apply bind_ok_inv in H as (inserted & s1 & Hins & H).
    destruct inserted; [|discriminate H]. cbn in H. injection H as <-.
    destruct (with_new_chunk_spec s dt chunk_type) as (_ & Hids & _ & _ & _ & Hp & _).
    exists (new_chunk_id s). split_and!; [done | | exact Hins].
    rewrite Hids. apply last_snoc. }
  case_bool_decide as Hempty; cbn [negb] in Hrun.
  - destruct (Hnew Hrun) as (c & Hp & Hlast & Hins). by eapply Hfound.
  - apply bind_ok_inv in Hrun as (c & s1 & Hlast & Hrun).
    unfold last_chunk_id in Hlast. minv Hlast.
    apply bind_ok_inv in Hrun as (inserted & s1 & Hins & Hrun).
    destruct inserted.
    + minv Hrun. by eapply (Hfound s c).
    + apply try_insert_false_no_mutation in Hins as ->.
      destruct (Hnew Hrun) as (c' & Hp & Hlast' & Hins'). by eapply Hfound.
Qed.

(** ** One chunk size for the client, the index and every chunk *)

(** The index plans with the client's chunk size, and every chunk of the
    chunk list has that capacity. *)
Definition well_sized (s : St) : Prop :=
  index_default_chunk_size (index s) = default_chunk_size s
  ∧ ∀ i c, chunks s !! i = Some c → capacity c = default_chunk_size s.

Definition stays_well_sized : relation St := fun s s' => well_sized s → well_sized s'.

#[local] Instance stays_well_sized_preorder : PreOrder stays_well_sized.
Proof. split; [intros s H; exact H | intros s1 s2 s3 H1 H2 H; by apply H2, H1]. Qed.

Lemma well_sized_update s i c c' :
  chunks s !! i = Some c → capacity c' = capacity c →
  stays_well_sized s (with_chunks (insert i c') s).
Proof.
  intros Hc Hcap [Hidx Hall]. split; [exact Hidx|].
  intros j cj. unfold chunks. cbn. destruct (decide (i = j)) as [->|Hne].
  - rewrite lookup_insert_eq. intros [= <-]. rewrite Hcap. by apply (Hall j).
  - rewrite lookup_insert_ne by done. apply Hall.
Qed.

Lemma well_sized_same s s' :
  default_chunk_size s' = default_chunk_size s →
  index_default_chunk_size (index s') = index_default_chunk_size (index s) →
  chunks s' = chunks s →
  stays_well_sized s s'.
Proof. intros H1 H2 H3 [Hidx Hall]. split; [congruence|]. rewrite H1, H3. exact Hall. Qed.

Lemma pin_stays_well_sized i : stable stays_well_sized (pin i).
Proof.
  intros s. unfold pin. apply related_get_chunk; [tc_solve|]. intros c Hc. cbn.
  intros Hw.
  apply (well_sized_same
           (with_chunks (insert i (set_pin_count (pin_count c + 1) c)) s));
    [done..|]. by apply (well_sized_update s i c).
Qed.

Lemma unpin_stays_well_sized i : stable stays_well_sized (unpin i).
Proof.
  intros s. unfold unpin. apply related_get_chunk; [tc_solve|]. intros c Hc. cbn.
  intros Hw.
  apply (well_sized_same
           (with_chunks (insert i (set_pin_count (pin_count c - 1) c)) s));
    [done..|]. by apply (well_sized_update s i c).
Qed.

Lemma release_payload_stays_well_sized i : stable stays_well_sized (release_payload i).
Proof.
  intros s. unfold release_payload. apply related_get_chunk; [tc_solve|].
  intros c Hc. cbn. intros Hw.
  apply (well_sized_same (with_chunks (insert i (set_payload None c)) s));
    [done..|]. by apply (well_sized_update s i c).
Qed.

Lemma allocate_payload_stays_well_sized i dev :
  stable stays_well_sized (allocate_payload i dev).
Proof.
  intros s. unfold allocate_payload. apply related_get_chunk; [tc_solve|].
  intros c Hc. cbn. intros Hw.
  apply (well_sized_same
           (with_chunks (insert i (set_payload (Some (fresh_storage s)) c)) s));
    [done..|]. by apply (well_sized_update s i c).
Qed.

Lemma chunk_move_stays_well_sized i dev : stable stays_well_sized (chunk_move i dev).
Proof.
  intros s. unfold chunk_move. apply related_get_chunk; [tc_solve|]. intros c Hc.
  cbn. destruct (payload c) as [sid|]; cbn; [|done].
  destruct (heap s !! sid); cbn; [|done]. intros Hw.
  apply (well_sized_same
           (with_chunks (insert i (set_payload (Some (fresh_storage s)) c)) s));
    [done..|]. by apply (well_sized_update s i c).
Qed.

Ltac well_sized_leaf :=
  first [ apply pin_stays_well_sized | apply unpin_stays_well_sized
        | apply release_payload_stays_well_sized
        | apply allocate_payload_stays_well_sized
        | apply chunk_move_stays_well_sized
        | apply stable_modify; intros ?; apply well_sized_same; exact eq_refl
        | apply stable_has_released_chunk; tc_solve
        | apply stable_make_room;
          [tc_solve | intros ? ?; apply chunk_move_stays_well_sized] ].

(** [append_chunk] gives the new chunk the client's chunk size. *)
Lemma append_chunk_stays_well_sized dt chunk_type is_dummy :
  stable stays_well_sized (append_chunk dt chunk_type is_dummy).
Proof.
  intros s [Hidx Hall].
  unfold append_chunk, generate_chunk_id, new_chunk, add_chunk. cbn.
  split; [exact Hidx|]. intros j cj. unfold chunks. cbn.
  destruct (decide (size (chunks s) = j)) as [<-|Hne].
  - unfold chunks. rewrite lookup_insert_eq. by intros [= <-].
  - unfold chunks in Hne. rewrite lookup_insert_ne by done. apply Hall.
Qed.

Lemma attrs_of_state param_list s : out_state (attrs_of param_list s) = s.
Proof.
  revert s. induction param_list as [|param l IH]; intros s; [done|].
  cbn [attrs_of]. rewrite out_state_bind.
  destruct (get_ps_attr param s) as [a s1|e s1] eqn:Ha.
  - apply get_ps_attr_ok_inv in Ha as [_ ->]. rewrite out_state_bind.
    specialize (IH s). destruct (attrs_of l s) as [r s2|e s2]; cbn in *; done.
  - unfold get_ps_attr in Ha. cbn in Ha.
    destruct (params s !! param) as [p|]; cbn in Ha; [|by simplify_eq].
    destruct (ps_attr p); cbn in Ha; by simplify_eq.
Qed.

Lemma try_insert_stays_well_sized i param_list access_type :
  stable stays_well_sized (try_insert_tensor_list i param_list access_type).
Proof.
  intros s. unfold try_insert_tensor_list.
  apply related_bind; [tc_solve | by rewrite attrs_of_state |].
  intros items s1 Hitems.
  pose proof (attrs_of_state param_list s) as Hs. rewrite Hitems in Hs. cbn in Hs.
  subst s1. apply (stable_out stays_well_sized). stable_go ltac:(well_sized_leaf).
Qed.

(** The client is constructed with one chunk size for itself and for the
    index, and [append_chunk] gives every chunk that size; no registration, no
    access and no release changes a size.  So in every state reached from a
    new client the index plans with the capacity the chunks have. *)
Theorem one_chunk_size_throughout e rank chunk_size ps :
  well_sized (new_client e rank chunk_size ps)
  ∧ ∀ s, well_sized s →
      (∀ dt chunk_type is_dummy,
         well_sized (out_state (append_chunk dt chunk_type is_dummy s)))
      ∧ (∀ param_list dt access_type chunk_type,
           well_sized (out_state (append_tensor param_list dt access_type chunk_type s)))
      ∧ (∀ param access_type dev,
           well_sized (out_state (access param access_type dev s))
           ∧ well_sized (out_state (access_dist param access_type dev s)))
      ∧ (∀ param access_type st stage reduce,
           well_sized (out_state (release param access_type st s))
           ∧ well_sized (out_state (release_dist param access_type st stage reduce s))).
Proof.
  split; [by split|]. intros s Hw. split_and!.
  - intros dt chunk_type is_dummy. by apply append_chunk_stays_well_sized.
  - intros param_list dt access_type chunk_type. revert s Hw.
    change (stable stays_well_sized (append_tensor param_list dt access_type chunk_type)).
    unfold append_tensor. cbv zeta.
    stable_go ltac:(first [ apply append_chunk_stays_well_sized
                          | apply try_insert_stays_well_sized
                          | well_sized_leaf ]).
  - intros param access_type dev. split; revert s Hw.
    + change (stable stays_well_sized (access param access_type dev)).
      stable_go ltac:(well_sized_leaf).
    + change (stable stays_well_sized (access_dist param access_type dev)).
      stable_go ltac:(well_sized_leaf).
  - intros param access_type st stage reduce. split; revert s Hw.
    + change (stable stays_well_sized (release param access_type st)).
      stable_go ltac:(well_sized_leaf).
    + change (stable stays_well_sized (release_dist param access_type st stage reduce)).
      stable_go ltac:(well_sized_leaf).
Qed.

End Model.

(** * Concrete runs

    Two processes, this one of rank 0, an accelerator with room for 64 bytes
    and payloads over [Z].  Fresh memory holds 7s; in collective call [k]
    process [p] sends [1000 k + 100 p + j] as its element [j]. *)

Definition two_processes : Env Z :=
  {| world_size := 2; rank := 0; dist_initialized := true;
     device_capacity := fun d => match d with CPU => 1000 | CUDA _ => 64 end;
     stale := fun _ _ => 7%Z;
     peer_payload := fun k p j => (1000 * Z.of_nat k + 100 * Z.of_nat p + Z.of_nat j)%Z |}.

(** The attributes of a registered parameter of [n] elements, its tensors
    [FREE]. *)
Definition chunk_attr (n id : nat) : PSParameter :=
  {| ps_numel := n; ps_data_type := Half; param_type := CHUNK_BASED;
     data_id := 2 * id; grad_id := 2 * id + 1;
     data_status := FREE; grad_status := FREE;
     data_tensor := None; grad_tensor := None |}.

Definition chunk_param (n id : nat) : Param :=
  {| p_data := EmptyTensor Half CPU; p_grad := None;
     ps_attr := Some (chunk_attr n id) |}.

(** A parameter that stays with the framework. *)
Definition torch_param : Param :=
  {| p_data := EmptyTensor Float CPU; p_grad := None;
     ps_attr := Some {| ps_numel := 2; ps_data_type := Float; param_type := TORCH_BASED;
                        data_id := 8; grad_id := 9;
                        data_status := FREE; grad_status := FREE;
                        data_tensor := None; grad_tensor := None |} |}.

(** A client with chunks of 8 elements and nothing registered yet:
    parameters 0 to 3 are chunk-based, of 3, 5, 4 and 9 elements; parameter 4
    is torch-based; parameter 5 is not registered. *)
Definition fresh_client (e : Env Z) : State Z :=
  {| env := e; local_rank := 0; default_chunk_size := 8;
     chunk_list := {| chunk_id_to_chunk_dict := ∅; chunk_type_to_id_list := [];
                      recently_needed := [] |};
     chunk_tensor_index := {| index_default_chunk_size := 8;
                              tensor_id_to_info_map := ∅;
                              chunk_id_to_tensor_id_list_map := ∅;
                              chunk_id_to_comm_group_map := ∅;
                              comm_group_to_chunk_id_list := [] |};
     params := list_to_map [(0, chunk_param 3 0); (1, chunk_param 5 1);
                            (2, chunk_param 4 2); (3, chunk_param 9 3);
                            (4, torch_param);
                            (5, {| p_data := EmptyTensor Float CPU; p_grad := None;
                                   ps_attr := None |})];
     heap := ∅; trace := [] |}.

(** Parameters 0 and 1 fill chunk 0; parameter 2 does not fit and opens
    chunk 1.  The two chunks form one communication group, chunk 0 being this
    process's. *)
Definition registered (e : Env Z) : State Z :=
  out_state ((append_tensor [0; 1] Half DATA PARAM_FP16 ;;
              append_tensor [2] Half DATA PARAM_FP16) (fresh_client e)).

(** One process, the process group initialised. *)
Definition one_process : Env Z :=
  {| world_size := 1; rank := 0; dist_initialized := true;
     device_capacity := fun d => match d with CPU => 1000 | CUDA _ => 64 end;
     stale := fun _ _ => 7%Z;
     peer_payload := fun _ _ _ => 0%Z |}.

(** One process that never initialised the process group. *)
Definition standalone : Env Z :=
  {| world_size := 1; rank := 0; dist_initialized := false;
     device_capacity := fun d => match d with CPU => 1000 | CUDA _ => 64 end;
     stale := fun _ _ => 7%Z;
     peer_payload := fun _ _ _ => 0%Z |}.

Ltac by_run := vm_compute; reflexivity.

(** ** C10 *)

Lemma torch_based_param_bypasses_chunks_witness :
  let s := fresh_client two_processes in
  access 4 DATA CPU s = Ok (Some (EmptyTensor Float CPU)) s
  ∧ access_dist 4 GRAD CPU s = Ok None s
  ∧ release 4 DATA HOLD s = Ok tt s
  ∧ release_dist 4 DATA HOLD FWD true s = Ok tt s.
Proof.
  intros s.
  assert (Hp : params s !! 4 = Some torch_param) by by_run.
  destruct (torch_based_param_bypasses_chunks s 4 torch_param _ DATA CPU HOLD FWD true
              Hp eq_refl eq_refl) as (H1 & _ & H3 & H4).
  destruct (torch_based_param_bypasses_chunks s 4 torch_param _ GRAD CPU HOLD FWD true
              Hp eq_refl eq_refl) as (_ & H2 & _).
  exact (conj H1 (conj H2 (conj H3 H4))).
Defined.

(** ** C7 *)

Lemma access_without_chunk_fails_fast_witness :
  let s := registered two_processes in
  (access 5 DATA CPU s = Raise AssertionError s
   ∧ access_dist 5 DATA CPU s = Raise AssertionError s)
  ∧ (access 3 DATA CPU s = Raise RuntimeError s
     ∧ access_dist 3 DATA CPU s = Raise KeyError s).
Proof.
  intros s. split.
  - apply (access_without_chunk_fails_fast s 5 DATA CPU). by_run.
  - eapply (access_without_chunk_fails_fast s 3 DATA CPU); by_run.
Defined.

(** ** C8 *)

Lemma release_frame_witness :
  let s := registered two_processes in
  ∃ s', release 0 DATA HOLD_AFTER_FWD s = Ok tt s'
        ∧ chunk_list s' = chunk_list s ∧ heap s' = heap s
        ∧ status_at s' 0 DATA = Some HOLD_AFTER_FWD
        ∧ params s' !! 1 = params s !! 1.
Proof.
  intros s.
  assert (Hp : params s !! 0 = Some (chunk_param 3 0)) by by_run.
  assert (Hc : chunks s !! 0
               = Some {| capacity := 8; data_type := Half; is_dummy_flag := false;
                         pin_count := 0; payload := None |}) by by_run.
  destruct (release_frame s 0 _ _ DATA HOLD_AFTER_FWD 0 _ Hp eq_refl eq_refl
              ltac:(by_run) Hc)
    as (s' & p' & a' & Hrun & Hcl & Hh & _ & _ & Hothers & Hp' & Ha' & Hst & _).
  exists s'. split_and!; [done..| |by apply Hothers].
  unfold status_at, attr_at. rewrite Hp'. cbn [mbind option_bind].
  rewrite Ha'. cbn [mbind option_bind]. by rewrite Hst.
Defined.

(** ** C1 *)


(** ** C3 *)



(** ** C4 *)

(** A local first touch: the window of the [FREE] tensor reads zeros, not the
    7s the fresh storage held. *)
Lemma zero_fill_on_first_touch_witness :
  let s := registered two_processes in
  ∃ s', access 1 DATA CPU s = Ok (Some (Narrow 0 3 5)) s'
        ∧ tensor_elems s' (Narrow 0 3 5) = [0; 0; 0; 0; 0]%Z
        ∧ take 3 (payload_elems s' 0) = [7; 7; 7]%Z.
Proof.
  intros s.
  assert (Hp : params s !! 1 = Some (chunk_param 5 1)) by by_run.
  destruct (zero_fill_on_first_touch s 1 _ _ DATA CPU
              {| info_chunk_id := 0; info_tensor_id := 2; start_offset := 3; numel := 5;
                 info_param := 1; info_access_type := DATA |}
              Hp eq_refl eq_refl ltac:(by_run) eq_refl) as [Hlocal _].
  destruct (Hlocal (out_state (access_chunk (Some 0) CPU s))
              {| capacity := 8; data_type := Half; is_dummy_flag := false;
                 pin_count := 0; payload := Some 0 |}
              0 {| st_device := CPU; st_data := replicate 8 7%Z |}
              ltac:(by_run) ltac:(by_run) eq_refl ltac:(by_run) ltac:(vm_compute; lia))
    as (s' & Hrun & [_ Hwindow [Houtside _] _ _] & _).
  exists s'. split_and!; [exact Hrun | exact Hwindow |].
  etrans; [exact Houtside | by_run].
Defined.

(** C4 as stated has every access to a [FREE] tensor zero-fill its region.  A
    distributed access that gathers marks the tensors of the group [HOLD]
    before it reads the status: the tensor was [FREE] at the call, and the
    window handed back still reads what the storage held. *)
Lemma gathering_access_does_not_zero_fill :
  let s := registered two_processes in
  let s' := out_state (access_dist 0 DATA (CUDA 0) s) in
  status_at s 0 DATA = Some FREE
  ∧ access_dist 0 DATA (CUDA 0) s = Ok (Some (Narrow 0 0 3)) s'
  ∧ status_at s' 0 DATA = Some COMPUTE
  ∧ tensor_elems s' (Narrow 0 0 3) = [7; 7; 7]%Z
  ∧ tensor_elems s' (Narrow 0 0 3) ≠ replicate 3 ezero.
Proof. intros s s'. split_and!; [by_run..|]. vm_compute. discriminate. Qed.

(** ** C5 *)

Lemma single_process_is_local_witness :
  let s := registered one_process in
  access_dist 0 DATA CPU s = access 0 DATA CPU s
  ∧ release_dist 0 DATA HOLD_AFTER_FWD FWD true s = release 0 DATA HOLD_AFTER_FWD s
  ∧ trace (out_state (release_dist 0 DATA HOLD_AFTER_FWD FWD true s)) = trace s.
Proof.
  intros s.
  destruct (single_process_is_local s 0 (chunk_attr 3 0) DATA 0
              ltac:(by_run) eq_refl ltac:(by_run) eq_refl)
    as [Haccess Hrelease].
  destruct (Haccess CPU) as [Heq _].
  destruct (Hrelease HOLD_AFTER_FWD FWD true [0] 0 eq_refl (or_introl eq_refl)
              ltac:(by_run) eq_refl) as (Hr & Ht & _).
  exact (conj Heq (conj Hr Ht)).
Defined.

(** C5 as stated has [release_dist] do what [release] does whenever there is
    one process.  With one process and no process group, [release] makes the
    transition and [release_dist] stops at its assertion, the tensor's status
    untouched. *)
Lemma release_dist_needs_the_process_group :
  let s := registered standalone in
  let s' := out_state (release 0 DATA HOLD_AFTER_FWD s) in
  world_size (env s) = 1
  ∧ release 0 DATA HOLD_AFTER_FWD s = Ok tt s'
  ∧ status_at s' 0 DATA = Some HOLD_AFTER_FWD
  ∧ release_dist 0 DATA HOLD_AFTER_FWD FWD false s = Raise AssertionError s
  ∧ status_at s 0 DATA = Some FREE.
Proof. intros s s'. split_and!; by_run. Qed.

(** ** C6 *)


(** A list that fits the last chunk goes there: parameter 2, of 4 elements,
    after parameter 0, of 3. *)
Example append_tensor_into_the_last_chunk :
  let s := out_state (append_tensor [0] Half DATA PARAM_FP16 (fresh_client two_processes)) in
  let s' := out_state (append_tensor [2] Half DATA PARAM_FP16 s) in
  chunk_list s' = chunk_list s
  ∧ tensor_info_in_order (index s') 0
    = [ {| info_chunk_id := 0; info_tensor_id := 0; start_offset := 0; numel := 3;
           info_param := 0; info_access_type := DATA |};
        {| info_chunk_id := 0; info_tensor_id := 4; start_offset := 3; numel := 4;
           info_param := 2; info_access_type := DATA |} ].
Proof. intros s s'. split; by_run. Qed.

(** ** C2 *)

(** Both chunks gathered and all three tensors used; the tensors of chunk 0
    are already released to [HOLD_AFTER_BWD], the tensor of chunk 1 is still
    in use. *)
Definition before_collapse : State Z :=
  out_state ((access_dist 0 DATA (CUDA 0) ;;
              access_dist 1 DATA (CUDA 0) ;;
              access_dist 2 DATA (CUDA 0) ;;
              release_dist 0 DATA HOLD_AFTER_BWD BWD true ;;
              release_dist 1 DATA HOLD_AFTER_BWD BWD true) (registered two_processes)).


